(** * Foreign Linux (flinux): signal core and virtual file system

    A shallow embedding of [src/syscall/sig.c] (the signal subsystem
    followed by the VFS layer), the properties its specification states
    about it, and further properties of the code.

    Conventions of the embedding.

    - A C string is the list of its bytes before the terminating NUL.
    - An [int] is a [Z]; the negated errno values are those of Linux.
    - A pointer that walks inside a character buffer is the list of bytes on
      its left; where the C code would move such a pointer in front of the
      buffer, or index an array outside its bounds, the model answers
      [None] (the behaviour of the C program is undefined there).
    - Buffer capacities ([PATH_MAX], [MAX_PATH]) are not modelled: the
      source itself leaves them unchecked ("TODO: Avoid overflow").
    - Calls into collaborators that are not part of this file (file system
      drivers, the memory manager, the binary translator, Win32) are
      parameters of the sections that use them. *)

From Stdlib Require Import ZArith Ascii String.
From stdpp Require Import base list strings.
From Equations Require Import Equations.

Local Open Scope char_scope.
Local Open Scope Z_scope.

(** ** Errno values *)

(** Modelled from the spec: [common/errno.h] is not part of the sources; the
    specification names the errors the core returns, and the emulated
    personality, Linux on i386, fixes their numbers. *)
Definition ENOENT : Z := 2.
Definition EBADF : Z := 9.
Definition EFAULT : Z := 14.
Definition EINVAL : Z := 22.
Definition EMFILE : Z := 24.
Definition ELOOP : Z := 40.

(** ** C strings *)

Definition NUL : ascii := Ascii.zero.

(** [s[i]] for a C string: the terminator is read at and past the end. *)
Definition char_at (s : list ascii) (i : nat) : ascii := nth i s NUL.

(** String literals in examples. *)
Definition str (s : string) : list ascii := list_ascii_of_string s.

(** The C string held in a raw buffer: the bytes before the first NUL. *)
Fixpoint c_str (buf : list ascii) : list ascii :=
  match buf with
  | [] => []
  | c :: rest => if Ascii.eqb c NUL then [] else c :: c_str rest
  end.

(** * Component A: the path normaliser *)

Module Path.

(** In [normalize_path] the output pointer [p] is modelled by [rout], the
    bytes [out[0..p)] in reverse order: the head of [rout] is [p[-1]],
    [*p++ = c] is [c :: rout], and [p > out] is [rout <> []]. *)

(** [while (p > out && p[-1] != '/') p--;] *)
Fixpoint pop_to_slash (rout : list ascii) : list ascii :=
  match rout with
  | [] => []
  | c :: r => if Ascii.eqb c "/" then rout else pop_to_slash r
  end.

(** [p--; while (p > out && p[-1] != '/') p--;]
    The decrement is unconditional: with [p == out] it leaves the buffer. *)
Definition pop_component (rout : list ascii) : option (list ascii) :=
  match rout with
  | [] => None
  | _ :: r => Some (pop_to_slash r)
  end.

(** [while ( *pathname && *pathname != '/') *p++ = *pathname++;
     if ( *pathname == '/') *p++ = *pathname++;]
    Returns the rest of [pathname] and the new output. *)
Fixpoint copy_component (pathname rout : list ascii)
  : list ascii * list ascii :=
  match pathname with
  | [] => ([], rout)
  | c :: rest =>
      if Ascii.eqb c "/" then (rest, c :: rout)
      else copy_component rest (c :: rout)
  end.

(** One iteration of the [while (pathname[0])] loop. *)
Definition normalize_step (pathname rout : list ascii)
  : option (list ascii * list ascii) :=
  let c0 := char_at pathname 0 in
  let c1 := char_at pathname 1 in
  let c2 := char_at pathname 2 in
  if Ascii.eqb c0 "/" then
    Some (drop 1 pathname, rout)
  else if Ascii.eqb c0 "." && Ascii.eqb c1 "/" then
    Some (drop 2 pathname, rout)
  else if Ascii.eqb c0 "." && Ascii.eqb c1 NUL then
    Some (drop 1 pathname, c0 :: rout)
  else if Ascii.eqb c0 "." && Ascii.eqb c1 "."
          && (Ascii.eqb c2 "/" || Ascii.eqb c2 NUL) then
    rout' ← pop_component rout;
    Some (drop (if Ascii.eqb c2 NUL then 2 else 3)%nat pathname, rout')
  else
    Some (copy_component pathname rout).

Lemma copy_component_length pathname rout :
  (length (copy_component pathname rout).1 ≤ length pathname)%nat.
Proof.
  revert rout; induction pathname as [|c rest IH]; intros rout; simpl; [lia|].
  destruct (Ascii.eqb c "/"); simpl; [lia|].
  specialize (IH (c :: rout)); lia.
Qed.

Lemma copy_component_shrinks c rest rout :
  Ascii.eqb c "/" = false →
  (length (copy_component (c :: rest) rout).1 < length (c :: rest))%nat.
Proof.
  intros Hc; simpl; rewrite Hc.
  pose proof (copy_component_length rest (c :: rout)); lia.
Qed.

(** Every iteration consumes at least one byte of [pathname]. *)
Lemma normalize_step_shrinks c rest rout pathname' rout' :
  normalize_step (c :: rest) rout = Some (pathname', rout') →
  (length pathname' < length (c :: rest))%nat.
Proof.
  unfold normalize_step, char_at; cbn [nth].
  destruct (Ascii.eqb c "/") eqn:Hslash.
  { intros [= <- <-]; simpl; rewrite drop_0; lia. }
  destruct (Ascii.eqb c "." && Ascii.eqb (nth 0 rest NUL) "/") eqn:H1.
  { intros [= <- <-]. rewrite length_drop; simpl; lia. }
  destruct (Ascii.eqb c "." && Ascii.eqb (nth 0 rest NUL) NUL) eqn:H2.
  { intros [= <- <-]; simpl; rewrite drop_0; lia. }
  destruct (Ascii.eqb c "." && Ascii.eqb (nth 0 rest NUL) "."
            && (Ascii.eqb (nth 1 rest NUL) "/"
                || Ascii.eqb (nth 1 rest NUL) NUL)) eqn:H3.
  { destruct (pop_component rout) as [r|]; simpl; [|discriminate].
    intros [= <- <-].
    destruct (Ascii.eqb (nth 1 rest NUL) NUL);
      rewrite length_drop; simpl; lia. }
  intros [= Heq].
  pose proof (copy_component_shrinks c rest rout Hslash) as Hlt.
  change (copy_component (c :: rest) rout = (pathname', rout')) in Heq.
  rewrite Heq in Hlt; exact Hlt.
Qed.

(** A value together with the equation that defines it, so that the
    recursive call below knows which step produced its argument. *)
Definition remember_eq {A} (a : A) : {b : A | a = b} := exist _ a eq_refl.

(** The loop [while (pathname[0]) { ... }]. *)
Equations? normalize_loop (pathname rout : list ascii)
  : option (list ascii) by wf (length pathname) lt :=
normalize_loop [] rout := Some rout;
normalize_loop (c :: rest) rout with remember_eq (normalize_step (c :: rest) rout) := {
  | exist _ (Some next) Hstep => normalize_loop next.1 next.2
  | exist _ None _ => None }.
Proof.
  match goal with
  | H : normalize_step _ _ = Some _ |- _ =>
      exact (normalize_step_shrinks _ _ _ _ _ H)
  end.
Qed.

(** The prologue: [pathname[0] == '/'] starts the output with ["/"];
    otherwise [current] is copied and a ['/'] appended unless [p[-1]] is
    one already.  With an empty [current] the test reads [out[-1]]. *)
Definition normalize_start (current pathname : list ascii)
  : option (list ascii * list ascii) :=
  if Ascii.eqb (char_at pathname 0) "/" then
    Some (drop 1 pathname, ["/"])
  else
    match rev current with
    | [] => None
    | (c :: _) as rout =>
        Some (pathname, if Ascii.eqb c "/" then rout else "/" :: rout)
    end.

(** The epilogue: [if (p - 1 > out && p[-1] == '/') p[-1] = 0; else *p = 0;]
    and the resulting C string in [out]. *)
Definition normalize_finish (rout : list ascii) : list ascii :=
  match rout with
  | c :: ((_ :: _) as r) => if Ascii.eqb c "/" then rev r else rev rout
  | _ => rev rout
  end.

(** [normalize_path(current, pathname, out)]: [Some out] when the function
    returns (its [int] result is the constant 1), [None] when it walks out
    of the buffer.  Aliasing [current] and [out] makes no difference to the
    bytes written, so the model has one case for both. *)
Definition normalize_path (current pathname : list ascii)
  : option (list ascii) :=
  '(pathname', rout) ← normalize_start current pathname;
  rout' ← normalize_loop pathname' rout;
  Some (normalize_finish rout').

(** ** Normalised paths

    The shape of an output that still starts with ['/']: the root alone, or
    ['/'] followed by components separated by single ['/'], none of them
    empty, ["."] or [".."], except that the last one may be ["."]. *)

Definition component (c : list ascii) : Prop :=
  c ≠ [] ∧ ("/" ∉ c) ∧ (NUL ∉ c) ∧ c ≠ ["."] ∧ c ≠ ["."; "."].

(** The components, each followed by its separator. *)
Fixpoint joined (cs : list (list ascii)) : list ascii :=
  match cs with
  | [] => []
  | c :: cs => c ++ "/" :: joined cs
  end.

Definition normalised (r : list ascii) : Prop :=
  r = ["/"] ∨
  ∃ cs t, Forall component cs ∧ (t = ["."] ∨ component t)
          ∧ r = "/" :: joined cs ++ t.

(** The output ["/c1/.../cn/"] as the loop holds it, reversed; [rcs] lists
    the components latest first. *)
Fixpoint rstate (rcs : list (list ascii)) : list ascii :=
  match rcs with
  | [] => ["/"]
  | c :: rcs => "/" :: rev c ++ rstate rcs
  end.

(** The output starts with ['/']. *)
Definition rooted (rout : list ascii) : Prop := last rout = Some "/".

End Path.

(** * Components B, C and D: the virtual file system *)

Module Vfs.
Section WithHost.

(** [struct file *]: the identity of an open file object. *)
Context {file : Type} `{EqDecision file}.

(** The state of the host and of the file system drivers, which the driver
    entry points read and change. *)
Context {World : Type}.

(** What [fs->open(path, flags, mode, &f, target, MAX_PATH)] leaves behind:
    its result, the pointer stored in [*f] (if any), and the bytes of the
    [target] buffer. *)
Record open_reply := {
  open_ret : Z;
  open_file : option file;
  open_target : list ascii;
}.

(** [struct file_system], with the two operations [vfs_open] uses.  A null
    function pointer is [None].  Both operations receive the current
    contents of the caller's [target] buffer, which they may overwrite;
    [fs_readlink] answers the number of bytes it stored (or a negated errno)
    and does not terminate them. *)
Record file_system := {
  mountpoint : list ascii;
  fs_open :
    option (World → list ascii → Z → Z → list ascii → open_reply * World);
  fs_readlink :
    option (World → list ascii → list ascii → (Z * list ascii) * World);
}.

(** ** Component B: the registry

    [vfs->fs_first] and the [next] links are the list of mounted file
    systems, head first. *)

(** [fs->next = vfs->fs_first; vfs->fs_first = fs;] *)
Definition vfs_add (fs : file_system) (fs_first : list file_system)
  : list file_system :=
  fs :: fs_first.

(** [while ( *p && *p == *subpath) { p++; subpath++; }] followed by the test
    [*p == 0]: [Some subpath] when the whole mount point was matched. *)
Fixpoint match_mountpoint (p subpath : list ascii) : option (list ascii) :=
  match p with
  | [] => Some subpath
  | c :: p' =>
      match subpath with
      | [] => None
      | d :: subpath' =>
          if Ascii.eqb c d then match_mountpoint p' subpath' else None
      end
  end.

(** [find_filesystem(path, &out_fs, &out_subpath)]: [Some (fs, subpath)]
    for result 1, [None] for result 0. *)
Fixpoint find_filesystem (fs_first : list file_system) (path : list ascii)
  : option (file_system * list ascii) :=
  match fs_first with
  | [] => None
  | fs :: next =>
      match match_mountpoint (mountpoint fs) path with
      | Some subpath =>
          Some (fs, if Ascii.eqb (char_at subpath 0) "/"
                    then drop 1 subpath else subpath)
      | None => find_filesystem next path
      end
  end.

(** The registry after a series of [vfs_add] calls, oldest first. *)
Definition registry_after (added : list file_system) : list file_system :=
  foldl (λ fs_first fs, vfs_add fs fs_first) [] added.

(** The lookup as the specification words it: the first entry whose mount
    point is a prefix of the path, and the path without that prefix and
    without one leading ['/']. *)
Definition strip_slash (s : list ascii) : list ascii :=
  match s with
  | c :: s' => if Ascii.eqb c "/" then s' else s
  | [] => []
  end.

Definition first_prefix_match (entries : list file_system) (path : list ascii)
  : option (file_system * list ascii) :=
  match list_find (λ fs, mountpoint fs `prefix_of` path) entries with
  | Some (_, fs) =>
      Some (fs, strip_slash (drop (length (mountpoint fs)) path))
  | None => None
  end.

(** ** Component D: the descriptor table and the reference counts *)

(** The table size of [syscall/vfs.h], which is not part of the sources. *)
Variable MAX_FD_COUNT : nat.

(** Modelled from the spec: [common/fcntl.h] is not part of the sources; the
    flag bits are those of the emulated personality, Linux on i386. *)
Definition O_NONBLOCK : Z := 0x800.
Definition O_DIRECT : Z := 0x4000.
Definition O_CLOEXEC : Z := 0x80000.

(** [struct vfs_data] together with the part of the heap the VFS touches:
    the [ref] field of every file object, and the calls made so far to
    [f->op_vtable->close(f)] (latest first).  [ref] is an unbounded
    integer: the width of the field is declared outside the sources. *)
Record vfs_state := {
  fds : list (option file);
  fds_cloexec : list Z;
  fs_first : list file_system;
  cwd : list ascii;
  umask : Z;
  f_ref : file → Z;
  closed : list file;
}.

Definition set_slot (i : nat) (f : option file) (cloexec : Z) (st : vfs_state)
  : vfs_state :=
  {| fds := <[i := f]> (fds st);
     fds_cloexec := <[i := cloexec]> (fds_cloexec st);
     fs_first := fs_first st; cwd := cwd st; umask := umask st;
     f_ref := f_ref st; closed := closed st |}.

Definition set_ref (f : file) (n : Z) (st : vfs_state) : vfs_state :=
  {| fds := fds st; fds_cloexec := fds_cloexec st;
     fs_first := fs_first st; cwd := cwd st; umask := umask st;
     f_ref := λ g, if decide (g = f) then n else f_ref st g;
     closed := closed st |}.

Definition call_close (f : file) (st : vfs_state) : vfs_state :=
  {| fds := fds st; fds_cloexec := fds_cloexec st;
     fs_first := fs_first st; cwd := cwd st; umask := umask st;
     f_ref := f_ref st; closed := f :: closed st |}.

(** The two arrays have the size their declaration gives them. *)
Definition table_ok (st : vfs_state) : Prop :=
  length (fds st) = MAX_FD_COUNT ∧ length (fds_cloexec st) = MAX_FD_COUNT.

(** [vfs->fds[i]] for an index inside the array. *)
Definition slot (st : vfs_state) (i : nat) : option file :=
  default None (fds st !! i).

(** [vfs_get(fd)] *)
Definition vfs_get (fd : Z) (st : vfs_state) : option file :=
  if (fd <? 0) || (fd >=? Z.of_nat MAX_FD_COUNT) then None
  else slot st (Z.to_nat fd).

(** [vfs_ref(f)]: [f->ref++] *)
Definition vfs_ref (f : file) (st : vfs_state) : vfs_state :=
  set_ref f (f_ref st f + 1) st.

(** [vfs_release(f)]: [if (--f->ref == 0) f->op_vtable->close(f);] *)
Definition vfs_release (f : file) (st : vfs_state) : vfs_state :=
  let st' := set_ref f (f_ref st f - 1) st in
  if f_ref st' f =? 0 then call_close f st' else st'.

(** [vfs_close(fd)].  The function checks neither the range of [fd] nor
    that the slot is occupied; its callers do.  Outside of that it
    dereferences a null or stray pointer. *)
Definition vfs_close (fd : Z) (st : vfs_state) : option vfs_state :=
  if (fd <? 0) || (fd >=? Z.of_nat MAX_FD_COUNT) then None
  else
    match slot st (Z.to_nat fd) with
    | None => None
    | Some f => Some (set_slot (Z.to_nat fd) None 0 (vfs_release f st))
    end.

(** [for (int i = 0; i < MAX_FD_COUNT; i++) if (vfs->fds[i] == NULL) ...]:
    the first empty slot among [i, i + n). *)
Fixpoint first_empty (st : vfs_state) (i n : nat) : option nat :=
  match n with
  | O => None
  | S n' =>
      match slot st i with
      | None => Some i
      | Some _ => first_empty st (S i) n'
      end
  end.

(** [vfs_store_file(f, cloexec)] *)
Definition vfs_store_file (f : file) (cloexec : Z) (st : vfs_state)
  : Z * vfs_state :=
  match first_empty st 0 MAX_FD_COUNT with
  | Some i => (Z.of_nat i, set_slot i (Some f) cloexec st)
  | None => (- EMFILE, st)
  end.

(** [vfs_dup(fd, newfd, flags)] *)
Definition vfs_dup (fd newfd flags : Z) (st : vfs_state)
  : option (Z * vfs_state) :=
  match vfs_get fd st with
  | None => Some (- EBADF, st)
  | Some f =>
      let finish (newfd : Z) (st : vfs_state) :=
        let cloexec := if Z.land flags O_CLOEXEC =? 0 then 0 else 1 in
        let st := set_slot (Z.to_nat newfd) (Some f) cloexec st in
        (newfd, vfs_ref f st) in
      if newfd =? -1 then
        match first_empty st 0 MAX_FD_COUNT with
        | Some i => Some (finish (Z.of_nat i) st)
        | None => Some (- EMFILE, st)
        end
      else if (newfd =? fd) || (newfd <? 0)
              || (newfd >=? Z.of_nat MAX_FD_COUNT) then
        Some (- EINVAL, st)
      else
        match slot st (Z.to_nat newfd) with
        | Some _ => st' ← vfs_close newfd st; Some (finish newfd st')
        | None => Some (finish newfd st)
        end
  end.

(** [sys_close(fd)].  The slot is read without a range check. *)
Definition sys_close (fd : Z) (st : vfs_state) : option (Z * vfs_state) :=
  if (fd <? 0) || (fd >=? Z.of_nat MAX_FD_COUNT) then None
  else
    match slot st (Z.to_nat fd) with
    | None => Some (- EBADF, st)
    | Some _ => st' ← vfs_close fd st; Some (0, st')
    end.

(** [pipe_alloc(&fread, &fwrite, flags)] of [fs/pipe.c], which is not part of
    the sources: its result, the two file objects, and the state it leaves. *)
Variable pipe_alloc : Z → vfs_state → Z * file * file * vfs_state.

(** [sys_pipe2(pipefd, flags)].  [pipefd_writable] is the answer of
    [mm_check_write(pipefd, 2 * sizeof(int))]; the second component of the
    result is the pair stored into [pipefd]. *)
Definition sys_pipe2 (pipefd_writable : bool) (flags : Z) (st : vfs_state)
  : option (Z * option (Z * Z) * vfs_state) :=
  if negb (Z.land flags O_DIRECT =? 0) || negb (Z.land flags O_NONBLOCK =? 0)
  then Some (- EINVAL, None, st)
  else if negb pipefd_writable then Some (- EFAULT, None, st)
  else
    let '(r, fread, fwrite, st) := pipe_alloc flags st in
    if r <? 0 then Some (r, None, st)
    else
      let cloexec := if Z.land flags O_CLOEXEC >? 0 then 1 else 0 in
      let '(rfd, st) := vfs_store_file fread cloexec st in
      if rfd <? 0 then
        Some (rfd, None, vfs_release fwrite (vfs_release fread st))
      else
        let '(wfd, st) := vfs_store_file fwrite cloexec st in
        if wfd <? 0 then
          st ← vfs_close rfd st;
          Some (wfd, None, vfs_release fwrite st)
        else Some (0, Some (rfd, wfd), st).

(** What the specification expects of a duplication of [f] into slot [k]:
    the slot holds [f] with the requested close-on-exec bit, the other slots
    are as before, the file that occupied the slot (if any) has lost one
    reference, and has been closed if that was its last, and [f] has gained
    one. *)
Definition dup_effect (st st' : vfs_state) (f : file) (k : nat) (flags : Z)
  : Prop :=
  slot st' k = Some f
  ∧ fds st' = <[k := Some f]> (fds st)
  ∧ fds_cloexec st'
    = <[k := if Z.land flags O_CLOEXEC =? 0 then 0 else 1]> (fds_cloexec st)
  ∧ (∀ g, f_ref st' g
          = f_ref st g
            - (if decide (slot st k = Some g) then 1 else 0)
            + (if decide (g = f) then 1 else 0))
  ∧ closed st'
    = match slot st k with
      | Some g => if f_ref st g - 1 =? 0 then g :: closed st else closed st
      | None => closed st
      end.

(** [pipe_alloc] lives outside this file; what is asked of it is that it
    leaves the descriptor table alone. *)
Definition pipe_alloc_keeps_table
    (pipe_alloc : Z → vfs_state → Z * file * file * vfs_state) : Prop :=
  ∀ flags st, table_ok st →
    fds (pipe_alloc flags st).2 = fds st ∧ table_ok (pipe_alloc flags st).2.

(** *** Clients of the table

    The operations through which the rest of the emulator takes and gives
    back references to file objects.  A reference that is held outside the
    table (handed out by an allocator, or taken with [vfs_ref]) is a
    borrowed reference; [tk_borrows] counts them per file.  It is not a
    value of the program: it records what the callers owe. *)
Inductive fd_op :=
  | OpStore (f : file) (cloexec : Z)   (* vfs_store_file: gives a borrow to the table *)
  | OpClose (fd : Z)                   (* sys_close *)
  | OpDup (fd newfd flags : Z)         (* vfs_dup *)
  | OpRef (f : file)                   (* vfs_ref: takes a borrow *)
  | OpRelease (f : file).              (* vfs_release: gives a borrow back *)

Record tracked := {
  tk_state : vfs_state;
  tk_borrows : file → Z;
}.

Definition add_borrow (f : file) (d : Z) (borrows : file → Z) : file → Z :=
  λ g, if decide (g = f) then borrows g + d else borrows g.

(** One operation.  [None] when the caller breaks the protocol: it gives
    away a reference it does not hold, references a file object that has
    been destroyed, or makes the program leave defined behaviour. *)
Definition apply_op (o : fd_op) (t : tracked) : option tracked :=
  let st := tk_state t in
  let borrows := tk_borrows t in
  match o with
  | OpStore f cloexec =>
      if 0 <? borrows f then
        let '(r, st') := vfs_store_file f cloexec st in
        if r <? 0 then Some t
        else Some {| tk_state := st'; tk_borrows := add_borrow f (-1) borrows |}
      else None
  | OpClose fd =>
      '(_, st') ← sys_close fd st;
      Some {| tk_state := st'; tk_borrows := borrows |}
  | OpDup fd newfd flags =>
      '(_, st') ← vfs_dup fd newfd flags st;
      Some {| tk_state := st'; tk_borrows := borrows |}
  | OpRef f =>
      if 0 <? f_ref st f then
        Some {| tk_state := vfs_ref f st; tk_borrows := add_borrow f 1 borrows |}
      else None
  | OpRelease f =>
      if 0 <? borrows f then
        Some {| tk_state := vfs_release f st;
                tk_borrows := add_borrow f (-1) borrows |}
      else None
  end.

Fixpoint run_ops (ops : list fd_op) (t : tracked) : option tracked :=
  match ops with
  | [] => Some t
  | o :: ops => t' ← apply_op o t; run_ops ops t'
  end.

(** The number of slots of the table that hold [f], and the number of times
    [f]'s [close] operation has been called. *)
Definition slots_holding (f : file) (st : vfs_state) : nat :=
  length (filter (λ s, s = Some f) (fds st)).

Definition close_calls (f : file) (st : vfs_state) : nat :=
  length (filter (λ g, g = f) (closed st)).

(** The accounting the specification states for a file [f]: its count is
    the number of slots that hold it plus the references borrowed on it. *)
Definition refcount_inv (f : file) (t : tracked) : Prop :=
  f_ref (tk_state t) f
  = Z.of_nat (slots_holding f (tk_state t)) + tk_borrows t f
  ∧ 0 ≤ tk_borrows t f.

(** A file object is in use, its [close] never called; or its last
    reference is gone and [close] has been called exactly once. *)
Definition live (f : file) (st : vfs_state) : Prop :=
  0 < f_ref st f ∧ close_calls f st = 0%nat.

Definition destroyed (f : file) (st : vfs_state) : Prop :=
  f_ref st f = 0 ∧ close_calls f st = 1%nat.

(** The invariant carried along a run, for one file [f]. *)
Definition accounted (f : file) (t : tracked) : Prop :=
  table_ok (tk_state t)
  ∧ refcount_inv f t
  ∧ (live f (tk_state t) ∨ destroyed f (tk_state t)).

(** ** Component C: the symlink-aware resolver *)

(** The depth cap of [syscall/vfs.h], which is not part of the sources. *)
Variable MAX_SYMLINK_LEVEL : nat.

(** Strip the last component of a path whose bytes are given in reverse:
    the scan [while (p[-1] != '/') p--;] that both [resolve_symlink] and the
    leaf case of [vfs_open] run towards the start of [path].  Without a
    ['/'] on the way it runs past the start of the buffer. *)
Fixpoint drop_basename (rleft : list ascii) : option (list ascii) :=
  match rleft with
  | [] => None
  | c :: r => if Ascii.eqb c "/" then Some rleft else drop_basename r
  end.

(** What [resolve_symlink] leaves behind: its result and the contents of
    the caller's [path] and [target] buffers. *)
Record resolve_reply := {
  rs_ret : Z;
  rs_path : list ascii;
  rs_target : list ascii;
}.

(** The right-to-left scan of [resolve_symlink], at position [p = subpath + i]
    and below.  [off] is the offset of [subpath] inside [path], of which it
    is a suffix. *)
Fixpoint resolve_symlink_scan
    (readlink : World → list ascii → list ascii → (Z * list ascii) * World)
    (path : list ascii) (off : nat) (subpath target : list ascii)
    (i : nat) (w : World) : option (resolve_reply * World) :=
  match i with
  | O =>
      (* p > subpath fails: no component is a symlink *)
      Some ({| rs_ret := - ENOENT; rs_path := path; rs_target := target |}, w)
  | S j =>
      if Ascii.eqb (char_at subpath i) "/" then
        (* *p = 0; r = fs->readlink(subpath, target, MAX_PATH); *)
        let '((r, target), w) := readlink w (take i subpath) target in
        if r >=? 0 then
          (* t = target + r; if ( *t != '/') *t++ = '/';
             while ( *q) *t++ = *q++; *t++ = 0; *)
          let q := drop (S i) subpath in
          let n := Z.to_nat r in
          at_t ← target !! n;
          let sep := if Ascii.eqb at_t "/" then [] else ["/"] in
          let target :=
            take n target ++ sep ++ q ++ [NUL]
            ++ drop (n + length sep + length q + 1)%nat target in
          (* while (p[-1] != '/') p--; p[0] = 0; *)
          rleft ← drop_basename (rev (take (off + i)%nat path));
          path ← Path.normalize_path (rev rleft) (c_str target);
          Some ({| rs_ret := 0; rs_path := path; rs_target := target |}, w)
        else if negb (r =? - ENOENT) then
          Some ({| rs_ret := r; rs_path := take (off + i)%nat path;
                   rs_target := target |}, w)
        else
          (* *p = '/'; *)
          resolve_symlink_scan readlink path off subpath target j w
      else resolve_symlink_scan readlink path off subpath target j w
  end.

(** [resolve_symlink(fs, path, subpath, target)] *)
Definition resolve_symlink (fs : file_system) (path : list ascii) (off : nat)
    (subpath target : list ascii) (w : World)
  : option (resolve_reply * World) :=
  match fs_readlink fs with
  | None =>
      Some ({| rs_ret := - ENOENT; rs_path := path; rs_target := target |}, w)
  | Some readlink =>
      resolve_symlink_scan readlink path off subpath target
        (length subpath - 1)%nat w
  end.

(** The local variables of [vfs_open] that live across iterations. *)
Record open_vars := {
  ov_path : list ascii;
  ov_target : list ascii;
  ov_world : World;
}.

(** How one iteration of the loop of [vfs_open] ends: with [return ret]
    (and what was stored in [*f]), or at the closing brace. *)
Inductive iteration :=
  | Return (ret : Z) (f : option file) (w : World)
  | Continue (vars : open_vars).

(** The body of the [for] loop of [vfs_open], after the depth test. *)
Definition vfs_open_iteration (st : vfs_state) (flags mode : Z)
    (vars : open_vars) : option iteration :=
  let path := ov_path vars in
  match find_filesystem (fs_first st) path with
  | None => Some (Return (- ENOENT) None (ov_world vars))
  | Some (fs, subpath) =>
      match fs_open fs with
      | None => Some (Return (- ENOENT) None (ov_world vars))
      | Some open =>
          let '(reply, w) :=
            open (ov_world vars)
                 (if Ascii.eqb (char_at subpath 0) NUL then ["."] else subpath)
                 flags mode (ov_target vars) in
          let ret := open_ret reply in
          let target := open_target reply in
          if ret =? 0 then Some (Return 0 (open_file reply) w)
          else if ret =? 1 then
            (* p = path + strlen(path) - 1; while ( *p != '/') p--; p[1] = 0; *)
            rleft ← drop_basename (rev path);
            path ← Path.normalize_path (rev rleft) (c_str target);
            Some (Continue {| ov_path := path; ov_target := target;
                              ov_world := w |})
          else if ret =? - ENOENT then
            '(rs, w) ← resolve_symlink fs path
                         (length path - length subpath)%nat subpath target w;
            if rs_ret rs <? 0 then Some (Return ret (open_file reply) w)
            else Some (Continue {| ov_path := rs_path rs;
                                   ov_target := rs_target rs;
                                   ov_world := w |})
          else Some (Return ret (open_file reply) w)
      end
  end.

(** What a call of [vfs_open] leaves behind.  [vo_iterations] is not a
    value of the program: it counts the executions of the loop body. *)
Record open_result := {
  vo_ret : Z;
  vo_file : option file;
  vo_world : World;
  vo_iterations : nat;
}.

(** [for (int symlink_level = 0;; symlink_level++)], with
    [levels_left = MAX_SYMLINK_LEVEL - symlink_level]. *)
Fixpoint vfs_open_loop (st : vfs_state) (flags mode : Z)
    (levels_left : nat) (done : nat) (vars : open_vars)
  : option open_result :=
  match levels_left with
  | O =>
      (* symlink_level == MAX_SYMLINK_LEVEL *)
      Some {| vo_ret := - ELOOP; vo_file := None;
              vo_world := ov_world vars; vo_iterations := done |}
  | S levels_left =>
      match vfs_open_iteration st flags mode vars with
      | None => None
      | Some (Return ret f w) =>
          Some {| vo_ret := ret; vo_file := f; vo_world := w;
                  vo_iterations := S done |}
      | Some (Continue vars) =>
          vfs_open_loop st flags mode levels_left (S done) vars
      end
  end.

(** [vfs_open(pathname, flags, mode, &f)].  [target] is the initial content
    of the local buffer of that name. *)
Definition vfs_open (st : vfs_state) (pathname : list ascii) (flags mode : Z)
    (target : list ascii) (w : World) : option open_result :=
  path ← Path.normalize_path (cwd st) pathname;
  vfs_open_loop st flags mode MAX_SYMLINK_LEVEL 0
    {| ov_path := path; ov_target := target; ov_world := w |}.


End WithHost.
End Vfs.

(** * Component E: the signal core *)

Module Sig.

(** Modelled from the spec: [common/signal.h] is not part of the sources;
    the signal numbers and dispositions are those of the emulated
    personality, Linux on i386, and [sigset_t] is a 64-bit integer (the
    source applies [|=], [&=] and [~] to it and narrows it with a [uint32_t]
    cast). *)
Definition SIGHUP : Z := 1.
Definition SIGINT : Z := 2.
Definition SIGQUIT : Z := 3.
Definition SIGILL : Z := 4.
Definition SIGABRT : Z := 6.
Definition SIGFPE : Z := 8.
Definition SIGKILL : Z := 9.
Definition SIGUSR1 : Z := 10.
Definition SIGSEGV : Z := 11.
Definition SIGUSR2 : Z := 12.
Definition SIGPIPE : Z := 13.
Definition SIGALRM : Z := 14.
Definition SIGTERM : Z := 15.
Definition SIGSTOP : Z := 19.
Definition SIG_DFL : Z := 0.
Definition SIG_IGN : Z := 1.
Definition SIG_BLOCK : Z := 0.
Definition SIG_UNBLOCK : Z := 1.
Definition SIG_SETMASK : Z := 2.
Definition sizeof_sigset_t : Z := 8.

(** [~x] on a [sigset_t]. *)
Definition sigset_not (x : Z) : Z := Z.lnot x mod 2 ^ 64.

(** [struct sigaction] *)
Record sigaction := {
  sa_handler : Z;
  sa_flags : Z;
  sa_restorer : Z;
  sa_mask : Z;
}.

#[global] Instance sigaction_inhabited : Inhabited sigaction :=
  populate {| sa_handler := 0; sa_flags := 0; sa_restorer := 0; sa_mask := 0 |}.

(** [siginfo_t]: the three leading fields; the rest of the union is carried
    as one opaque value. *)
Record siginfo := {
  si_signo : Z;
  si_errno : Z;
  si_code : Z;
  si_fields : Z;
}.

(** [struct signal_packet] *)
Inductive signal_packet :=
  | SIGNAL_PACKET_SHUTDOWN
  | SIGNAL_PACKET_KILL (info : siginfo)
  | SIGNAL_PACKET_DELIVER
  | SIGNAL_PACKET_ADD_PROCESS (proc : Z).

(** The Win32 and translator calls by which the worker acts on the rest of
    the process. *)
Inductive host_call :=
  | ExitProcess (code : Z)
  | SuspendThread
  | GetThreadContext
  | dbt_deliver_signal
  | SetEvent
  | SetThreadContext
  | ResumeThread.

(** [struct signal_data].  The handles are replaced by what goes through
    them: [sigwrite] is the sequence of packets written to the signal pipe
    and [host_calls] the calls made on the main thread, both oldest
    first. *)
Record signal_data := {
  actions : list sigaction;
  mask : Z;
  pending : Z;
  info : list siginfo;
  current_siginfo : siginfo;
  can_accept_signal : bool;
  sigwrite : list signal_packet;
  host_calls : list host_call;
}.

(** A pointer argument of a system call: null, or an address together with
    the answer of the memory manager's check on it ([mm_check_read] for an
    input, [mm_check_write] for an output) and, for an input, the value
    found there. *)
Record in_ptr (A : Type) := { in_ok : bool; in_val : A }.
Arguments in_ok {A}.
Arguments in_val {A}.

(** The signals of [p & ~m], as bit numbers: pending and not blocked. *)
Definition deliverable (p m : Z) : list Z :=
  filter (λ i, Z.testbit p i = true ∧ Z.testbit m i = false) (seqZ 0 64).

(** The mask that the specification expects a successful
    [rt_sigprocmask(how, set)] to install over the mask [m]. *)
Definition new_mask (how : Z) (set : option (in_ptr Z)) (m : Z) : Z :=
  match set with
  | None => m
  | Some a =>
      if how =? SIG_BLOCK then Z.lor m (in_val a)
      else if how =? SIG_UNBLOCK then Z.land m (sigset_not (in_val a))
      else in_val a
  end.

Section WithSigset.

(** [_NSIG] and the bit-set macros of [common/signal.h]. *)
Variable _NSIG : nat.
Variable sigismember : Z → Z → bool.
Variable sigaddset : Z → Z → Z.
Variable sigdelset : Z → Z → Z.

Definition in_range (signo : Z) : bool :=
  (0 <=? signo) && (signo <? Z.of_nat _NSIG).

(** [signal_default_handler(info)] *)
Definition signal_default_handler (i : siginfo) (st : signal_data)
  : signal_data :=
  if bool_decide (si_signo i ∈ [SIGHUP; SIGINT; SIGQUIT; SIGILL; SIGABRT;
                                SIGFPE; SIGKILL; SIGSEGV; SIGPIPE; SIGALRM;
                                SIGTERM; SIGUSR1; SIGUSR2])
  then
    {| actions := actions st; mask := mask st; pending := pending st;
       info := info st; current_siginfo := current_siginfo st;
       can_accept_signal := can_accept_signal st; sigwrite := sigwrite st;
       host_calls := host_calls st ++ [ExitProcess 0] |}
  else st.

(** [signal_deliver(info)].  [actions] is indexed with the signal number
    as it comes. *)
Definition signal_deliver (i : siginfo) (st : signal_data)
  : option signal_data :=
  if negb (in_range (si_signo i)) then None
  else
    let act := actions st !!! Z.to_nat (si_signo i) in
    if sa_handler act =? SIG_IGN then Some st
    else if sa_handler act =? SIG_DFL then Some (signal_default_handler i st)
    else
      Some {| actions := actions st; mask := mask st; pending := pending st;
              info := info st;
              current_siginfo := i;
              can_accept_signal := false;
              sigwrite := sigwrite st;
              host_calls :=
                host_calls st ++ [SuspendThread; GetThreadContext;
                                  dbt_deliver_signal; SetEvent;
                                  SetThreadContext; ResumeThread] |}.

(** [signal_thread_handle_kill(info)].  [info] is indexed with the signal
    number as it comes. *)
Definition signal_thread_handle_kill (i : siginfo) (st : signal_data)
  : option signal_data :=
  let signo := si_signo i in
  if negb (sigismember (pending st) signo) then
    if sigismember (mask st) signo || negb (can_accept_signal st) then
      (* Cannot deliver the signal, mark it as pending and save the info *)
      if negb (in_range signo) then None
      else
        Some {| actions := actions st; mask := mask st;
                pending := sigaddset (pending st) signo;
                info := <[Z.to_nat signo := i]> (info st);
                current_siginfo := current_siginfo st;
                can_accept_signal := can_accept_signal st;
                sigwrite := sigwrite st; host_calls := host_calls st |}
    else signal_deliver i st
  else Some st.

(** [send_packet(signal->sigwrite, &packet)] *)
Definition send_packet (packet : signal_packet) (st : signal_data)
  : signal_data :=
  {| actions := actions st; mask := mask st; pending := pending st;
     info := info st; current_siginfo := current_siginfo st;
     can_accept_signal := can_accept_signal st;
     sigwrite := sigwrite st ++ [packet]; host_calls := host_calls st |}.

(** [send_pending_signal()] *)
Definition send_pending_signal (st : signal_data) : signal_data :=
  if negb (Z.land (pending st) (sigset_not (mask st)) =? 0)
  then send_packet SIGNAL_PACKET_DELIVER st
  else st.

Definition set_mask (m : Z) (st : signal_data) : signal_data :=
  {| actions := actions st; mask := m; pending := pending st;
     info := info st; current_siginfo := current_siginfo st;
     can_accept_signal := can_accept_signal st;
     sigwrite := sigwrite st; host_calls := host_calls st |}.

Definition set_action (signum : nat) (act : sigaction) (st : signal_data)
  : signal_data :=
  {| actions := <[signum := act]> (actions st); mask := mask st;
     pending := pending st;
     info := info st; current_siginfo := current_siginfo st;
     can_accept_signal := can_accept_signal st;
     sigwrite := sigwrite st; host_calls := host_calls st |}.

(** [sys_rt_sigaction(signum, act, oldact, sigsetsize)].  [oldact] is
    [None] for a null pointer and [Some ok] otherwise; the second component
    of the result is what was copied to [*oldact]. *)
Definition sys_rt_sigaction (signum : Z) (act : option (in_ptr sigaction))
    (oldact : option bool) (sigsetsize : Z) (st : signal_data)
  : Z * option sigaction * signal_data :=
  if negb (sigsetsize =? sizeof_sigset_t) then (- EINVAL, None, st)
  else if (signum <? 0) || (signum >=? Z.of_nat _NSIG)
          || (signum =? SIGKILL) || (signum =? SIGSTOP)
  then (- EINVAL, None, st)
  else if match act with Some a => negb (in_ok a) | None => false end
  then (- EFAULT, None, st)
  else if match oldact with Some ok => negb ok | None => false end
  then (- EFAULT, None, st)
  else
    let old :=
      match oldact with
      | Some _ => Some (actions st !!! Z.to_nat signum)
      | None => None
      end in
    let st :=
      match act with
      | Some a => set_action (Z.to_nat signum) (in_val a) st
      | None => st
      end in
    (0, old, st).

(** [sys_rt_sigprocmask(how, set, oldset, sigsetsize)], with the pointer
    arguments as above. *)
Definition sys_rt_sigprocmask (how : Z) (set : option (in_ptr Z))
    (oldset : option bool) (sigsetsize : Z) (st : signal_data)
  : Z * option Z * signal_data :=
  if negb (sigsetsize =? sizeof_sigset_t) then (- EINVAL, None, st)
  else if negb (how =? SIG_BLOCK) && negb (how =? SIG_UNBLOCK)
          && negb (how =? SIG_SETMASK)
  then (- EINVAL, None, st)
  else if match set with Some a => negb (in_ok a) | None => false end
  then (- EFAULT, None, st)
  else if match oldset with Some ok => negb ok | None => false end
  then (- EFAULT, None, st)
  else
    let old :=
      match oldset with Some _ => Some (mask st) | None => None end in
    let st :=
      match set with
      | Some a =>
          if how =? SIG_BLOCK then set_mask (Z.lor (mask st) (in_val a)) st
          else if how =? SIG_UNBLOCK
          then set_mask (Z.land (mask st) (sigset_not (in_val a))) st
          else set_mask (in_val a) st
      | None => st
      end in
    (0, old, send_pending_signal st).

End WithSigset.
End Sig.

(** * The rest of the descriptor table, and the calls built on it *)

Module VfsCalls.

Import Vfs.

Section WithHost.

Context {file : Type} `{EqDecision file} {World : Type}.

#[local] Abbreviation vfs_state := (@vfs_state file World).

Variable MAX_FD_COUNT : nat.
Variable MAX_SYMLINK_LEVEL : nat.

(** Modelled from the spec: [common/fcntl.h] and [common/stat.h] are not part
    of the sources; the commands, flag bits and mode bits are those of the
    emulated personality, Linux on i386. *)
Definition O_PATH : Z := 0x200000.
Definition F_DUPFD : Z := 0.
Definition F_GETFD : Z := 1.
Definition F_SETFD : Z := 2.
Definition F_GETFL : Z := 3.
Definition FD_CLOEXEC : Z := 1.
Definition S_IWGRP : Z := 16.
Definition S_IWOTH : Z := 2.

(** [vfs->fds_cloexec[i]] for an index inside the array. *)
Definition cloexec_of (st : vfs_state) (i : nat) : Z :=
  default 0 (fds_cloexec st !! i).

Definition set_cloexec (i : nat) (c : Z) (st : vfs_state) : vfs_state :=
  {| fds := fds st; fds_cloexec := <[i := c]> (fds_cloexec st);
     fs_first := fs_first st; cwd := cwd st; umask := umask st;
     f_ref := f_ref st; closed := closed st |}.

Definition set_umask (m : Z) (st : vfs_state) : vfs_state :=
  {| fds := fds st; fds_cloexec := fds_cloexec st;
     fs_first := fs_first st; cwd := cwd st; umask := m;
     f_ref := f_ref st; closed := closed st |}.

Definition set_cwd (d : list ascii) (st : vfs_state) : vfs_state :=
  {| fds := fds st; fds_cloexec := fds_cloexec st;
     fs_first := fs_first st; cwd := d; umask := umask st;
     f_ref := f_ref st; closed := closed st |}.

(** The loop of [vfs_reset], over the slots [i, i + n):
    [if (f && vfs->fds_cloexec[i]) vfs_close(i);] *)
Fixpoint vfs_reset_loop (i n : nat) (st : vfs_state) : option vfs_state :=
  match n with
  | O => Some st
  | S n' =>
      st' ← match slot st i with
            | Some _ =>
                if cloexec_of st i =? 0 then Some st
                else vfs_close MAX_FD_COUNT (Z.of_nat i) st
            | None => Some st
            end;
      vfs_reset_loop (S i) n' st'
  end.

(** [vfs_reset()] *)
Definition vfs_reset (st : vfs_state) : option vfs_state :=
  st' ← vfs_reset_loop 0 MAX_FD_COUNT st;
  Some (set_umask (Z.lor S_IWGRP S_IWOTH) st').


(** The loop of [vfs_shutdown], over the slots [i, i + n):
    [if (f) vfs_close(i);] *)
Fixpoint vfs_shutdown_loop (i n : nat) (st : vfs_state) : option vfs_state :=
  match n with
  | O => Some st
  | S n' =>
      st' ← match slot st i with
            | Some _ => vfs_close MAX_FD_COUNT (Z.of_nat i) st
            | None => Some st
            end;
      vfs_shutdown_loop (S i) n' st'
  end.

(** [vfs_shutdown()], up to its last two calls: [socket_shutdown()] belongs
    to the socket layer, and [mm_munmap] gives the memory of [vfs] back. *)
Definition vfs_shutdown (st : vfs_state) : option vfs_state :=
  vfs_shutdown_loop 0 MAX_FD_COUNT st.

(** [sys_dup(fd)], [sys_dup2(fd, newfd)], [sys_dup3(fd, newfd, flags)] *)
Definition sys_dup (fd : Z) (st : vfs_state) : option (Z * vfs_state) :=
  vfs_dup MAX_FD_COUNT fd (-1) 0 st.

Definition sys_dup2 (fd newfd : Z) (st : vfs_state) : option (Z * vfs_state) :=
  vfs_dup MAX_FD_COUNT fd newfd 0 st.

Definition sys_dup3 (fd newfd flags : Z) (st : vfs_state)
  : option (Z * vfs_state) :=
  vfs_dup MAX_FD_COUNT fd newfd flags st.

(** The [flags] field of the file objects, which the VFS only reads. *)
Variable f_flags : file → Z.

(** [sys_fcntl(fd, cmd, arg)].  The slot is read without a range check. *)
Definition sys_fcntl (fd cmd arg : Z) (st : vfs_state)
  : option (Z * vfs_state) :=
  if (fd <? 0) || (fd >=? Z.of_nat MAX_FD_COUNT) then None
  else
    match slot st (Z.to_nat fd) with
    | None => Some (- EBADF, st)
    | Some f =>
        if cmd =? F_DUPFD then sys_dup fd st
        else if cmd =? F_GETFD then
          Some (if cloexec_of st (Z.to_nat fd) =? 0 then 0 else FD_CLOEXEC, st)
        else if cmd =? F_SETFD then
          Some (0, set_cloexec (Z.to_nat fd)
                     (if Z.land arg FD_CLOEXEC =? 0 then 0 else 1) st)
        else if cmd =? F_GETFL then Some (f_flags f, st)
        else Some (- EINVAL, st)
    end.

(** [sys_fcntl64(fd, cmd)] *)
Definition sys_fcntl64 (fd cmd : Z) (st : vfs_state) : option (Z * vfs_state) :=
  sys_fcntl fd cmd 0 st.

(** [sys_umask(mask)] *)
Definition sys_umask (mask : Z) (st : vfs_state) : Z * vfs_state :=
  (umask st, set_umask mask st).

(** [sys_open(pathname, flags, mode)].  [pathname_ok] is the answer of
    [mm_check_read_string(pathname)] and [target] the initial content of the
    buffer of that name in [vfs_open].  When [vfs_open] succeeds without the
    driver having stored a file in [*f], the pointer is used
    uninitialised. *)
Definition sys_open (pathname_ok : bool) (pathname : list ascii)
    (flags mode : Z) (target : list ascii) (st : vfs_state) (w : World)
  : option (Z * vfs_state * World) :=
  if negb pathname_ok then Some (- EFAULT, st, w)
  else
    res ← vfs_open MAX_SYMLINK_LEVEL st pathname flags mode target w;
    if vo_ret res <? 0 then Some (vo_ret res, st, vo_world res)
    else
      f ← vo_file res;
      let '(fd, st') :=
        vfs_store_file MAX_FD_COUNT f
          (if Z.land flags O_CLOEXEC >? 0 then 1 else 0) st in
      if fd <? 0 then Some (fd, vfs_release f st', vo_world res)
      else Some (fd, st', vo_world res).

(** The end of [sys_chdir]: a trailing ["/."] is cut off [vfs->cwd], the
    ['/'] being kept when nothing else is left. *)
Definition strip_trailing_dot (d : list ascii) : list ascii :=
  match rev d with
  | c1 :: c2 :: rest =>
      if Ascii.eqb c2 "/" && Ascii.eqb c1 "." then
        match rest with
        | [] => [c2]
        | _ :: _ => rev rest
        end
      else d
  | _ => d
  end.

(** [sys_chdir(pathname)] *)
Definition sys_chdir (pathname_ok : bool) (pathname target : list ascii)
    (st : vfs_state) (w : World) : option (Z * vfs_state * World) :=
  if negb pathname_ok then Some (- EFAULT, st, w)
  else
    '(fd, st, w) ← sys_open pathname_ok pathname O_PATH 0 target st w;
    if fd <? 0 then Some (fd, st, w)
    else
      '(_, st) ← sys_close MAX_FD_COUNT fd st;
      d ← Path.normalize_path (cwd st) pathname;
      Some (0, set_cwd (strip_trailing_dot d) st, w).

(** A working directory in good shape: the root, or ['/'] and components
    separated by single ['/'], none of them empty, ["."] or [".."]. *)
Definition clean_dir (d : list ascii) : Prop :=
  d = ["/"] ∨
  ∃ cs c, Forall Path.component cs ∧ Path.component c
          ∧ d = "/" :: Path.joined cs ++ c.

(** Every mount point is an absolute path. *)
Definition mounts_absolute (st : vfs_state) : Prop :=
  Forall (λ fs, head (mountpoint fs) = Some "/") (fs_first st).

End WithHost.
End VfsCalls.

(** * Transfers through a descriptor, and hard links *)

Module VfsIo.

Import Vfs VfsCalls.

Section WithHost.

Context {file : Type} `{EqDecision file} {World : Type}.

#[local] Abbreviation vfs_state := (@vfs_state file World).
#[local] Abbreviation file_system := (@file_system file World).

Variable MAX_FD_COUNT : nat.
Variable MAX_SYMLINK_LEVEL : nat.

(** [(size_t) x] and [(int) x]: both types are 32 bits wide, and a
    [size_t] that is returned as an [int] keeps its bits. *)
Definition to_size_t (x : Z) : Z := x mod 2 ^ 32.
Definition to_int (x : Z) : Z :=
  if to_size_t x <? 2 ^ 31 then to_size_t x else to_size_t x - 2 ^ 32.

(** [struct iovec] *)
Record iovec := { iov_base : Z; iov_len : Z }.

(** An entry of [f->op_vtable] that moves bytes between the file [f] and
    the guest buffer at an address, of a length: [read] or [write], applied
    to [f]; it returns an [int]. *)
Definition transfer : Type := World → Z → Z → Z * World.

(** [f->op_vtable->read] and [f->op_vtable->write], null or a function. *)
Variable op_read : file → option transfer.
Variable op_write : file → option transfer.

(** [mm_check_read(addr, size)] and [mm_check_write(addr, size)] of the
    memory manager. *)
Variable mm_check_read : Z → Z → bool.
Variable mm_check_write : Z → Z → bool.

(** The common shape of [sys_read] and [sys_write]:
    [if (f && f->op_vtable->op) { if (!check(buf, count)) return -EFAULT;
       return f->op_vtable->op(f, buf, count); } else return -EBADF;]
    The slot is read without a range check. *)
Definition transfer_call (op : file → option transfer) (check : Z → Z → bool)
    (fd buf count : Z) (st : vfs_state) (w : World) : option (Z * World) :=
  if (fd <? 0) || (fd >=? Z.of_nat MAX_FD_COUNT) then None
  else
    match slot st (Z.to_nat fd) with
    | Some f =>
        match op f with
        | Some go =>
            if negb (check buf count) then Some (- EFAULT, w)
            else Some (go w buf count)
        | None => Some (- EBADF, w)
        end
    | None => Some (- EBADF, w)
    end.

(** [sys_read(fd, buf, count)] and [sys_write(fd, buf, count)] *)
Definition sys_read : Z → Z → Z → vfs_state → World → option (Z * World) :=
  transfer_call op_read mm_check_write.

Definition sys_write : Z → Z → Z → vfs_state → World → option (Z * World) :=
  transfer_call op_write mm_check_read.

(** [for (int i = 0; i < iovcnt; i++)
       if (!check(iov[i].iov_base, iov[i].iov_len)) return -EFAULT;]
    over the entries [i, i + n).  [iov] is what guest memory holds at
    [iov[i]]: the array itself is read without a check. *)
Fixpoint iov_check (check : Z → Z → bool) (iov : nat → iovec) (i n : nat)
  : bool :=
  match n with
  | O => true
  | S n' =>
      if negb (check (iov_base (iov i)) (iov_len (iov i))) then false
      else iov_check check iov (S i) n'
  end.

(** The second loop, over the entries [i, i + n), with [count] a [size_t]:
    [int r = op(f, iov[i].iov_base, iov[i].iov_len);
     if (r < 0) return r;
     count += r;
     if (r < iov[i].iov_len) return count;] and [return count;] after the
    loop. *)
Fixpoint iov_loop (go : transfer) (iov : nat → iovec) (i n : nat) (count : Z)
    (w : World) : Z * World :=
  match n with
  | O => (to_int count, w)
  | S n' =>
      let '(r, w) := go w (iov_base (iov i)) (iov_len (iov i)) in
      if r <? 0 then (r, w)
      else
        let count := to_size_t (count + r) in
        if to_size_t r <? iov_len (iov i) then (to_int count, w)
        else iov_loop go iov (S i) n' count w
  end.

(** The common shape of [sys_readv] and [sys_writev]. *)
Definition iov_call (op : file → option transfer) (check : Z → Z → bool)
    (fd : Z) (iov : nat → iovec) (iovcnt : Z) (st : vfs_state) (w : World)
  : option (Z * World) :=
  if (fd <? 0) || (fd >=? Z.of_nat MAX_FD_COUNT) then None
  else
    match slot st (Z.to_nat fd) with
    | Some f =>
        match op f with
        | Some go =>
            if negb (iov_check check iov 0 (Z.to_nat iovcnt))
            then Some (- EFAULT, w)
            else Some (iov_loop go iov 0 (Z.to_nat iovcnt) 0 w)
        | None => Some (- EBADF, w)
        end
    | None => Some (- EBADF, w)
    end.

(** [sys_readv(fd, iov, iovcnt)] and [sys_writev(fd, iov, iovcnt)] *)
Definition sys_readv
  : Z → (nat → iovec) → Z → vfs_state → World → option (Z * World) :=
  iov_call op_read mm_check_write.

Definition sys_writev
  : Z → (nat → iovec) → Z → vfs_state → World → option (Z * World) :=
  iov_call op_write mm_check_read.

(** Modelled from the spec: [common/fcntl.h] and [common/errno.h] are not
    part of the sources; the numbers are those of the emulated
    personality. *)
Definition O_NOFOLLOW : Z := 0x20000.
Definition EPERM : Z := 1.

(** [fs->link], null or a function of the file and the new name, and
    [winfs_is_winfile(f)] of [fs/winfs.c]. *)
Variable fs_link : file_system → option (World → file → list ascii → Z * World).
Variable winfs_is_winfile : file → bool.

(** The loop of [sys_link], with
    [levels_left = MAX_SYMLINK_LEVEL - symlink_level]. *)
Fixpoint sys_link_loop (levels_left : nat) (f : file)
    (path target : list ascii) (st : vfs_state) (w : World)
  : option (Z * vfs_state * World) :=
  match levels_left with
  | O => Some (- ELOOP, st, w)
  | S levels_left =>
      match find_filesystem (fs_first st) path with
      | None => Some (- ENOENT, vfs_release f st, w)
      | Some (fs, subpath) =>
          let '(ret, w) :=
            match fs_link fs with
            | None => (- ENOENT, w)
            | Some link => link w f subpath
            end in
          if ret =? 0 then Some (0, vfs_release f st, w)
          else if ret =? - ENOENT then
            '(rs, w) ← resolve_symlink fs path
                         (length path - length subpath)%nat subpath target w;
            if rs_ret rs <? 0 then Some (- ENOENT, vfs_release f st, w)
            else sys_link_loop levels_left f (rs_path rs) (rs_target rs) st w
          else Some (ret, vfs_release f st, w)
      end
  end.

(** [sys_link(oldpath, newpath)].  [oldpath_ok] and [newpath_ok] are the
    answers of [mm_check_read_string]; [open_target] and [target] the
    initial contents of the buffers called [target] in [vfs_open] and
    here. *)
Definition sys_link (oldpath_ok newpath_ok : bool)
    (oldpath newpath open_target target : list ascii)
    (st : vfs_state) (w : World) : option (Z * vfs_state * World) :=
  if negb oldpath_ok || negb newpath_ok then Some (- EFAULT, st, w)
  else
    path ← Path.normalize_path (cwd st) newpath;
    res ← vfs_open MAX_SYMLINK_LEVEL st oldpath (Z.lor O_PATH O_NOFOLLOW) 0
            open_target w;
    if vo_ret res <? 0 then Some (vo_ret res, st, vo_world res)
    else
      f ← vo_file res;
      if negb (winfs_is_winfile f) then Some (- EPERM, st, vo_world res)
      else sys_link_loop MAX_SYMLINK_LEVEL f path target st (vo_world res).

End WithHost.
End VfsIo.

(** * The rest of the signal core: the worker's [DELIVER] case, the
    set-up of a handler and the return from it *)

Module SigCalls.

Import Sig.

#[global] Instance siginfo_inhabited : Inhabited siginfo :=
  populate {| si_signo := 0; si_errno := 0; si_code := 0; si_fields := 0 |}.

(** [(uint32_t) x]: [uintptr_t], [DWORD] and the fields of the signal frame
    are 32 bits wide. *)
Definition u32 (x : Z) : Z := x mod 2 ^ 32.

(** [struct syscall_context], the registers the signal code reads and
    writes. *)
Record syscall_context := {
  ebx : Z; ecx : Z; edx : Z; esi : Z; edi : Z; ebp : Z;
  esp : Z; eip : Z; eax : Z; eflags : Z;
}.

(** [struct sigcontext] *)
Record sigcontext := {
  sc_gs : Z; sc_fs : Z; sc_es : Z; sc_ds : Z;
  sc_di : Z; sc_si : Z; sc_bp : Z; sc_sp : Z;
  sc_bx : Z; sc_dx : Z; sc_cx : Z; sc_ax : Z;
  sc_trapno : Z; sc_err : Z; sc_ip : Z; sc_cs : Z;
  sc_flags : Z; sc_sp_at_signal : Z; sc_ss : Z;
  sc_fpstate : Z; sc_oldmask : Z; sc_cr2 : Z;
}.

(** [struct ucontext], without [uc_stack], which the source leaves
    unwritten. *)
Record ucontext := {
  uc_flags : Z;
  uc_link : Z;
  uc_mcontext : sigcontext;
  uc_sigmask : Z;
}.

(** [struct rt_sigframe], without [retcode], which the source leaves
    unwritten. *)
Record rt_sigframe := {
  fr_pretcode : Z;
  fr_sig : Z;
  fr_pinfo : Z;
  fr_puc : Z;
  fr_info : siginfo;
  fr_uc : ucontext;
}.

(** What the main thread calls outside of the signal state. *)
Inductive main_call :=
  | fpu_fxsave (save_area : Z)
  | fpu_fxrstor (save_area : Z)
  | ResetEvent.

(** [signal_save_sigcontext(sc, context, fpstate, mask)] *)
Definition signal_save_sigcontext (context : syscall_context)
    (fpstate mask : Z) : sigcontext :=
  {| sc_gs := 0; sc_fs := 0; sc_es := 0; sc_ds := 0;
     sc_di := edi context; sc_si := esi context; sc_bp := ebp context;
     sc_sp := esp context; sc_bx := ebx context; sc_dx := edx context;
     sc_cx := ecx context; sc_ax := eax context;
     sc_trapno := 0; sc_err := 0; sc_ip := eip context; sc_cs := 0;
     sc_flags := eflags context; sc_sp_at_signal := esp context; sc_ss := 0;
     sc_fpstate := fpstate; sc_oldmask := mask; sc_cr2 := 0 |}.

Definition set_pending (p : Z) (st : signal_data) : signal_data :=
  {| actions := actions st; mask := mask st; pending := p;
     info := info st; current_siginfo := current_siginfo st;
     can_accept_signal := can_accept_signal st;
     sigwrite := sigwrite st; host_calls := host_calls st |}.

Definition set_can_accept_signal (b : bool) (st : signal_data) : signal_data :=
  {| actions := actions st; mask := mask st; pending := pending st;
     info := info st; current_siginfo := current_siginfo st;
     can_accept_signal := b;
     sigwrite := sigwrite st; host_calls := host_calls st |}.

Section WithSigset.

(** [_NSIG] and the bit-set macros of [common/signal.h]. *)
Variable _NSIG : nat.
Variable sigismember : Z → Z → bool.
Variable sigaddset : Z → Z → Z.
Variable sigdelset : Z → Z → Z.

(** The [SIGNAL_PACKET_DELIVER] case of [signal_thread], from signal [i] on
    with [n] signals to go:
    [if (sigismember(&signal->pending, i) && !sigismember(&signal->mask, i)
         && signal->can_accept_signal)
       { sigdelset(&signal->pending, i); signal_deliver(&signal->info[i]);
         break; }] *)
Fixpoint deliver_scan (i n : nat) (st : signal_data) : option signal_data :=
  match n with
  | O => Some st
  | S n' =>
      if sigismember (pending st) (Z.of_nat i)
         && negb (sigismember (mask st) (Z.of_nat i))
         && can_accept_signal st
      then
        signal_deliver _NSIG (info st !!! i)
          (set_pending (sigdelset (pending st) (Z.of_nat i)) st)
      else deliver_scan (S i) n' st
  end.

Definition signal_thread_handle_deliver (st : signal_data)
  : option signal_data :=
  deliver_scan 0 _NSIG st.

(** Sizes and offsets of [common/sigframe.h], and the address of
    [signal_restorer], none of which is part of the sources. *)
Variable sizeof_fpstate : Z.
Variable sizeof_rt_sigframe : Z.
Variable offsetof_info : Z.
Variable offsetof_uc : Z.
Variable signal_restorer : Z.

(** [sp -= sizeof(struct fpstate); sp = sp & -512UL;] *)
Definition fpstate_address (sp : Z) : Z :=
  Z.land (u32 (sp - sizeof_fpstate)) (u32 (-512)).

(** [sp -= sizeof(struct rt_sigframe); sp = ((sp + 4) & -16UL) - 4;] *)
Definition frame_address (sp : Z) : Z :=
  u32 (Z.land (u32 (u32 (fpstate_address sp - sizeof_rt_sigframe) + 4))
         (u32 (-16)) - 4).

(** What [signal_setup_handler] leaves behind: the registers, the frame it
    has written and where, the signal state, and its calls. *)
Record setup_result := {
  su_context : syscall_context;
  su_frame_address : Z;
  su_frame : rt_sigframe;
  su_state : signal_data;
  su_calls : list main_call;
}.

(** [signal_setup_handler(context)].  [actions] is indexed with the number
    of the current signal as it comes. *)
Definition signal_setup_handler (context : syscall_context)
    (st : signal_data) : option setup_result :=
  let sig := si_signo (current_siginfo st) in
  if negb (in_range _NSIG sig) then None
  else
    let act := actions st !!! Z.to_nat sig in
    let fpstate := fpstate_address (esp context) in
    let frame := frame_address (esp context) in
    Some
      {| su_context :=
           {| ebx := ebx context; esi := esi context; edi := edi context;
              ebp := ebp context; eflags := eflags context;
              esp := frame;
              eip := u32 (sa_handler act);
              eax := u32 sig;
              edx := u32 (frame + offsetof_info);
              ecx := u32 (frame + offsetof_uc) |};
         su_frame_address := frame;
         su_frame :=
           {| fr_pretcode :=
                if u32 (sa_restorer act) =? 0 then u32 signal_restorer
                else u32 (sa_restorer act);
              fr_sig := sig;
              fr_info := current_siginfo st;
              fr_pinfo := u32 (frame + offsetof_info);
              fr_puc := u32 (frame + offsetof_uc);
              fr_uc :=
                {| uc_flags := 0; uc_link := 0;
                   uc_sigmask := mask st;
                   uc_mcontext :=
                     signal_save_sigcontext context fpstate
                       (u32 (mask st)) |} |};
         su_state :=
           set_can_accept_signal true
             (set_mask (Z.lor (sigaddset (mask st) sig) (sa_mask act)) st);
         su_calls := [fpu_fxsave fpstate; ResetEvent] |}.

(** How [sys_rt_sigreturn] ends: with an error, or in [dbt_sigreturn], which
    resumes the guest from the saved registers. *)
Inductive sigreturn_result :=
  | sigreturn_error (errno : Z) (st : signal_data)
  | sigreturn_resumed (mcontext : sigcontext) (st : signal_data)
      (calls : list main_call).

(** [sys_rt_sigreturn(bx, cx, dx, si, di, bp, sp, ip)].  Guest memory is
    given by [readable], the answer of [mm_check_read] for a frame at an
    address, and [frame_at], the frame found there; [sizeof(uintptr_t)]
    is 4. *)
Definition sys_rt_sigreturn (readable : Z → bool) (frame_at : Z → rt_sigframe)
    (sp : Z) (st : signal_data) : sigreturn_result :=
  let frame := u32 (sp - 4) in
  if negb (readable frame) then sigreturn_error (- EFAULT) st
  else
    let uc := fr_uc (frame_at frame) in
    sigreturn_resumed (uc_mcontext uc)
      (send_pending_signal (set_mask (uc_sigmask uc) st))
      [fpu_fxrstor (sc_fpstate (uc_mcontext uc))].

(** Modelled from the spec: [common/errno.h] is not part of the sources;
    the number is that of the emulated personality. *)
Definition ESRCH : Z := 3.

(** [signal_kill(pid, info)], with [self] the answer of
    [GetCurrentProcessId()]. *)
Definition signal_kill (self pid : Z) (i : siginfo) (st : signal_data)
  : Z * signal_data :=
  if pid =? self then (0, send_packet (SIGNAL_PACKET_KILL i) st)
  else (- ESRCH, st).

(** What is asked of the bit-set macros, which live outside the sources:
    [sigaddset] adds one member and [sigdelset] removes one. *)
Definition sigset_macros_ok : Prop :=
  ∀ s i j, 0 ≤ i → 0 ≤ j →
    sigismember (sigaddset s i) j = (j =? i) || sigismember s j
    ∧ sigismember (sigdelset s i) j = negb (j =? i) && sigismember s j.

(** The record kept for a pending signal is a record of that signal. *)
Definition pending_info_ok (st : signal_data) : Prop :=
  ∀ i, (i < _NSIG)%nat →
    sigismember (pending st) (Z.of_nat i) = true →
    si_signo (info st !!! i) = Z.of_nat i.

(** Signal [i] is pending and not blocked by the mask [m]. *)
Definition ready (m : Z) (st : signal_data) (i : nat) : bool :=
  sigismember (pending st) (Z.of_nat i) && negb (sigismember m (Z.of_nat i)).

(** What [signal_deliver] appends to the calls on the main thread when it
    hands a signal to a handler. *)
Definition handler_calls : list host_call :=
  [SuspendThread; GetThreadContext; dbt_deliver_signal; SetEvent;
   SetThreadContext; ResumeThread].

End WithSigset.
End SigCalls.

(** * Concrete instances

    Small configurations on which the statements below are exercised: file
    objects are numbered, the host has no state. *)

Module Scenario.

Import Vfs.

(** A file system mounted at ["/"] in which every name is a symlink to
    ["/a"] (so that ["/a"] points to itself). *)
Definition loop_fs : @file_system nat unit :=
  {| mountpoint := str "/";
     fs_open := Some (λ w _ _ _ _,
       ({| open_ret := 1; open_file := None;
           open_target := str "/a" ++ [NUL] |}, w));
     fs_readlink := None |}.

(** A table of four slots, all empty, over that file system. *)
Definition loop_state : @vfs_state nat unit :=
  {| fds := [None; None; None; None];
     fds_cloexec := [0; 0; 0; 0];
     fs_first := [loop_fs];
     cwd := str "/";
     umask := 18;
     f_ref := λ _, 0;
     closed := [] |}.

(** A table of four slots: descriptors 0 and 1 are open on the files 10
    and 11, one reference each. *)
Definition dup_state : @vfs_state nat unit :=
  {| fds := [Some 10%nat; Some 11%nat; None; None];
     fds_cloexec := [0; 0; 0; 0];
     fs_first := [];
     cwd := str "/";
     umask := 18;
     f_ref := λ g, if decide (g = 10%nat ∨ g = 11%nat) then 1 else 0;
     closed := [] |}.

(** An empty table, and a file 7 fresh from its allocator, which holds the
    only reference to it. *)
Definition fresh_file : @tracked nat unit :=
  {| tk_state :=
       {| fds := [None; None; None; None];
          fds_cloexec := [0; 0; 0; 0];
          fs_first := [];
          cwd := str "/";
          umask := 18;
          f_ref := λ g, if decide (g = 7%nat) then 1 else 0;
          closed := [] |};
     tk_borrows := λ g, if decide (g = 7%nat) then 1 else 0 |}.

(** The file is stored, duplicated, borrowed, and all three references are
    given back. *)
Definition fresh_file_ops : list (@fd_op nat) :=
  [OpStore 7%nat 0; OpDup 0 (-1) 0; OpRef 7%nat;
   OpClose 0; OpRelease 7%nat; OpClose 1].

(** A table of two slots with one of them free, and a pipe allocator that
    hands out the files 5 and 6 with one reference each. *)
Definition crowded_state : @vfs_state nat unit :=
  {| fds := [Some 1%nat; None];
     fds_cloexec := [0; 0];
     fs_first := [];
     cwd := str "/";
     umask := 18;
     f_ref := λ g, if decide (g = 1%nat) then 1 else 0;
     closed := [] |}.

Definition two_files (flags : Z) (st : @vfs_state nat unit)
  : Z * nat * nat * @vfs_state nat unit :=
  (0, 5%nat, 6%nat, set_ref 5%nat 1 (set_ref 6%nat 1 st)).

Import Sig.

(** Bit [sig] of the set stands for signal [sig]. *)
Definition bit_member (set sig : Z) : bool := Z.testbit set sig.
Definition bit_add (set sig : Z) : Z := Z.lor set (Z.shiftl 1 sig).

(** [SIGUSR1] is pending and blocked; no handler is installed. *)
Definition usr1_pending : signal_data :=
  {| actions := replicate 64 inhabitant;
     mask := Z.shiftl 1 SIGUSR1;
     pending := Z.shiftl 1 SIGUSR1;
     info := replicate 64 {| si_signo := 0; si_errno := 0; si_code := 0;
                             si_fields := 0 |};
     current_siginfo := {| si_signo := 0; si_errno := 0; si_code := 0;
                           si_fields := 0 |};
     can_accept_signal := true;
     sigwrite := [];
     host_calls := [] |}.

Definition usr1_again : siginfo :=
  {| si_signo := SIGUSR1; si_errno := 0; si_code := 0; si_fields := 42 |}.

End Scenario.

(** * Further instances *)

Module Cases.

Import Vfs VfsCalls VfsIo.

(** A file system mounted at ["/"] whose driver opens every name as the
    file 9. *)
Definition plain_fs : @file_system nat unit :=
  {| mountpoint := str "/";
     fs_open := Some (λ w _ _ _ target,
       ({| open_ret := 0; open_file := Some 9%nat;
           open_target := target |}, w));
     fs_readlink := None |}.

(** A table of four slots over that file system, in ["/home"]:
    descriptors 0, 1 and 3 are open on the files 1, 2 and 3, the last two
    with the close-on-exec flag; the driver holds the file 9. *)
Definition exec_state : @vfs_state nat unit :=
  {| fds := [Some 1%nat; Some 2%nat; None; Some 3%nat];
     fds_cloexec := [0; 1; 0; 1];
     fs_first := [plain_fs];
     cwd := str "/home";
     umask := 0;
     f_ref := λ g, if decide (g = 1 ∨ g = 2 ∨ g = 3 ∨ g = 9)%nat
                   then 1 else 0;
     closed := [] |}.

Definition exec_tracked : @tracked nat unit :=
  {| tk_state := exec_state;
     tk_borrows := λ g, if decide (g = 9%nat) then 1 else 0 |}.

(** A device that moves at most 100 bytes at a time; guest memory starts
    at 4096; two buffers, the second at a bad address. *)
Definition short_device : nat → option (@transfer unit) :=
  λ _, Some (λ w _ len, (Z.min len 100, w)).

Definition mapped (addr size : Z) : bool := 4096 <=? addr.

Definition two_buffers (i : nat) : iovec :=
  {| iov_base := if decide (i = 0%nat) then 8192 else 0; iov_len := 16 |}.

(** Every file system links, and every file is a winfs file. *)
Definition link_always
  : @file_system nat unit → option (unit → nat → list ascii → Z * unit) :=
  λ _, Some (λ w _ _, (0, w)).

Import Sig SigCalls Scenario.

Definition bit_del (set sig : Z) : Z := Z.ldiff set (Z.shiftl 1 sig).

(** A handler is installed for [SIGUSR1], which is blocked. *)
Definition usr1_handled : signal_data :=
  {| actions :=
       <[10%nat := {| sa_handler := 4096; sa_flags := 0; sa_restorer := 0;
                      sa_mask := 0 |}]> (replicate 64 inhabitant);
     mask := Z.shiftl 1 SIGUSR1;
     pending := 0;
     info := replicate 64 inhabitant;
     current_siginfo := usr1_again;
     can_accept_signal := true;
     sigwrite := [];
     host_calls := [] |}.

(** The registers of the guest when the signal arrives. *)
Definition guest_context : syscall_context :=
  {| ebx := 1; ecx := 2; edx := 3; esi := 4; edi := 5; ebp := 0x7fff0100;
     esp := 0x7fff0000; eip := 0x8048000; eax := 6; eflags := 0x246 |}.

End Cases.

(** * Properties of the path normaliser *)

Section PathFacts.

Import Path.

(** With the output at ["/"], a [..] component leaves it empty: the
    decrement that precedes the scan for the previous ['/'] is not guarded
    by [p > out]. *)
Lemma pop_component_root : pop_component ["/"] = Some [].
Proof. reflexivity. Qed.

(** Below the root the component and its separator go. *)
Lemma pop_component_below_root :
  pop_component (rev (str "/a/b/")) = Some (rev (str "/a/")).
Proof. reflexivity. Qed.

Lemma normalize_loop_cons c rest rout :
  normalize_loop (c :: rest) rout
  = match normalize_step (c :: rest) rout with
    | Some next => normalize_loop next.1 next.2
    | None => None
    end.
Proof.
  rewrite normalize_loop_equation_2. 
  unfold normalize_loop_unfold_clause_2, remember_eq.
  destruct (normalize_step (c :: rest) rout); reflexivity.
Qed.

Lemma normalize_loop_nil rout : normalize_loop [] rout = Some rout.
Proof. apply normalize_loop_equation_1. Qed.

Lemma copy_component_app c rest rout :
  "/" ∉ c →
  copy_component (c ++ rest) rout = copy_component rest (rev c ++ rout).
Proof.
  revert rout; induction c as [|a c IH]; intros rout Hc; [reflexivity|].
  simpl. apply not_elem_of_cons in Hc as [Ha Hc].
  destruct (Ascii.eqb_spec a "/") as [->|_]; [congruence|].
  rewrite IH by exact Hc. rewrite <- app_assoc. reflexivity.
Qed.

Lemma rstate_head rcs : ∃ r, rstate rcs = "/" :: r.
Proof. destruct rcs; simpl; eauto. Qed.

Lemma pop_to_slash_app c r :
  "/" ∉ c → pop_to_slash (rev c ++ "/" :: r) = "/" :: r.
Proof.
  intros Hc. assert ("/" ∉ rev c) as Hr.
  { intros Hin. apply Hc. apply list_elem_of_In. apply in_rev.
    apply list_elem_of_In. exact Hin. }
  induction (rev c) as [|a l IH]; simpl; [reflexivity|].
  apply not_elem_of_cons in Hr as [Ha Hl].
  destruct (Ascii.eqb_spec a "/") as [->|_]; [congruence|]. apply IH; exact Hl.
Qed.

Lemma pop_component_rstate c rcs :
  "/" ∉ c → pop_component (rstate (c :: rcs)) = Some (rstate rcs).
Proof.
  intros Hc. simpl. destruct (rstate_head rcs) as [r ->].
  rewrite pop_to_slash_app by exact Hc. reflexivity.
Qed.

(** A component is copied. *)
Lemma normalize_step_component c rest rout :
  component c → (rest = [] ∨ ∃ rest', rest = "/" :: rest') →
  normalize_step (c ++ rest) rout = Some (copy_component (c ++ rest) rout).
Proof.
  intros (Hne & Hslash & Hnul & Hdot & Hdots) Hrest.
  unfold normalize_step, char_at.
  destruct c as [|a c]; [congruence|].
  apply not_elem_of_cons in Hslash as [Ha Hslash].
  apply not_elem_of_cons in Hnul as [Ha0 Hnul].
  cbn [app nth].
  destruct (Ascii.eqb_spec a "/") as [->|_]; [congruence|].
  destruct (Ascii.eqb_spec a ".") as [->|_]; [|reflexivity].
  cbn [andb].
  destruct c as [|b c].
  { congruence. }
  apply not_elem_of_cons in Hslash as [Hb Hslash].
  apply not_elem_of_cons in Hnul as [Hb0 Hnul].
  cbn [app nth].
  destruct (Ascii.eqb_spec b "/") as [->|_]; [congruence|].
  destruct (Ascii.eqb_spec b NUL) as [->|_]; [congruence|].
  destruct (Ascii.eqb_spec b ".") as [->|_]; [|reflexivity].
  cbn [andb].
  destruct c as [|d c].
  { congruence. }
  apply not_elem_of_cons in Hslash as [Hd Hslash].
  apply not_elem_of_cons in Hnul as [Hd0 Hnul].
  cbn [app nth].
  destruct (Ascii.eqb_spec d "/") as [->|_]; [congruence|].
  destruct (Ascii.eqb_spec d NUL) as [->|_]; [congruence|].
  reflexivity.
Qed.

(** The loop over a path that is already in shape: every component is
    copied. *)
Lemma normalize_loop_joined cs t rcs :
  Forall component cs →
  t = [] ∨ t = ["."] ∨ component t →
  normalize_loop (joined cs ++ t) (rstate rcs)
  = Some (rev t ++ rstate (rev cs ++ rcs)).
Proof.
  intros Hcs Ht. revert rcs.
  induction Hcs as [|c cs Hc Hcs IH]; intros rcs.
  - simpl. destruct Ht as [->|[->|Hcomp]].
    + apply normalize_loop_nil.
    + rewrite normalize_loop_cons. simpl. apply normalize_loop_nil.
    + destruct t as [|a t]; [destruct Hcomp as [? _]; congruence|].
      rewrite normalize_loop_cons.
      pose proof (normalize_step_component (a :: t) [] (rstate rcs) Hcomp
                    ltac:(left; reflexivity)) as Hstep.
      rewrite app_nil_r in Hstep. rewrite Hstep.
      pose proof (copy_component_app (a :: t) [] (rstate rcs)
                    ltac:(apply Hcomp)) as Hcopy.
      rewrite app_nil_r in Hcopy. rewrite Hcopy. simpl.
      apply normalize_loop_nil.
  - simpl. rewrite <- app_assoc.
    destruct c as [|a c]; [destruct Hc as [? _]; congruence|].
    change ((a :: c) ++ ("/" :: joined cs) ++ t)
      with (a :: (c ++ ("/" :: joined cs) ++ t)).
    rewrite normalize_loop_cons.
    change (a :: (c ++ ("/" :: joined cs) ++ t))
      with ((a :: c) ++ ("/" :: joined cs ++ t)).
    rewrite (normalize_step_component (a :: c) _ (rstate rcs) Hc)
      by (right; eauto).
    rewrite copy_component_app by apply Hc.
    simpl copy_component. cbn [fst snd].
    specialize (IH (( a :: c) :: rcs)).
    simpl rstate in IH. rewrite IH.
    rewrite <- (app_assoc (rev cs) [a :: c] rcs). reflexivity.
Qed.

Lemma last_push (a : ascii) rout :
  last (a :: rout) = match rout with [] => Some a | _ => last rout end.
Proof. destruct rout; reflexivity. Qed.

Lemma pop_to_slash_suffix r : ∃ pre, r = pre ++ pop_to_slash r.
Proof.
  induction r as [|a r [pre IH]]; [exists []; reflexivity|].
  simpl. destruct (Ascii.eqb a "/").
  - exists []; reflexivity.
  - exists (a :: pre). simpl. rewrite <- IH. reflexivity.
Qed.

Lemma not_rooted_suffix pre r : ¬ rooted (pre ++ r) → ¬ rooted r.
Proof.
  unfold rooted. intros Hnot Hr. apply Hnot.
  destruct r as [|a r]; [discriminate|].
  rewrite last_app. rewrite Hr. reflexivity.
Qed.

Lemma copy_component_last p rout :
  rout ≠ [] → last (copy_component p rout).2 = last rout.
Proof.
  revert rout; induction p as [|a p IH]; intros rout Hne; [reflexivity|].
  simpl. destruct (Ascii.eqb a "/").
  - simpl. destruct rout; [congruence|reflexivity].
  - rewrite IH by discriminate. destruct rout; [congruence|reflexivity].
Qed.

Lemma normalize_step_unrooted c rest rout next :
  ¬ rooted rout → normalize_step (c :: rest) rout = Some next →
  ¬ rooted next.2.
Proof.
  intros Hnot. unfold normalize_step, char_at. cbn [nth].
  destruct (Ascii.eqb_spec c "/") as [->|Hc]; [intros [= <-]; exact Hnot|].
  destruct (Ascii.eqb c "." && Ascii.eqb (nth 0 rest NUL) "/");
    [intros [= <-]; exact Hnot|].
  destruct (Ascii.eqb_spec c ".") as [->|Hdot]; cbn [andb].
  - destruct (Ascii.eqb (nth 0 rest NUL) NUL).
    { intros [= <-]. simpl. unfold rooted. rewrite last_push.
      destruct rout; [discriminate|exact Hnot]. }
    destruct (Ascii.eqb (nth 0 rest NUL) "."
              && (Ascii.eqb (nth 1 rest NUL) "/"
                  || Ascii.eqb (nth 1 rest NUL) NUL)).
    + destruct rout as [|a rout]; simpl; [discriminate|].
      intros [= <-]. simpl.
      destruct (pop_to_slash_suffix rout) as [pre Hpre].
      apply (not_rooted_suffix (a :: pre)). simpl. rewrite <- Hpre. exact Hnot.
    + intros [= <-]. unfold rooted.
      simpl. replace (Ascii.eqb "." "/") with false by reflexivity.
      rewrite copy_component_last by discriminate. rewrite last_push.
      destruct rout; [discriminate|exact Hnot].
  - intros [= <-]. unfold rooted. simpl.
    destruct (Ascii.eqb_spec c "/") as [->|_]; [congruence|].
    rewrite copy_component_last by discriminate. rewrite last_push.
    destruct rout; [congruence|exact Hnot].
Qed.

(** Once the leading ['/'] is gone it does not come back. *)
Lemma normalize_loop_unrooted n pathname rout rout' :
  (length pathname ≤ n)%nat →
  ¬ rooted rout → normalize_loop pathname rout = Some rout' → ¬ rooted rout'.
Proof.
  revert pathname rout; induction n as [|n IH]; intros pathname rout Hn Hnot.
  - destruct pathname; [|simpl in Hn; lia].
    rewrite normalize_loop_nil. intros [= <-]; exact Hnot.
  - destruct pathname as [|c rest].
    + rewrite normalize_loop_nil. intros [= <-]; exact Hnot.
    + rewrite normalize_loop_cons.
      destruct (normalize_step (c :: rest) rout) as [[p' r']|] eqn:Hstep;
        [|discriminate].
      apply IH.
      * apply normalize_step_shrinks in Hstep. simpl in *. lia.
      * apply (normalize_step_unrooted _ _ _ _ Hnot Hstep).
Qed.

(** The first component of a path, and what follows it. *)
Lemma split_component (p : list ascii) :
  ∃ comp rest, p = comp ++ rest ∧ ("/" ∉ comp)
               ∧ (rest = [] ∨ ∃ r, rest = "/" :: r).
Proof.
  induction p as [|a p (comp & rest & -> & Hcomp & Hrest)].
  - exists [], []. split; [reflexivity|]. split; [apply not_elem_of_nil|left; reflexivity].
  - destruct (decide (a = "/")) as [->|Ha].
    + exists [], ("/" :: comp ++ rest). split; [reflexivity|].
      split; [apply not_elem_of_nil|right; eauto].
    + exists (a :: comp), rest. split; [reflexivity|].
      split; [|exact Hrest]. apply not_elem_of_cons; split; [congruence|exact Hcomp].
Qed.

Lemma normalize_step_dot rest rout :
  rest = [] ∨ (∃ r, rest = "/" :: r) →
  normalize_step ("." :: rest) rout
  = match rest with
    | [] => Some ([], "." :: rout)
    | _ :: r => Some (r, rout)
    end.
Proof. intros [->|[r ->]]; reflexivity. Qed.

Lemma normalize_step_dotdot rest rout :
  rest = [] ∨ (∃ r, rest = "/" :: r) →
  normalize_step ("." :: "." :: rest) rout
  = rout' ← pop_component rout; Some (drop 1 rest, rout').
Proof. intros [->|[r ->]]; reflexivity. Qed.

(** The loop over any path, from an output in shape: as long as the result
    starts with ['/'], it is in shape. *)
Lemma normalize_loop_rooted n pathname rcs rout' :
  (length pathname ≤ n)%nat →
  NUL ∉ pathname →
  Forall component rcs →
  normalize_loop pathname (rstate rcs) = Some rout' →
  rooted rout' →
  ∃ rcs' t, Forall component rcs'
            ∧ (t = [] ∨ t = ["."] ∨ component t)
            ∧ rout' = rev t ++ rstate rcs'.
Proof.
  revert pathname rcs; induction n as [|n IH]; intros pathname rcs Hn Hnul Hrcs.
  { destruct pathname; [|simpl in Hn; lia].
    rewrite normalize_loop_nil. intros [= <-] _.
    exists rcs, []. split; [exact Hrcs|]. split; [left; reflexivity|reflexivity]. }
  destruct pathname as [|c0 rest0].
  { rewrite normalize_loop_nil. intros [= <-] _.
    exists rcs, []. split; [exact Hrcs|]. split; [left; reflexivity|reflexivity]. }
  destruct (split_component (c0 :: rest0))
    as (comp & rest & Heq & Hslash & Hrest).
  rewrite Heq in *. clear Heq c0 rest0.
  apply not_elem_of_app in Hnul as [Hnulc Hnulr].
  rewrite length_app in Hn.
  destruct (decide (comp = [])) as [->|Hne].
  { (* a separator *)
    destruct Hrest as [->|[r ->]]; [rewrite normalize_loop_nil;
      intros [= <-] _; exists rcs, []; split; [exact Hrcs|];
      split; [left; reflexivity|reflexivity]|].
    simpl app. rewrite normalize_loop_cons. simpl. rewrite drop_0.
    apply IH; [simpl in Hn; lia| |exact Hrcs].
    apply not_elem_of_cons in Hnulr as [_ ?]; assumption. }
  destruct (decide (comp = ["."])) as [->|Hdot].
  { simpl app. rewrite normalize_loop_cons, normalize_step_dot by exact Hrest.
    destruct Hrest as [->|[r ->]].
    - simpl. rewrite normalize_loop_nil. intros [= <-] _.
      exists rcs, ["."]. split; [exact Hrcs|].
      split; [right; left; reflexivity|reflexivity].
    - simpl. apply IH; [simpl in Hn; lia| |exact Hrcs].
      apply not_elem_of_cons in Hnulr as [_ ?]; assumption. }
  destruct (decide (comp = ["."; "."])) as [->|Hdots].
  { simpl app. rewrite normalize_loop_cons, normalize_step_dotdot by exact Hrest.
    assert (NUL ∉ drop 1 rest) as Hnuld.
    { destruct Hrest as [->|[r ->]]; [apply not_elem_of_nil|].
      apply not_elem_of_cons in Hnulr as [_ ?]; assumption. }
    assert (length (drop 1 rest) ≤ n)%nat as Hlen
      by (rewrite length_drop; simpl in Hn; lia).
    destruct Hrcs as [|c rcs Hc Hrcs].
    - (* at the root *)
      simpl. intros Hloop Hrooted. exfalso.
      apply (normalize_loop_unrooted n _ _ _ Hlen) in Hloop;
        [contradiction|]. unfold rooted. discriminate.
    - rewrite pop_component_rstate by apply Hc. simpl.
      apply IH; assumption. }
  (* a component to copy *)
  assert (component comp) as Hcomp by (repeat split; assumption).
  destruct comp as [|a comp]; [congruence|].
  change ((a :: comp) ++ rest) with (a :: (comp ++ rest)).
  rewrite normalize_loop_cons.
  change (a :: (comp ++ rest)) with ((a :: comp) ++ rest).
  rewrite (normalize_step_component _ _ _ Hcomp Hrest).
  rewrite copy_component_app by exact Hslash.
  destruct Hrest as [->|[r ->]].
  - simpl copy_component. cbn [fst snd]. rewrite normalize_loop_nil.
    intros [= <-] _. exists rcs, (a :: comp).
    split; [exact Hrcs|]. split; [right; right; exact Hcomp|reflexivity].
  - simpl copy_component. cbn [fst snd].
    apply (IH r ((a :: comp) :: rcs)).
    + simpl in Hn |- *. lia.
    + apply not_elem_of_cons in Hnulr as [_ ?]; assumption.
    + constructor; assumption.
Qed.

Lemma joined_app cs1 cs2 : joined (cs1 ++ cs2) = joined cs1 ++ joined cs2.
Proof.
  induction cs1 as [|c cs1 IH]; [reflexivity|].
  simpl. rewrite IH, <- app_assoc. reflexivity.
Qed.

Lemma rev_rstate rcs : rev (rstate rcs) = "/" :: joined (rev rcs).
Proof.
  induction rcs as [|c rcs IH]; [reflexivity|].
  simpl. rewrite rev_app_distr, rev_involutive, IH, joined_app. simpl.
  rewrite <- app_assoc. reflexivity.
Qed.

Lemma component_last_not_slash t rout :
  t = ["."] ∨ component t →
  normalize_finish (rev t ++ rout) = rev (rev t ++ rout).
Proof.
  intros Ht.
  assert (∃ a l, rev t = a :: l ∧ a ≠ "/") as (a & l & -> & Ha).
  { destruct Ht as [->|(Hne & Hslash & _)]; [exists ".", []; split; [reflexivity|discriminate]|].
    destruct (rev t) as [|a l] eqn:E.
    - apply (f_equal (@rev _)) in E. rewrite rev_involutive in E. contradiction.
    - exists a, l. split; [reflexivity|]. intros ->. apply Hslash.
      apply list_elem_of_In, in_rev. rewrite E. left; reflexivity. }
  unfold normalize_finish. simpl.
  destruct (l ++ rout); [reflexivity|].
  destruct (Ascii.eqb_spec a "/"); [contradiction|reflexivity].
Qed.

(** A normalised path is left as it is. *)
Theorem normalize_path_normalised r :
  normalised r → normalize_path ["/"] r = Some r.
Proof.
  intros [->|(cs & t & Hcs & Ht & ->)]; [reflexivity|].
  pose proof (normalize_loop_joined cs t [] Hcs ltac:(right; exact Ht))
    as Hloop.
  rewrite app_nil_r in Hloop. simpl rstate in Hloop at 1.
  unfold normalize_path.
  change (normalize_start ["/"] ("/" :: joined cs ++ t))
    with (Some (drop 0 (joined cs ++ t), ["/"])).
  rewrite drop_0. cbn [mbind option_bind]. rewrite Hloop. cbn [mbind option_bind].
  rewrite component_last_not_slash by exact Ht.
  rewrite rev_app_distr, rev_involutive, rev_rstate, rev_involutive.
  reflexivity.
Qed.

Lemma normalize_finish_rooted rout :
  head (normalize_finish rout) = Some "/" → rooted rout.
Proof.
  unfold rooted, normalize_finish.
  assert (∀ l : list ascii, head (rev l) = last l) as Hhl.
  { intros l. rewrite <- (rev_involutive l) at 2.
    destruct (rev l) as [|x l']; [reflexivity|].
    simpl. rewrite last_snoc. reflexivity. }
  destruct rout as [|c [|d r]]; simpl.
  - discriminate.
  - intros H. exact H.
  - destruct (Ascii.eqb_spec c "/") as [->|_].
    + intros H. change (rev r ++ [d]) with (rev r ++ [d]) in H.
      rewrite <- (Hhl (d :: r)) . exact H.
    + intros H.
      change ((rev r ++ [d]) ++ [c]) with (rev (c :: d :: r)) in H.
      rewrite Hhl in H. exact H.
Qed.

(** What the normaliser answers against the root is normalised, when it
    starts with ['/']. *)
Theorem normalize_path_rooted_normalised p r :
  NUL ∉ p → normalize_path ["/"] p = Some r → head r = Some "/" →
  normalised r.
Proof.
  intros Hnul. unfold normalize_path.
  assert (∃ p', normalize_start ["/"] p = Some (p', rstate []) ∧ NUL ∉ p')
    as (p' & -> & Hnul').
  { unfold normalize_start, char_at.
    destruct p as [|a p]; simpl; [exists []; split; [reflexivity|exact Hnul]|].
    destruct (Ascii.eqb a "/").
    - exists p. rewrite drop_0. split; [reflexivity|].
      apply not_elem_of_cons in Hnul as [_ ?]; assumption.
    - exists (a :: p). split; [reflexivity|exact Hnul]. }
  cbn [mbind option_bind].
  destruct (normalize_loop p' (rstate [])) as [rout'|] eqn:Hloop;
    cbn [mbind option_bind]; [|discriminate].
  intros [= <-] Hhead.
  pose proof (normalize_finish_rooted _ Hhead) as Hrooted.
  destruct (normalize_loop_rooted (length p') p' [] rout'
              ltac:(lia) Hnul' ltac:(constructor) Hloop Hrooted)
    as (rcs & t & Hrcs & Ht & ->).
  destruct Ht as [->|Ht].
  - (* the output ends with a separator *)
    simpl. destruct rcs as [|c rcs]; [left; reflexivity|].
    right. exists (rev rcs), c.
    apply Forall_cons in Hrcs as [Hc Hrcs].
    split; [apply Forall_rev; exact Hrcs|]. split; [right; exact Hc|].
    simpl rstate. unfold normalize_finish.
    destruct (rev c ++ rstate rcs) as [|x l] eqn:E.
    { destruct (rstate_head rcs) as [r' Hr']. rewrite Hr' in E.
      destruct (rev c); discriminate. }
    rewrite Ascii.eqb_refl. rewrite <- E.
    rewrite rev_app_distr, rev_involutive, rev_rstate. reflexivity.
  - right. exists (rev rcs), t.
    split; [apply Forall_rev; exact Hrcs|]. split; [exact Ht|].
    rewrite component_last_not_slash by exact Ht.
    rewrite rev_app_distr, rev_involutive, rev_rstate. reflexivity.
Qed.

(** Away from the root the normaliser is idempotent: a result that starts
    with ['/'] is its own normal form. *)
Corollary normalize_path_idempotent_rooted p r :
  NUL ∉ p → normalize_path ["/"] p = Some r → head r = Some "/" →
  normalize_path ["/"] r = Some r.
Proof.
  intros Hnul Hr Hhead. apply normalize_path_normalised.
  apply (normalize_path_rooted_normalised p r Hnul Hr Hhead).
Qed.

(** C1. The three scenarios of S1, as the code computes them: the first and
    the third give the expected paths; in the second, [normalize("/", "..")],
    the [..] pops the leading ['/'] and the result is the empty string. *)
Theorem normalize_path_scenarios :
  normalize_path (str "/a/b") (str "../c/./d//e/..") = Some (str "/a/c/d")
  ∧ normalize_path (str "/x/") (str "y/.") = Some (str "/x/y/.")
  ∧ normalize_path (str "/") (str "..") = Some (str "").
Proof. repeat split; vm_compute; reflexivity. Qed.

(** C9. Normalising against the root is not idempotent on [".."]: the first
    pass answers the empty string, the second pass turns that into ["/"]. *)
Theorem normalize_path_root_not_idempotent :
  normalize_path (str "/") (str "..") = Some (str "")
  ∧ normalize_path (str "/") (str "") = Some (str "/")
  ∧ (normalize_path (str "/") (str "..") ≫= normalize_path (str "/"))
    ≠ normalize_path (str "/") (str "..").
Proof. repeat split; vm_compute; congruence. Qed.

End PathFacts.

(** * Properties of the virtual file system *)

Section VfsFacts.

Import Vfs.

Context {file : Type} `{EqDecision file} {World : Type}.

#[local] Abbreviation file_system := (@file_system file World).
#[local] Abbreviation vfs_state := (@vfs_state file World).
#[local] Abbreviation tracked := (@tracked file World).
#[local] Abbreviation fd_op := (@fd_op file).

(** ** The registry *)

Lemma match_mountpoint_Some p path subpath :
  match_mountpoint p path = Some subpath ↔ path = p ++ subpath.
Proof.
  revert path; induction p as [|c p IH]; intros path; simpl.
  - split; [intros [= ->]|intros ->]; reflexivity.
  - destruct path as [|d path]; [split; discriminate|].
    destruct (Ascii.eqb_spec c d) as [->|Hne].
    + rewrite IH; split; [intros ->|intros [= ->]]; reflexivity.
    + split; [discriminate|intros [= -> _]; contradiction].
Qed.

Lemma match_mountpoint_None p path :
  match_mountpoint p path = None ↔ ¬ p `prefix_of` path.
Proof.
  split.
  - intros Hnone [k ->].
    assert (match_mountpoint p (p ++ k) = Some k) as Hsome
      by (apply match_mountpoint_Some; reflexivity).
    congruence.
  - intros Hnot. destruct (match_mountpoint p path) as [subpath|] eqn:E;
      [|reflexivity].
    apply match_mountpoint_Some in E. destruct Hnot; exists subpath; exact E.
Qed.

Lemma strip_slash_char_at s :
  (if Ascii.eqb (char_at s 0) "/" then drop 1 s else s) = strip_slash s.
Proof.
  destruct s as [|c s]; simpl; [reflexivity|].
  unfold char_at; simpl. rewrite drop_0. reflexivity.
Qed.

Lemma find_filesystem_first_prefix (entries : list file_system) path :
  find_filesystem entries path = first_prefix_match entries path.
Proof.
  unfold first_prefix_match.
  induction entries as [|fs next IH]; simpl; [reflexivity|].
  destruct (match_mountpoint (mountpoint fs) path) as [subpath|] eqn:E.
  - apply match_mountpoint_Some in E.
    rewrite decide_True by (exists subpath; exact E).
    rewrite strip_slash_char_at. f_equal. f_equal. f_equal.
    rewrite E, drop_app_length. reflexivity.
  - apply match_mountpoint_None in E.
    rewrite decide_False by exact E.
    rewrite IH. destruct (list_find _ next) as [[i fs']|]; reflexivity.
Qed.

Lemma registry_after_reverse (added : list file_system) :
  registry_after added = reverse added.
Proof.
  unfold registry_after.
  assert (∀ acc, foldl (λ fs_first fs, vfs_add fs fs_first) acc added
                 = reverse added ++ acc) as Hgen.
  { induction added as [|fs added IH]; intros acc; simpl; [reflexivity|].
    rewrite IH, reverse_cons, <- app_assoc. reflexivity. }
  rewrite Hgen, app_nil_r. reflexivity.
Qed.


(** C6. After any series of [vfs_add] calls, [find_filesystem] answers the
    first entry, latest addition first, whose mount point is a prefix of the
    path, with the path stripped of that prefix and of one leading ['/'];
    it fails exactly when no mount point is a prefix. *)
Theorem find_filesystem_first_match (added : list file_system) path :
  find_filesystem (registry_after added) path
  = first_prefix_match (reverse added) path.
Proof.
  rewrite registry_after_reverse. apply find_filesystem_first_prefix.
Qed.

(** ** The descriptor table *)

Variable MAX_FD_COUNT : nat.

Lemma slot_set_slot (st : vfs_state) k x c j :
  (k < length (fds st))%nat →
  slot (set_slot k x c st) j = if decide (j = k) then x else slot st j.
Proof.
  intros Hk. unfold slot, set_slot; simpl.
  destruct (decide (j = k)) as [->|Hne].
  - rewrite list_lookup_insert_eq by exact Hk. reflexivity.
  - rewrite list_lookup_insert_ne by congruence. reflexivity.
Qed.

Lemma table_ok_set_slot (st : vfs_state) k x c :
  table_ok MAX_FD_COUNT st → table_ok MAX_FD_COUNT (set_slot k x c st).
Proof.
  intros [Hf Hc]; split; simpl; rewrite length_insert; assumption.
Qed.

Lemma first_empty_Some (st : vfs_state) i n k :
  first_empty st i n = Some k →
  (i ≤ k < i + n)%nat ∧ slot st k = None
  ∧ ∀ j, (i ≤ j < k)%nat → slot st j ≠ None.
Proof.
  revert i; induction n as [|n IH]; intros i; simpl; [discriminate|].
  destruct (slot st i) as [g|] eqn:Hi.
  - intros Hrec. destruct (IH _ Hrec) as (Hr & Hk & Hbefore).
    split; [lia|]. split; [exact Hk|].
    intros j Hj. destruct (decide (j = i)) as [->|Hne]; [congruence|].
    apply Hbefore; lia.
  - intros [= <-]. split; [lia|]. split; [exact Hi|]. intros j Hj; lia.
Qed.

Lemma first_empty_None (st : vfs_state) i n :
  first_empty st i n = None →
  ∀ j, (i ≤ j < i + n)%nat → slot st j ≠ None.
Proof.
  revert i; induction n as [|n IH]; intros i; simpl; [intros _ j Hj; lia|].
  destruct (slot st i) as [g|] eqn:Hi; [|discriminate].
  intros Hrec j Hj. destruct (decide (j = i)) as [->|Hne]; [congruence|].
  apply (IH _ Hrec); lia.
Qed.

(** The scan finds the least empty slot, and fails only on a full table. *)
Lemma first_empty_least (st : vfs_state) n k :
  (k < n)%nat → slot st k = None →
  (∀ j, (j < k)%nat → slot st j ≠ None) →
  first_empty st 0 n = Some k.
Proof.
  intros Hk Hempty Hbefore.
  destruct (first_empty st 0 n) as [k'|] eqn:E.
  - apply first_empty_Some in E as (Hr & Hk' & Hb').
    destruct (Nat.lt_trichotomy k k') as [Hlt|[->|Hgt]]; [|reflexivity|].
    + destruct (Hb' k ltac:(lia)); exact Hempty.
    + destruct (Hbefore k' Hgt); exact Hk'.
  - destruct (first_empty_None _ _ _ E k ltac:(lia)); exact Hempty.
Qed.

Lemma first_empty_full (st : vfs_state) n :
  (∀ j, (j < n)%nat → slot st j ≠ None) → first_empty st 0 n = None.
Proof.
  intros Hfull. destruct (first_empty st 0 n) as [k|] eqn:E; [|reflexivity].
  apply first_empty_Some in E as (Hr & Hk & _).
  destruct (Hfull k ltac:(lia)); exact Hk.
Qed.

Lemma f_ref_vfs_release (st : vfs_state) f g :
  f_ref (vfs_release f st) g
  = if decide (g = f) then f_ref st f - 1 else f_ref st g.
Proof.
  unfold vfs_release.
  destruct (f_ref (set_ref f (f_ref st f - 1) st) f =? 0); reflexivity.
Qed.

Lemma closed_vfs_release (st : vfs_state) f :
  closed (vfs_release f st)
  = if f_ref st f - 1 =? 0 then f :: closed st else closed st.
Proof.
  unfold vfs_release. simpl. rewrite decide_True by reflexivity.
  destruct (f_ref st f - 1 =? 0); reflexivity.
Qed.

Lemma fds_vfs_release (st : vfs_state) f :
  fds (vfs_release f st) = fds st
  ∧ fds_cloexec (vfs_release f st) = fds_cloexec st.
Proof.
  unfold vfs_release.
  destruct (f_ref (set_ref f (f_ref st f - 1) st) f =? 0); split; reflexivity.
Qed.

Lemma slot_vfs_release (st : vfs_state) f j :
  slot (vfs_release f st) j = slot st j.
Proof. unfold slot. rewrite (proj1 (fds_vfs_release st f)). reflexivity. Qed.

(** Storing [f] in slot [k] and taking a reference for it, as the tail of
    [vfs_dup] does, after the slot has been emptied. *)
Lemma dup_tail_effect (st0 st : vfs_state) f k flags :
  table_ok MAX_FD_COUNT st → (k < MAX_FD_COUNT)%nat →
  <[k := Some f]> (fds st) = <[k := Some f]> (fds st0) →
  (∀ c, <[k := c]> (fds_cloexec st) = <[k := c]> (fds_cloexec st0)) →
  (∀ g, f_ref st g
        = f_ref st0 g - (if decide (slot st0 k = Some g) then 1 else 0)) →
  closed st
  = match slot st0 k with
    | Some g => if f_ref st0 g - 1 =? 0 then g :: closed st0 else closed st0
    | None => closed st0
    end →
  dup_effect st0
    (vfs_ref f (set_slot k (Some f)
                  (if Z.land flags O_CLOEXEC =? 0 then 0 else 1) st))
    f k flags.
Proof.
  intros [Hlen Hlenc] Hk Hfds Hcloexec Hrefs Hclosed.
  unfold dup_effect, vfs_ref.
  change (slot (set_ref ?f ?n ?s)) with (slot s).
  split; [rewrite slot_set_slot by lia; apply decide_True; reflexivity|].
  split; [exact Hfds|].
  split; [apply Hcloexec|].
  split; [|exact Hclosed].
  intros g. simpl. rewrite !Hrefs.
  destruct (decide (g = f)) as [->|Hne]; lia.
Qed.

(** [vfs_dup] with an explicit target that is [fd] itself or lies outside
    the table. *)
Lemma vfs_dup_rejected (st : vfs_state) fd newfd flags f :
  vfs_get MAX_FD_COUNT fd st = Some f →
  newfd ≠ -1 →
  newfd = fd ∨ newfd < 0 ∨ Z.of_nat MAX_FD_COUNT ≤ newfd →
  vfs_dup MAX_FD_COUNT fd newfd flags st = Some (- EINVAL, st).
Proof.
  intros Hget Hexplicit Hbad. unfold vfs_dup. rewrite Hget.
  rewrite (proj2 (Z.eqb_neq newfd (-1)) Hexplicit).
  assert ((newfd =? fd) || (newfd <? 0)
          || (newfd >=? Z.of_nat MAX_FD_COUNT) = true) as ->; [|reflexivity].
  destruct Hbad as [-> | [Hneg | Hbig]].
  - rewrite Z.eqb_refl. reflexivity.
  - apply Z.ltb_lt in Hneg. rewrite Hneg, orb_true_r. reflexivity.
  - apply Z.geb_le in Hbig. rewrite Hbig. apply orb_true_r.
Qed.

(** [vfs_dup] with an explicit target inside the table. *)
Lemma vfs_dup_explicit (st : vfs_state) fd newfd flags f :
  table_ok MAX_FD_COUNT st →
  vfs_get MAX_FD_COUNT fd st = Some f →
  newfd ≠ fd → 0 ≤ newfd < Z.of_nat MAX_FD_COUNT →
  ∃ st', vfs_dup MAX_FD_COUNT fd newfd flags st = Some (newfd, st')
         ∧ dup_effect st st' f (Z.to_nat newfd) flags.
Proof.
  intros Hok Hget Hne Hrange. unfold vfs_dup. rewrite Hget.
  rewrite (proj2 (Z.eqb_neq newfd (-1))) by lia.
  rewrite (proj2 (Z.eqb_neq newfd fd) Hne).
  rewrite (proj2 (Z.ltb_ge newfd 0)) by lia.
  assert ((newfd >=? Z.of_nat MAX_FD_COUNT) = false) as Hin
    by (rewrite Z.geb_leb; apply Z.leb_gt; lia).
  rewrite Hin. simpl.
  destruct (slot st (Z.to_nat newfd)) as [g|] eqn:Hold.
  - unfold vfs_close.
    rewrite (proj2 (Z.ltb_ge newfd 0)) by lia.
    rewrite Hin. simpl. rewrite Hold. simpl.
    eexists; split; [reflexivity|].
    destruct Hok as [Hlen Hlenc].
    destruct (fds_vfs_release st g) as [Hfds Hcl].
    apply dup_tail_effect.
    + apply table_ok_set_slot. split; congruence.
    + lia.
    + simpl. rewrite Hfds. apply list_insert_insert_eq.
    + intros c. simpl. rewrite Hcl. apply list_insert_insert_eq.
    + intros g'. change (f_ref (set_slot ?k ?x ?c ?s)) with (f_ref s).
      rewrite f_ref_vfs_release, Hold.
      destruct (decide (g' = g)) as [->|Hgg].
      * rewrite decide_True by reflexivity. reflexivity.
      * rewrite decide_False by congruence. lia.
    + change (closed (set_slot ?k ?x ?c ?s)) with (closed s).
      rewrite closed_vfs_release, Hold. reflexivity.
  - eexists; split; [reflexivity|].
    apply dup_tail_effect; try assumption; try lia.
    + reflexivity.
    + reflexivity.
    + intros g'. rewrite Hold. rewrite decide_False by discriminate. lia.
    + rewrite Hold. reflexivity.
Qed.

(** [vfs_dup] choosing the target itself. *)
Lemma vfs_dup_first_empty (st : vfs_state) fd flags f k :
  table_ok MAX_FD_COUNT st →
  vfs_get MAX_FD_COUNT fd st = Some f →
  (k < MAX_FD_COUNT)%nat → slot st k = None →
  (∀ j, (j < k)%nat → slot st j ≠ None) →
  ∃ st', vfs_dup MAX_FD_COUNT fd (-1) flags st = Some (Z.of_nat k, st')
         ∧ dup_effect st st' f k flags.
Proof.
  intros Hok Hget Hk Hempty Hbefore. unfold vfs_dup. rewrite Hget. simpl.
  rewrite (first_empty_least st MAX_FD_COUNT k Hk Hempty Hbefore).
  eexists; split; [reflexivity|].
  rewrite Nat2Z.id.
  apply dup_tail_effect; try assumption.
  - reflexivity.
  - reflexivity.
  - intros g'. rewrite Hempty. rewrite decide_False by discriminate. lia.
  - rewrite Hempty. reflexivity.
Qed.

Lemma vfs_dup_table_full (st : vfs_state) fd flags f :
  vfs_get MAX_FD_COUNT fd st = Some f →
  (∀ j, (j < MAX_FD_COUNT)%nat → slot st j ≠ None) →
  vfs_dup MAX_FD_COUNT fd (-1) flags st = Some (- EMFILE, st).
Proof.
  intros Hget Hfull. unfold vfs_dup. rewrite Hget. simpl.
  rewrite (first_empty_full st MAX_FD_COUNT Hfull). reflexivity.
Qed.

(** C7. For an open descriptor [fd] holding [f]: an explicit target equal
    to [fd] or outside [0, MAX_FD_COUNT) is rejected with the state
    untouched; any other explicit target has its previous file released
    (one reference less, closed when that was the last), then holds [f],
    whose count goes up by one; and with [newfd == -1] the same happens at
    the first empty slot, or the call fails when the table is full. *)
Theorem vfs_dup_spec (st : vfs_state) fd newfd flags f :
  table_ok MAX_FD_COUNT st →
  vfs_get MAX_FD_COUNT fd st = Some f →
  (newfd ≠ -1 →
   newfd = fd ∨ newfd < 0 ∨ Z.of_nat MAX_FD_COUNT ≤ newfd →
   vfs_dup MAX_FD_COUNT fd newfd flags st = Some (- EINVAL, st))
  ∧ (newfd ≠ fd → 0 ≤ newfd < Z.of_nat MAX_FD_COUNT →
     ∃ st', vfs_dup MAX_FD_COUNT fd newfd flags st = Some (newfd, st')
            ∧ dup_effect st st' f (Z.to_nat newfd) flags)
  ∧ (newfd = -1 →
     (∀ k, (k < MAX_FD_COUNT)%nat → slot st k = None →
           (∀ j, (j < k)%nat → slot st j ≠ None) →
           ∃ st', vfs_dup MAX_FD_COUNT fd newfd flags st
                  = Some (Z.of_nat k, st')
                  ∧ dup_effect st st' f k flags)
     ∧ ((∀ j, (j < MAX_FD_COUNT)%nat → slot st j ≠ None) →
        vfs_dup MAX_FD_COUNT fd newfd flags st = Some (- EMFILE, st))).
Proof.
  intros Hok Hget. split; [|split].
  - intros Hexplicit Hbad.
    apply (vfs_dup_rejected st fd newfd flags f Hget Hexplicit Hbad).
  - intros Hne Hrange.
    apply (vfs_dup_explicit st fd newfd flags f Hok Hget Hne Hrange).
  - intros ->. split.
    + intros k Hk Hempty Hbefore.
      apply (vfs_dup_first_empty st fd flags f k Hok Hget Hk Hempty Hbefore).
    + intros Hfull. apply (vfs_dup_table_full st fd flags f Hget Hfull).
Qed.

(** *** [pipe2] *)

Variable pipe_alloc : Z → vfs_state → Z * file * file * vfs_state.

Lemma vfs_store_file_ok (st : vfs_state) f c k st' :
  table_ok MAX_FD_COUNT st →
  vfs_store_file MAX_FD_COUNT f c st = (k, st') →
  (k < 0 ∧ k = - EMFILE ∧ st' = st)
  ∨ (0 ≤ k < Z.of_nat MAX_FD_COUNT
     ∧ slot st (Z.to_nat k) = None
     ∧ st' = set_slot (Z.to_nat k) (Some f) c st).
Proof.
  intros Hok. unfold vfs_store_file.
  destruct (first_empty st 0 MAX_FD_COUNT) as [i|] eqn:E.
  - intros [= <- <-]. right.
    apply first_empty_Some in E as (Hr & Hi & _).
    rewrite Nat2Z.id. split; [lia|]. split; [exact Hi|reflexivity].
  - intros [= <- <-]. left. unfold EMFILE. split; [lia|]. split; reflexivity.
Qed.

(** Emptying a slot that was filled a moment ago gives the table back. *)
Lemma fds_clear_stored (st : vfs_state) k f c c' :
  slot st k = None → (k < length (fds st))%nat →
  fds (set_slot k None c' (set_slot k (Some f) c st)) = fds st.
Proof.
  intros Hempty Hk. simpl. rewrite list_insert_insert_eq.
  apply list_insert_id. unfold slot in Hempty.
  destruct (fds st !! k) as [x|] eqn:E.
  - simpl in Hempty. congruence.
  - apply lookup_ge_None in E. lia.
Qed.

(** C10. [pipe2] keeps the descriptor table whole when it fails: with
    [O_DIRECT] or [O_NONBLOCK] among the flags it returns [-EINVAL] before
    anything is allocated; and when storing either end fails, it returns
    [-EMFILE] with the table as it was before the call, having released
    both pipe files (each one reference less). *)
Theorem sys_pipe2_failure_atomic (st : vfs_state) writable flags :
  table_ok MAX_FD_COUNT st →
  pipe_alloc_keeps_table MAX_FD_COUNT pipe_alloc →
  (Z.land flags O_DIRECT ≠ 0 ∨ Z.land flags O_NONBLOCK ≠ 0 →
   sys_pipe2 MAX_FD_COUNT pipe_alloc writable flags st
   = Some (- EINVAL, None, st))
  ∧ ∃ r out st',
      sys_pipe2 MAX_FD_COUNT pipe_alloc writable flags st = Some (r, out, st')
      ∧ (r < 0 → out = None ∧ fds st' = fds st)
      ∧ (∀ r1 fread fwrite st1,
           Z.land flags O_DIRECT = 0 → Z.land flags O_NONBLOCK = 0 →
           writable = true →
           pipe_alloc flags st = (r1, fread, fwrite, st1) → 0 ≤ r1 →
           r < 0 →
           r = - EMFILE
           ∧ ∀ g, f_ref st' g
                  = f_ref st1 g
                    - (if decide (g = fread) then 1 else 0)
                    - (if decide (g = fwrite) then 1 else 0)).
Proof.
  intros Hok Hpipe. unfold sys_pipe2. split.
  { intros [Hd|Hn].
    - rewrite (proj2 (Z.eqb_neq _ _) Hd). reflexivity.
    - rewrite (proj2 (Z.eqb_neq _ _) Hn). rewrite orb_true_r. reflexivity. }
  destruct (negb (Z.land flags O_DIRECT =? 0)
            || negb (Z.land flags O_NONBLOCK =? 0)) eqn:Hflags.
  { do 3 eexists. split; [reflexivity|]. split; [intros _; split; reflexivity|].
    intros r1 fread fwrite st1 Hd Hn. rewrite Hd, Hn in Hflags. discriminate. }
  destruct writable; simpl.
  2:{ do 3 eexists. split; [reflexivity|]. split; [intros _; split; reflexivity|].
      intros; discriminate. }
  destruct (Hpipe flags st Hok) as [Hfds1 Hok1].
  destruct (pipe_alloc flags st) as [[[r1 fread] fwrite] st1] eqn:Halloc.
  simpl in Hfds1, Hok1.
  destruct (r1 <? 0) eqn:Hr1.
  { do 3 eexists. split; [reflexivity|].
    split; [intros _; split; [reflexivity|exact Hfds1]|].
    intros r1' fread' fwrite' st1' _ _ _ [= <- <- <- <-] Hpos.
    apply Z.ltb_lt in Hr1. lia. }
  set (c := if Z.land flags O_CLOEXEC >? 0 then 1 else 0).
  destruct (vfs_store_file MAX_FD_COUNT fread c st1) as [rfd st2] eqn:Hst2.
  destruct (vfs_store_file_ok _ _ _ _ _ Hok1 Hst2)
    as [(Hneg & -> & ->) | (Hrfd & Hempty & ->)].
  { (* no room for the read end *)
    replace (- EMFILE <? 0) with true by reflexivity.
    do 3 eexists. split; [reflexivity|]. split.
    - intros _. split; [reflexivity|].
      rewrite (proj1 (fds_vfs_release _ fwrite)).
      rewrite (proj1 (fds_vfs_release _ fread)). exact Hfds1.
    - intros r1' fread' fwrite' st1' _ _ _ [= <- <- <- <-] _ _.
      split; [reflexivity|]. intros g. rewrite !f_ref_vfs_release.
      repeat case_decide; subst; try congruence; lia. }
  rewrite (proj2 (Z.ltb_ge rfd 0)) by lia.
  destruct (vfs_store_file MAX_FD_COUNT fwrite c
              (set_slot (Z.to_nat rfd) (Some fread) c st1))
    as [wfd st3] eqn:Hst3.
  pose proof (table_ok_set_slot _ (Z.to_nat rfd) (Some fread) c Hok1) as Hok2.
  destruct (vfs_store_file_ok _ _ _ _ _ Hok2 Hst3)
    as [(Hneg & -> & ->) | (Hwfd & Hempty' & ->)].
  { (* no room for the write end *)
    replace (- EMFILE <? 0) with true by reflexivity.
    unfold vfs_close.
    rewrite (proj2 (Z.ltb_ge rfd 0)) by lia.
    assert ((rfd >=? Z.of_nat MAX_FD_COUNT) = false) as ->
      by (rewrite Z.geb_leb; apply Z.leb_gt; lia).
    simpl orb. cbv iota.
    destruct Hok1 as [Hlen1 Hlenc1].
    rewrite slot_set_slot by lia. rewrite decide_True by reflexivity.
    simpl.
    do 3 eexists. split; [reflexivity|]. split.
    - intros _. split; [reflexivity|].
      rewrite (proj1 (fds_vfs_release _ fwrite)).
      change (fds (set_slot ?k ?x ?c' ?s)) with (<[k := x]> (fds s)).
      rewrite (proj1 (fds_vfs_release _ fread)).
      rewrite <- Hfds1.
      apply (fds_clear_stored st1 (Z.to_nat rfd) fread c 0 Hempty). lia.
    - intros r1' fread' fwrite' st1' _ _ _ [= <- <- <- <-] _ _.
      split; [reflexivity|]. intros g. rewrite f_ref_vfs_release.
      change (f_ref (set_slot ?k ?x ?c' ?s)) with (f_ref s).
      rewrite !f_ref_vfs_release.
      change (f_ref (set_slot ?k ?x ?c' ?s)) with (f_ref s).
      repeat case_decide; subst; try congruence; lia. }
  rewrite (proj2 (Z.ltb_ge wfd 0)) by lia.
  do 3 eexists. split; [reflexivity|]. split; intros; lia.
Qed.

(** *** Reference counting *)

Lemma count_insert {A} (P : A → Prop) `{∀ x, Decision (P x)}
    (l : list A) k x y :
  l !! k = Some y →
  (length (filter P (<[k := x]> l)) + (if decide (P y) then 1 else 0)
   = length (filter P l) + (if decide (P x) then 1 else 0))%nat.
Proof.
  revert k; induction l as [|a l IH]; intros k Hk; [discriminate|].
  destruct k as [|k]; simpl in *.
  - injection Hk as ->. rewrite !filter_cons.
    destruct (decide (P x)), (decide (P y)); simpl; lia.
  - specialize (IH k Hk). rewrite !filter_cons.
    destruct (decide (P a)); simpl; lia.
Qed.

Lemma slot_lookup (st : vfs_state) k g :
  slot st k = Some g → fds st !! k = Some (Some g).
Proof.
  unfold slot. destruct (fds st !! k) as [x|]; simpl; [|discriminate].
  intros ->; reflexivity.
Qed.

Lemma slot_None_lookup (st : vfs_state) k :
  slot st k = None → (k < length (fds st))%nat → fds st !! k = Some None.
Proof.
  unfold slot. intros Hs Hk.
  destruct (fds st !! k) as [x|] eqn:E; simpl in Hs.
  - rewrite Hs; reflexivity.
  - apply lookup_ge_None in E. lia.
Qed.

(** Writing [x] into slot [k], which held [y]. *)
Lemma slots_holding_insert (st st' : vfs_state) f k x y :
  fds st !! k = Some y →
  fds st' = <[k := x]> (fds st) →
  Z.of_nat (slots_holding f st')
  = Z.of_nat (slots_holding f st)
    - (if decide (y = Some f) then 1 else 0)
    + (if decide (x = Some f) then 1 else 0).
Proof.
  intros Hk Hfds. unfold slots_holding. rewrite Hfds.
  pose proof (count_insert (λ s, s = Some f) (fds st) k x y Hk) as Hc.
  destruct (decide (y = Some f)), (decide (x = Some f)); lia.
Qed.

Lemma slots_holding_pos (st : vfs_state) f k :
  slot st k = Some f → (1 ≤ slots_holding f st)%nat.
Proof.
  intros Hs. apply slot_lookup in Hs.
  unfold slots_holding.
  assert (Some f ∈ filter (λ s, s = Some f) (fds st)) as Hin.
  { apply list_elem_of_filter. split; [reflexivity|].
    apply list_elem_of_lookup. exists k; exact Hs. }
  destruct (filter _ _); [inversion Hin|simpl; lia].
Qed.

Lemma slots_holding_two (st : vfs_state) f a b :
  a ≠ b → slot st a = Some f → slot st b = Some f →
  (2 ≤ slots_holding f st)%nat.
Proof.
  intros Hab Ha Hb.
  pose (st1 := set_slot a None 0 st).
  assert (slot st1 b = Some f) as Hb1.
  { unfold st1. rewrite slot_set_slot.
    - rewrite decide_False by congruence. exact Hb.
    - apply slot_lookup, lookup_lt_Some in Ha. exact Ha. }
  pose proof (slots_holding_pos st1 f b Hb1) as Hpos.
  pose proof (slots_holding_insert st st1 f a None (Some f)
                (slot_lookup _ _ _ Ha) eq_refl) as Hins.
  rewrite decide_True in Hins by reflexivity.
  rewrite decide_False in Hins by discriminate. lia.
Qed.

Lemma close_calls_vfs_release (st : vfs_state) f g :
  close_calls f (vfs_release g st)
  = (close_calls f st
     + if decide (g = f ∧ (f_ref st g - 1 = 0)%Z) then 1 else 0)%nat.
Proof.
  unfold close_calls. rewrite closed_vfs_release.
  destruct (Z.eqb_spec (f_ref st g - 1) 0) as [Hz|Hnz].
  - rewrite filter_cons. destruct (decide (g = f)) as [->|Hne].
    + rewrite decide_True by (split; [reflexivity|exact Hz]). simpl; lia.
    + rewrite decide_False by (intros [? _]; contradiction). simpl; lia.
  - rewrite decide_False by (intros [_ ?]; contradiction). lia.
Qed.

Lemma slots_holding_vfs_release (st : vfs_state) f g :
  slots_holding f (vfs_release g st) = slots_holding f st.
Proof.
  unfold slots_holding. rewrite (proj1 (fds_vfs_release st g)). reflexivity.
Qed.

(** The three ways in which a step may move the books of [f]: not at all;
    from in use to in use; from in use to destroyed, with one more call of
    [close]. *)
Lemma accounted_step (f : file) (t t' : tracked) :
  accounted MAX_FD_COUNT f t →
  table_ok MAX_FD_COUNT (tk_state t') →
  refcount_inv f t' →
  (f_ref (tk_state t') f = f_ref (tk_state t) f
   ∧ close_calls f (tk_state t') = close_calls f (tk_state t))
  ∨ (0 < f_ref (tk_state t) f ∧ 0 < f_ref (tk_state t') f
     ∧ close_calls f (tk_state t') = close_calls f (tk_state t))
  ∨ (0 < f_ref (tk_state t) f ∧ f_ref (tk_state t') f = 0
     ∧ close_calls f (tk_state t') = S (close_calls f (tk_state t))) →
  accounted MAX_FD_COUNT f t'.
Proof.
  intros (Hok & Hinv & Hstate) Hok' Hinv' Hmove.
  split; [exact Hok'|]. split; [exact Hinv'|].
  unfold live, destroyed in *.
  destruct Hmove as [[HR HC] | [(Hpos & Hpos' & HC) | (Hpos & Hz & HC)]].
  - rewrite HR, HC. exact Hstate.
  - left. destruct Hstate as [[_ Hcc] | [Hzero _]]; [|lia].
    split; [exact Hpos'|congruence].
  - right. destruct Hstate as [[_ Hcc] | [Hzero _]]; [|lia].
    split; [exact Hz|lia].
Qed.

(** Giving up one reference of [g] with [vfs_release]. *)
Lemma release_moves (st st' : vfs_state) (f g : file) :
  f_ref st' = f_ref (vfs_release g st) →
  closed st' = closed (vfs_release g st) →
  (g = f → 1 ≤ f_ref st f) →
  (f_ref st' f = f_ref st f ∧ close_calls f st' = close_calls f st)
  ∨ (0 < f_ref st f ∧ 0 < f_ref st' f
     ∧ close_calls f st' = close_calls f st)
  ∨ (0 < f_ref st f ∧ f_ref st' f = 0
     ∧ close_calls f st' = S (close_calls f st)).
Proof.
  intros Href Hclosed Hheld.
  assert (close_calls f st' = close_calls f (vfs_release g st)) as ->
    by (unfold close_calls; rewrite Hclosed; reflexivity).
  rewrite Href, close_calls_vfs_release, f_ref_vfs_release.
  destruct (decide (f = g)) as [<-|Hne].
  - specialize (Hheld eq_refl).
    destruct (decide (f_ref st f - 1 = 0)) as [Hlast|Hmore].
    + right; right.
      rewrite decide_True by (split; [reflexivity|exact Hlast]).
      split; [lia|]. split; [exact Hlast|lia].
    + right; left.
      rewrite decide_False by (intros [_ ?]; contradiction).
      split; [lia|]. split; lia.
  - left. rewrite decide_False by (intros [? _]; congruence).
    split; [reflexivity|lia].
Qed.

Lemma accounted_held (t : tracked) (f : file) k :
  accounted MAX_FD_COUNT f t → slot (tk_state t) k = Some f →
  1 ≤ f_ref (tk_state t) f.
Proof.
  intros (_ & [Hinv Hb] & _) Hs.
  pose proof (slots_holding_pos _ _ _ Hs). lia.
Qed.

Lemma vfs_close_accounted (t : tracked) (f : file) fd st' :
  accounted MAX_FD_COUNT f t →
  vfs_close MAX_FD_COUNT fd (tk_state t) = Some st' →
  accounted MAX_FD_COUNT f {| tk_state := st'; tk_borrows := tk_borrows t |}.
Proof.
  intros Hacc. pose proof Hacc as (Hok & [Hinv Hb] & _).
  unfold vfs_close.
  destruct ((fd <? 0) || (fd >=? Z.of_nat MAX_FD_COUNT)); [discriminate|].
  destruct (slot (tk_state t) (Z.to_nat fd)) as [g|] eqn:Hs; [|discriminate].
  intros [= <-].
  apply (accounted_step f t); [exact Hacc| | |].
  - apply table_ok_set_slot. destruct Hok as [H1 H2].
    destruct (fds_vfs_release (tk_state t) g) as [E1 E2].
    split; congruence.
  - split; [|exact Hb]. simpl.
    rewrite f_ref_vfs_release.
    pose proof (slots_holding_insert (vfs_release g (tk_state t))
                  (set_slot (Z.to_nat fd) None 0 (vfs_release g (tk_state t)))
                  f (Z.to_nat fd) None (Some g)) as Hins.
    rewrite slots_holding_vfs_release in Hins.
    rewrite Hins;
      [|rewrite (proj1 (fds_vfs_release _ g)); apply slot_lookup; exact Hs
       |reflexivity].
    rewrite (decide_False (P := None = Some f)) by discriminate.
    destruct (decide (f = g)) as [->|Hne].
    + rewrite decide_True by reflexivity. lia.
    + rewrite decide_False by congruence. lia.
  - apply (release_moves (tk_state t) _ f g); try reflexivity.
    intros ->. apply (accounted_held t f _ Hacc Hs).
Qed.

Lemma vfs_dup_effect_cases (st : vfs_state) fd newfd flags r st' :
  table_ok MAX_FD_COUNT st →
  vfs_dup MAX_FD_COUNT fd newfd flags st = Some (r, st') →
  st' = st
  ∨ ∃ g k, slot st (Z.to_nat fd) = Some g ∧ k ≠ Z.to_nat fd
           ∧ (k < MAX_FD_COUNT)%nat ∧ dup_effect st st' g k flags.
Proof.
  intros Hok Hdup.
  destruct (vfs_get MAX_FD_COUNT fd st) as [g|] eqn:Hget.
  2:{ unfold vfs_dup in Hdup. rewrite Hget in Hdup.
      injection Hdup as _ <-. left; reflexivity. }
  assert (slot st (Z.to_nat fd) = Some g ∧ 0 ≤ fd) as [Hfd Hfd0].
  { unfold vfs_get in Hget.
    destruct (fd <? 0) eqn:E; [discriminate|]. apply Z.ltb_ge in E.
    destruct (fd >=? Z.of_nat MAX_FD_COUNT); [discriminate|].
    split; assumption. }
  destruct (decide (newfd = -1)) as [->|Hm1].
  - destruct (first_empty st 0 MAX_FD_COUNT) as [k|] eqn:E.
    + apply first_empty_Some in E as (Hr & Hk & Hbefore).
      destruct (vfs_dup_first_empty st fd flags g k Hok Hget
                  ltac:(lia) Hk ltac:(intros; apply Hbefore; lia))
        as (st'' & Hres & Heff).
      rewrite Hres in Hdup. injection Hdup as _ <-.
      right. exists g, k. repeat split; try apply Heff; try lia; try assumption.
      intros ->. congruence.
    + rewrite (vfs_dup_table_full st fd flags g Hget) in Hdup.
      * injection Hdup as _ <-. left; reflexivity.
      * intros j Hj. apply (first_empty_None _ _ _ E). lia.
  - destruct (decide (newfd = fd ∨ newfd < 0 ∨ Z.of_nat MAX_FD_COUNT ≤ newfd))
      as [Hbad|Hgood].
    + rewrite (vfs_dup_rejected st fd newfd flags g Hget Hm1 Hbad) in Hdup.
      injection Hdup as _ <-. left; reflexivity.
    + destruct (vfs_dup_explicit st fd newfd flags g Hok Hget
                  ltac:(lia) ltac:(lia)) as (st'' & Hres & Heff).
      rewrite Hres in Hdup. injection Hdup as _ <-.
      right. exists g, (Z.to_nat newfd).
      repeat split; try apply Heff; try lia; try assumption.
Qed.

Lemma vfs_dup_accounted (t : tracked) (f : file) fd newfd flags r st' :
  accounted MAX_FD_COUNT f t →
  vfs_dup MAX_FD_COUNT fd newfd flags (tk_state t) = Some (r, st') →
  accounted MAX_FD_COUNT f {| tk_state := st'; tk_borrows := tk_borrows t |}.
Proof.
  intros Hacc Hdup. pose proof Hacc as (Hok & [Hinv Hb] & Hstate).
  destruct (vfs_dup_effect_cases _ _ _ _ _ _ Hok Hdup)
    as [-> | (g & k & Hfd & Hne & Hk & Heff)].
  { destruct t; exact Hacc. }
  destruct Heff as (Hnew & Hfds & Hcl & Href & Hclosed).
  destruct Hok as [Hlen Hlenc].
  assert (∃ y, fds (tk_state t) !! k = Some y ∧ slot (tk_state t) k = y)
    as (y & Hy & Hsy).
  { destruct (lookup_lt_is_Some_2 (fds (tk_state t)) k ltac:(lia)) as [y Hy].
    exists y. split; [exact Hy|]. unfold slot. rewrite Hy. reflexivity. }
  pose proof (slots_holding_insert (tk_state t) st' f k (Some g) y Hy Hfds)
    as Hslots.
  assert (f_ref st' f
          = f_ref (tk_state t) f
            - (if decide (y = Some f) then 1 else 0)
            + (if decide (Some g = Some f) then 1 else 0)) as HR.
  { rewrite Href, Hsy.
    destruct (decide (f = g)) as [->|Hfg].
    - rewrite (decide_True (P := Some g = Some g)) by reflexivity. reflexivity.
    - rewrite (decide_False (P := Some g = Some f)) by congruence. reflexivity. }
  apply (accounted_step f t); [exact Hacc| | |]; simpl.
  - split; [rewrite Hfds|rewrite Hcl]; rewrite length_insert; assumption.
  - split; [|exact Hb]. simpl. lia.
  - unfold close_calls. rewrite Hclosed, Hsy. fold (close_calls f (tk_state t)).
    destruct y as [h|].
    + (* the target slot held [h] *)
      destruct (decide (h = f)) as [->|Hh].
      * pose proof (accounted_held t f k Hacc Hsy) as Hheld.
        rewrite decide_True in HR by reflexivity.
        destruct (decide (g = f)) as [->|Hg].
        -- pose proof (slots_holding_two _ f _ _ Hne Hsy Hfd) as Htwo.
           rewrite decide_True in HR by reflexivity.
           rewrite (proj2 (Z.eqb_neq _ _)) by lia.
           right; left. repeat split; try lia.
        -- rewrite decide_False in HR by congruence.
           destruct (Z.eqb_spec (f_ref (tk_state t) f - 1) 0) as [Hz|Hnz].
           ++ right; right. rewrite filter_cons, decide_True by reflexivity.
              simpl. repeat split; lia.
           ++ right; left. repeat split; lia.
      * rewrite decide_False in HR by congruence.
        assert (length (filter (λ g0, g0 = f)
                  (if f_ref (tk_state t) h - 1 =? 0
                   then h :: closed (tk_state t) else closed (tk_state t)))
                = close_calls f (tk_state t)) as ->.
        { destruct (f_ref (tk_state t) h - 1 =? 0); [|reflexivity].
          rewrite filter_cons, decide_False by exact Hh. reflexivity. }
        destruct (decide (g = f)) as [->|Hg].
        -- pose proof (accounted_held t f _ Hacc Hfd) as Hheld.
           rewrite decide_True in HR by reflexivity.
           right; left. repeat split; lia.
        -- rewrite decide_False in HR by congruence.
           left. split; [lia|reflexivity].
    + rewrite decide_False in HR by discriminate.
      destruct (decide (g = f)) as [->|Hg].
      * pose proof (accounted_held t f _ Hacc Hfd) as Hheld.
        rewrite decide_True in HR by reflexivity.
        right; left. repeat split; lia.
      * rewrite decide_False in HR by congruence.
        left. split; [lia|reflexivity].
Qed.

Lemma apply_op_accounted (t t' : tracked) (f : file) (o : fd_op) :
  accounted MAX_FD_COUNT f t →
  apply_op MAX_FD_COUNT o t = Some t' →
  accounted MAX_FD_COUNT f t'.
Proof.
  intros Hacc. pose proof Hacc as (Hok & [Hinv Hb] & Hstate).
  destruct o as [g c|fd|fd newfd flags|g|g]; simpl.
  - (* store *)
    destruct (0 <? tk_borrows t g) eqn:Hheld; [|discriminate].
    apply Z.ltb_lt in Hheld.
    destruct (vfs_store_file MAX_FD_COUNT g c (tk_state t)) as [k st'] eqn:Hst.
    destruct (vfs_store_file_ok _ _ _ _ _ Hok Hst)
      as [(Hneg & -> & ->) | (Hk & Hempty & ->)].
    { replace (- EMFILE <? 0) with true by reflexivity.
      intros [= <-]; exact Hacc. }
    rewrite (proj2 (Z.ltb_ge k 0)) by lia. intros [= <-].
    apply (accounted_step f t); [exact Hacc| | |]; simpl.
    + apply table_ok_set_slot; exact Hok.
    + unfold refcount_inv, add_borrow; simpl.
      pose proof (slots_holding_insert (tk_state t)
                    (set_slot (Z.to_nat k) (Some g) c (tk_state t))
                    f (Z.to_nat k) (Some g) None) as Hins.
      rewrite Hins;
        [|apply slot_None_lookup; [exact Hempty|destruct Hok; lia]
         |reflexivity].
      rewrite (decide_False (P := None = Some f)) by discriminate.
      destruct (decide (f = g)) as [->|Hne].
      * rewrite decide_True by reflexivity. split; lia.
      * rewrite decide_False by congruence. split; lia.
    + left; split; reflexivity.
  - (* close *)
    unfold sys_close.
    destruct ((fd <? 0) || (fd >=? Z.of_nat MAX_FD_COUNT)); [discriminate|].
    destruct (slot (tk_state t) (Z.to_nat fd)) as [g|]; simpl.
    + destruct (vfs_close MAX_FD_COUNT fd (tk_state t)) as [st'|] eqn:Hcl;
        simpl; [|discriminate].
      intros [= <-]. apply (vfs_close_accounted t f fd st' Hacc Hcl).
    + intros [= <-]. destruct t; exact Hacc.
  - (* dup *)
    destruct (vfs_dup MAX_FD_COUNT fd newfd flags (tk_state t))
      as [[r st']|] eqn:Hdup; simpl; [|discriminate].
    intros [= <-]. apply (vfs_dup_accounted t f fd newfd flags r st' Hacc Hdup).
  - (* ref *)
    destruct (0 <? f_ref (tk_state t) g) eqn:Hlive; [|discriminate].
    apply Z.ltb_lt in Hlive. intros [= <-].
    apply (accounted_step f t); [exact Hacc| | |]; simpl.
    + exact Hok.
    + unfold refcount_inv, add_borrow; simpl.
      change (slots_holding f (vfs_ref g (tk_state t)))
        with (slots_holding f (tk_state t)).
      destruct (decide (f = g)) as [->|Hne]; split; lia.
    + destruct (decide (f = g)) as [->|Hne].
      * right; left. repeat split; first [lia | reflexivity].
      * left; split; reflexivity.
  - (* release *)
    destruct (0 <? tk_borrows t g) eqn:Hheld; [|discriminate].
    apply Z.ltb_lt in Hheld. intros [= <-].
    apply (accounted_step f t); [exact Hacc| | |]; simpl.
    + destruct Hok as [H1 H2].
      destruct (fds_vfs_release (tk_state t) g) as [E1 E2].
      split; congruence.
    + unfold refcount_inv, add_borrow; simpl.
      rewrite slots_holding_vfs_release, f_ref_vfs_release.
      destruct (decide (f = g)) as [->|Hne]; split; lia.
    + apply (release_moves (tk_state t) _ f g); try reflexivity.
      intros ->. lia.
Qed.

Lemma run_ops_accounted (ops : list fd_op) (t t' : tracked) (f : file) :
  accounted MAX_FD_COUNT f t →
  run_ops MAX_FD_COUNT ops t = Some t' →
  accounted MAX_FD_COUNT f t'.
Proof.
  revert t; induction ops as [|o ops IH]; intros t Hacc; simpl.
  - intros [= <-]; exact Hacc.
  - destruct (apply_op MAX_FD_COUNT o t) as [t1|] eqn:Hop; simpl;
      [|discriminate].
    apply IH. apply (apply_op_accounted t t1 f o Hacc Hop).
Qed.

(** C8. Along any series of store, close, dup, ref and release operations
    in which no caller gives away a reference it does not hold, the
    reference count of every file [f] stays equal to the number of slots
    that hold it plus the references borrowed on it; and [f] either is
    still in use with [close] never called, or has lost its last reference
    and [close] has been called exactly once. *)
Theorem refcount_accounting (ops : list fd_op) (t t' : tracked) (f : file) :
  table_ok MAX_FD_COUNT (tk_state t) →
  refcount_inv f t →
  live f (tk_state t) →
  run_ops MAX_FD_COUNT ops t = Some t' →
  refcount_inv f t'
  ∧ (live f (tk_state t') ∨ destroyed f (tk_state t')).
Proof.
  intros Hok Hinv Hlive Hrun.
  apply (run_ops_accounted ops t t' f) in Hrun.
  - destruct Hrun as (_ & Hinv' & Hstate'). split; assumption.
  - split; [exact Hok|]. split; [exact Hinv|]. left; exact Hlive.
Qed.

(** ** The resolver *)

Variable MAX_SYMLINK_LEVEL : nat.




End VfsFacts.

(** * Properties of the signal core *)

Section SigFacts.

Import Sig.

Variable _NSIG : nat.
Variable sigismember : Z → Z → bool.
Variable sigaddset : Z → Z → Z.
Variable sigdelset : Z → Z → Z.

Lemma sigset_not_testbit m i :
  Z.testbit (sigset_not m) i
  = bool_decide (0 ≤ i < 64) && negb (Z.testbit m i).
Proof.
  unfold sigset_not.
  destruct (decide (0 ≤ i < 64)) as [Hi|Hi].
  - rewrite bool_decide_eq_true_2 by exact Hi.
    rewrite Z.mod_pow2_bits_low by lia.
    rewrite Z.lnot_spec by lia. reflexivity.
  - rewrite bool_decide_eq_false_2 by exact Hi. simpl.
    destruct (decide (i < 0)) as [Hneg|Hpos].
    + apply Z.testbit_neg_r; exact Hneg.
    + apply Z.mod_pow2_bits_high; lia.
Qed.

(** The test of [send_pending_signal] is the emptiness test of [p & ~m]. *)
Lemma deliverable_nil p m :
  deliverable p m = [] ↔ Z.land p (sigset_not m) = 0.
Proof.
  unfold deliverable; split.
  - intros Hnil. apply Z.bits_inj'. intros i Hi.
    rewrite Z.land_spec, sigset_not_testbit, Z.bits_0.
    destruct (decide (0 ≤ i < 64)) as [Hr|Hr].
    + rewrite bool_decide_eq_true_2 by exact Hr. simpl.
      destruct (Z.testbit p i) eqn:Hp; [|reflexivity].
      destruct (Z.testbit m i) eqn:Hm; [reflexivity|].
      exfalso.
      apply (filter_nil_not_elem_of _ _ i Hnil); [split; assumption|].
      apply elem_of_seqZ; lia.
    + rewrite bool_decide_eq_false_2 by exact Hr.
      apply andb_false_r.
  - intros Hzero.
    destruct (filter _ _) as [|i rest] eqn:Hf; [reflexivity|].
    assert (i ∈ filter (λ i, Z.testbit p i = true ∧ Z.testbit m i = false)
                  (seqZ 0 64)) as Hin by (rewrite Hf; left).
    apply list_elem_of_filter in Hin as [[Hp Hm] Hr].
    apply elem_of_seqZ in Hr.
    assert (Z.testbit (Z.land p (sigset_not m)) i = true) as Hbit.
    { rewrite Z.land_spec, sigset_not_testbit, Hp, Hm.
      rewrite bool_decide_eq_true_2 by lia. reflexivity. }
    rewrite Hzero, Z.bits_0 in Hbit. discriminate.
Qed.

Lemma send_pending_signal_spec st :
  pending (send_pending_signal st) = pending st
  ∧ mask (send_pending_signal st) = mask st
  ∧ (deliverable (pending st) (mask st) ≠ [] →
     sigwrite (send_pending_signal st)
     = sigwrite st ++ [SIGNAL_PACKET_DELIVER])
  ∧ (deliverable (pending st) (mask st) = [] →
     sigwrite (send_pending_signal st) = sigwrite st).
Proof.
  unfold send_pending_signal. rewrite deliverable_nil.
  destruct (Z.land (pending st) (sigset_not (mask st)) =? 0) eqn:E; simpl.
  - apply Z.eqb_eq in E. repeat split; try reflexivity. intros Hne; contradiction.
  - apply Z.eqb_neq in E. repeat split; try reflexivity. intros Hz; contradiction.
Qed.

Lemma rt_sigprocmask_success how set oldset sigsetsize st old st' :
  sys_rt_sigprocmask how set oldset sigsetsize st = (0, old, st') →
  st' = send_pending_signal (set_mask (new_mask how set (mask st)) st).
Proof.
  unfold sys_rt_sigprocmask, new_mask.
  destruct (negb (sigsetsize =? sizeof_sigset_t)); [intros [= ?]; discriminate|].
  destruct (negb (how =? SIG_BLOCK) && negb (how =? SIG_UNBLOCK)
            && negb (how =? SIG_SETMASK)); [intros [= ?]; discriminate|].
  destruct (match set with Some a => negb (in_ok a) | None => false end);
    [intros [= ?]; discriminate|].
  destruct (match oldset with Some ok => negb ok | None => false end);
    [intros [= ?]; discriminate|].
  intros [= _ <-].
  destruct set as [a|].
  - destruct (how =? SIG_BLOCK); [reflexivity|].
    destruct (how =? SIG_UNBLOCK); reflexivity.
  - destruct st; reflexivity.
Qed.

(** C3. After a successful [rt_sigprocmask], with [m] the mask it leaves
    and [p] the pending set: the pending set is untouched; if [p & ~m] is
    not empty the call has written exactly one [DELIVER] packet to the
    signal pipe, and if it is empty it has written nothing. *)
Theorem rt_sigprocmask_delivers how set oldset sigsetsize st old st' :
  sys_rt_sigprocmask how set oldset sigsetsize st = (0, old, st') →
  pending st' = pending st
  ∧ mask st' = new_mask how set (mask st)
  ∧ (deliverable (pending st) (mask st') ≠ [] →
     sigwrite st' = sigwrite st ++ [SIGNAL_PACKET_DELIVER])
  ∧ (deliverable (pending st) (mask st') = [] →
     sigwrite st' = sigwrite st).
Proof.
  intros Hcall. apply rt_sigprocmask_success in Hcall. subst st'.
  destruct (send_pending_signal_spec
              (set_mask (new_mask how set (mask st)) st))
    as (Hp & Hm & Hsend & Hkeep).
  rewrite Hm. simpl in *. auto.
Qed.

(** C4. Whatever the other arguments, [rt_sigaction] on [SIGKILL], on
    [SIGSTOP], or on a number outside [0, _NSIG) fails with [EINVAL], copies
    nothing out, and leaves the whole signal state, the action table
    included, as it was. *)
Theorem rt_sigaction_rejects_kill_stop signum act oldact sigsetsize st :
  signum = SIGKILL ∨ signum = SIGSTOP
  ∨ signum < 0 ∨ Z.of_nat _NSIG ≤ signum →
  sys_rt_sigaction _NSIG signum act oldact sigsetsize st
  = (- EINVAL, None, st).
Proof.
  intros Hsig. unfold sys_rt_sigaction.
  destruct (negb (sigsetsize =? sizeof_sigset_t)); [reflexivity|].
  assert ((signum <? 0) || (signum >=? Z.of_nat _NSIG)
          || (signum =? SIGKILL) || (signum =? SIGSTOP) = true) as ->;
    [|reflexivity].
  destruct Hsig as [-> | [-> | [Hneg | Hbig]]].
  - rewrite Z.eqb_refl. rewrite orb_true_r. reflexivity.
  - rewrite Z.eqb_refl. apply orb_true_r.
  - apply Z.ltb_lt in Hneg. rewrite Hneg. reflexivity.
  - apply Z.geb_le in Hbig. rewrite Hbig. rewrite orb_true_r. reflexivity.
Qed.

(** C5. A [KILL] packet for a signal that is already pending is dropped:
    [signal_thread_handle_kill] returns with the signal state exactly as it
    found it (pending set, stored [siginfo]s, mask, [can_accept_signal],
    current [siginfo]), nothing is written to the pipe and no call is made
    on the main thread. *)
Theorem handle_kill_already_pending i st :
  sigismember (pending st) (si_signo i) = true →
  signal_thread_handle_kill _NSIG sigismember sigaddset i st = Some st.
Proof.
  intros Hpending. unfold signal_thread_handle_kill.
  rewrite Hpending. reflexivity.
Qed.

End SigFacts.

(** * The normal form of paths *)

Section PathMoreFacts.

Import Path VfsCalls.

Lemma rstate_rev cs : rstate (rev cs) = rev ("/" :: joined cs).
Proof.
  rewrite <- (rev_involutive (rstate (rev cs))).
  rewrite rev_rstate, rev_involutive. reflexivity.
Qed.

Lemma clean_dir_normalised d : clean_dir d → normalised d.
Proof.
  intros [->|(cs & c & Hcs & Hc & ->)]; [left; reflexivity|].
  right. exists cs, c. split; [exact Hcs|]. split; [right; exact Hc|reflexivity].
Qed.

(** The prologue from a working directory in good shape. *)
Lemma normalize_start_clean current pathname :
  clean_dir current →
  ∃ rcs pathname',
    Forall component rcs
    ∧ normalize_start current pathname = Some (pathname', rstate rcs)
    ∧ (length pathname' ≤ length pathname)%nat
    ∧ (NUL ∉ pathname → NUL ∉ pathname').
Proof.
  intros Hclean. unfold normalize_start, char_at.
  destruct (Ascii.eqb (nth 0 pathname NUL) "/") eqn:Habs.
  { exists [], (drop 1 pathname). split; [constructor|].
    split; [reflexivity|]. split; [rewrite length_drop; lia|].
    intros Hnul Hin. apply Hnul. exact (subseteq_drop 1 pathname _ Hin). }
  destruct Hclean as [->|(cs & c & Hcs & Hc & ->)].
  { exists [], pathname. split; [constructor|].
    split; [reflexivity|]. split; [lia|]. intros ?; assumption. }
  exists (c :: rev cs), pathname.
  split; [constructor; [exact Hc|apply Forall_rev; exact Hcs]|].
  split; [|split; [lia|intros ?; assumption]].
  change ("/" :: joined cs ++ c) with (("/" :: joined cs) ++ c).
  rewrite rev_app_distr. simpl rstate. rewrite rstate_rev.
  destruct Hc as (Hne & Hslash & _).
  destruct (rev c) as [|a l] eqn:E.
  { apply (f_equal (@rev _)) in E. rewrite rev_involutive in E. contradiction. }
  assert (a ≠ "/") as Ha.
  { intros ->. apply Hslash. apply list_elem_of_In, in_rev. rewrite E.
    left; reflexivity. }
  cbn [app]. destruct (Ascii.eqb_spec a "/"); [contradiction|reflexivity].
Qed.

(** The epilogue on an output in shape. *)
Lemma normalize_finish_shape rcs t :
  Forall component rcs → t = [] ∨ t = ["."] ∨ component t →
  normalised (normalize_finish (rev t ++ rstate rcs)).
Proof.
  intros Hrcs [->|Ht].
  - simpl. destruct rcs as [|c rcs]; [left; reflexivity|].
    right. exists (rev rcs), c.
    apply Forall_cons in Hrcs as [Hc Hrcs].
    split; [apply Forall_rev; exact Hrcs|]. split; [right; exact Hc|].
    simpl rstate. unfold normalize_finish.
    destruct (rev c ++ rstate rcs) as [|x l] eqn:E.
    { destruct (rstate_head rcs) as [r' Hr']. rewrite Hr' in E.
      destruct (rev c); discriminate. }
    rewrite Ascii.eqb_refl. rewrite <- E.
    rewrite rev_app_distr, rev_involutive, rev_rstate. reflexivity.
  - right. exists (rev rcs), t.
    split; [apply Forall_rev; exact Hrcs|]. split; [exact Ht|].
    rewrite component_last_not_slash by exact Ht.
    rewrite rev_app_distr, rev_involutive, rev_rstate. reflexivity.
Qed.

(** From a working directory in good shape, an answer that starts with
    ['/'] is normalised. *)
Lemma normalize_path_shape current pathname r :
  clean_dir current → NUL ∉ pathname →
  normalize_path current pathname = Some r → head r = Some "/" →
  normalised r.
Proof.
  intros Hclean Hnul. unfold normalize_path.
  destruct (normalize_start_clean current pathname Hclean)
    as (rcs & p' & Hrcs & -> & _ & Hnul').
  cbn [mbind option_bind].
  destruct (normalize_loop p' (rstate rcs)) as [rout'|] eqn:Hloop;
    cbn [mbind option_bind]; [|discriminate].
  intros [= <-] Hhead.
  pose proof (normalize_finish_rooted _ Hhead) as Hrooted.
  destruct (normalize_loop_rooted (length p') p' rcs rout'
              ltac:(lia) (Hnul' Hnul) Hrcs Hloop Hrooted)
    as (rcs' & t & Hrcs' & Ht & ->).
  apply normalize_finish_shape; assumption.
Qed.

Lemma normalised_head r : normalised r → head r = Some "/".
Proof. intros [->|(cs & t & _ & _ & ->)]; reflexivity. Qed.

Lemma normalised_last r : normalised r → r = ["/"] ∨ last r ≠ Some "/".
Proof.
  intros [->|(cs & t & _ & Ht & ->)]; [left; reflexivity|right].
  change ("/" :: joined cs ++ t) with (("/" :: joined cs) ++ t).
  assert (∃ a l, t = l ++ [a] ∧ a ≠ "/") as (a & l & -> & Ha).
  { destruct Ht as [->|(Hne & Hslash & _)];
      [exists ".", []; split; [reflexivity|discriminate]|].
    destruct (rev t) as [|a l] eqn:E.
    - apply (f_equal (@rev _)) in E. rewrite rev_involutive in E. contradiction.
    - exists a, (rev l). split.
      + rewrite <- (rev_involutive t), E. reflexivity.
      + intros ->. apply Hslash. apply list_elem_of_In, in_rev. rewrite E.
        left; reflexivity. }
  rewrite app_assoc, last_snoc. congruence.
Qed.

(** A normalised path is a fixed point, whatever the directory it is
    resolved from. *)
Lemma normalize_path_fixed current r :
  normalised r → normalize_path current r = Some r.
Proof.
  intros Hnorm.
  transitivity (normalize_path ["/"] r);
    [|apply normalize_path_normalised; exact Hnorm].
  pose proof (normalised_head r Hnorm) as Hhead.
  destruct r as [|a r]; [discriminate|]. injection Hhead as ->.
  reflexivity.
Qed.

(** X1. From a working directory in good shape and a name without NUL, an
    answer of [normalize_path] that starts with ['/'] is in normal form:
    ['/'] followed by components separated by one ['/'] each, none of them
    empty or [".."] and none but the last ["."]; it ends in ['/'] only when
    it is the root. *)
Theorem normalize_path_normal_form current pathname r :
  clean_dir current → NUL ∉ pathname →
  normalize_path current pathname = Some r → head r = Some "/" →
  normalised r ∧ (r = ["/"] ∨ last r ≠ Some "/").
Proof.
  intros Hclean Hnul Hr Hhead.
  pose proof (normalize_path_shape current pathname r Hclean Hnul Hr Hhead)
    as Hnorm.
  split; [exact Hnorm|apply normalised_last; exact Hnorm].
Qed.

(** X2. Normalising is idempotent from any working directory in good
    shape: an answer that starts with ['/'] is left as it is by a second
    pass, from whatever directory that pass starts. *)
Theorem normalize_path_idempotent current current' pathname r :
  clean_dir current → NUL ∉ pathname →
  normalize_path current pathname = Some r → head r = Some "/" →
  normalize_path current' r = Some r.
Proof.
  intros Hclean Hnul Hr Hhead. apply normalize_path_fixed.
  apply (normalize_path_shape current pathname r Hclean Hnul Hr Hhead).
Qed.

(** The end of [sys_chdir] on a normalised path. *)
Lemma strip_trailing_dot_clean r :
  normalised r → clean_dir (strip_trailing_dot r).
Proof.
  intros [->|(cs & t & Hcs & Ht & ->)]; [left; reflexivity|].
  unfold strip_trailing_dot.
  change ("/" :: joined cs ++ t) with (("/" :: joined cs) ++ t).
  rewrite rev_app_distr, <- rstate_rev.
  destruct Ht as [->|Hc].
  - simpl rev. cbn [app].
    destruct (rev cs) as [|c rcs] eqn:E.
    + left. reflexivity.
    + simpl rstate. cbn iota. change (("/" =? "/")%char && ("." =? ".")%char) with true. cbn iota.
      assert (Forall component (c :: rcs)) as Hall
        by (rewrite <- E; apply Forall_rev; exact Hcs).
      apply Forall_cons in Hall as [Hcc Hrcs].
      destruct (rev c ++ rstate rcs) as [|x l] eqn:E2.
      { destruct (rstate_head rcs) as [r' Hr']. rewrite Hr' in E2.
        destruct (rev c); discriminate. }
      rewrite <- E2. right. exists (rev rcs), c.
      split; [apply Forall_rev; exact Hrcs|]. split; [exact Hcc|].
      rewrite rev_app_distr, rev_involutive, rev_rstate. reflexivity.
  - assert (clean_dir (("/" :: joined cs) ++ t)) as Hclean
      by (right; exists cs, t; split; [exact Hcs|split; [exact Hc|reflexivity]]).
    pose proof Hc as (Hne & Hslash & _ & Hdot & _).
    destruct (rev t) as [|a l] eqn:E.
    { apply (f_equal (@rev _)) in E. rewrite rev_involutive in E. contradiction. }
    destruct l as [|b l].
    + destruct (rstate_head (rev cs)) as [r' ->]. cbn [app].
      rewrite Ascii.eqb_refl. cbn [andb].
      destruct (Ascii.eqb_spec a ".") as [->|_]; [|exact Hclean].
      exfalso. apply Hdot. rewrite <- (rev_involutive t), E. reflexivity.
    + cbn [app].
      destruct (Ascii.eqb_spec b "/") as [->|_]; [|exact Hclean].
      exfalso. apply Hslash. apply list_elem_of_In, in_rev. rewrite E.
      right; left; reflexivity.
Qed.

End PathMoreFacts.

(** * Properties of the descriptor calls *)

Section VfsCallsFacts.

Import Vfs VfsCalls.

Context {file : Type} `{EqDecision file} {World : Type}.

#[local] Abbreviation vfs_state := (@vfs_state file World).
#[local] Abbreviation tracked := (@tracked file World).

Variable MAX_FD_COUNT : nat.

Lemma vfs_get_slot (st : vfs_state) fd :
  0 ≤ fd < Z.of_nat MAX_FD_COUNT →
  vfs_get MAX_FD_COUNT fd st = slot st (Z.to_nat fd).
Proof.
  intros Hfd. unfold vfs_get.
  rewrite (proj2 (Z.ltb_ge fd 0)) by lia.
  assert ((fd >=? Z.of_nat MAX_FD_COUNT) = false) as ->
    by (rewrite Z.geb_leb; apply Z.leb_gt; lia).
  reflexivity.
Qed.

Lemma vfs_get_outside (st : vfs_state) fd :
  fd < 0 ∨ Z.of_nat MAX_FD_COUNT ≤ fd → vfs_get MAX_FD_COUNT fd st = None.
Proof.
  intros Hfd. unfold vfs_get.
  destruct (fd <? 0) eqn:E; [reflexivity|]. apply Z.ltb_ge in E.
  assert ((fd >=? Z.of_nat MAX_FD_COUNT) = true) as ->
    by (apply Z.geb_le; lia).
  reflexivity.
Qed.

Lemma cloexec_of_set_slot (st : vfs_state) k x c j :
  (k < length (fds_cloexec st))%nat →
  cloexec_of (set_slot k x c st) j
  = if decide (j = k) then c else cloexec_of st j.
Proof.
  intros Hk. unfold cloexec_of, set_slot; simpl.
  destruct (decide (j = k)) as [->|Hne].
  - rewrite list_lookup_insert_eq by exact Hk. reflexivity.
  - rewrite list_lookup_insert_ne by congruence. reflexivity.
Qed.

Lemma cloexec_of_vfs_release (st : vfs_state) f j :
  cloexec_of (vfs_release f st) j = cloexec_of st j.
Proof.
  unfold cloexec_of. rewrite (proj2 (fds_vfs_release st f)). reflexivity.
Qed.

Lemma table_ok_vfs_release (st : vfs_state) f :
  table_ok MAX_FD_COUNT st → table_ok MAX_FD_COUNT (vfs_release f st).
Proof.
  intros [H1 H2]. destruct (fds_vfs_release st f) as [E1 E2].
  split; congruence.
Qed.

(** [vfs_close] on an occupied slot. *)
Lemma vfs_close_occupied (st : vfs_state) k g :
  (k < MAX_FD_COUNT)%nat → slot st k = Some g →
  vfs_close MAX_FD_COUNT (Z.of_nat k) st
  = Some (set_slot k None 0 (vfs_release g st)).
Proof.
  intros Hk Hs. unfold vfs_close.
  rewrite (proj2 (Z.ltb_ge (Z.of_nat k) 0)) by lia.
  assert ((Z.of_nat k >=? Z.of_nat MAX_FD_COUNT) = false) as ->
    by (rewrite Z.geb_leb; apply Z.leb_gt; lia).
  simpl. rewrite Nat2Z.id, Hs. reflexivity.
Qed.

(** X3. [vfs_store_file] puts the file into the lowest free descriptor,
    where [vfs_get] finds it, with the close-on-exec flag asked for; no
    other descriptor and no reference count changes.  With no free
    descriptor it answers [-EMFILE] and changes nothing. *)
Theorem vfs_store_file_get (st : vfs_state) f c fd st' :
  table_ok MAX_FD_COUNT st →
  vfs_store_file MAX_FD_COUNT f c st = (fd, st') →
  (0 ≤ fd →
     vfs_get MAX_FD_COUNT fd st = None
     ∧ (∀ fd', 0 ≤ fd' < fd → vfs_get MAX_FD_COUNT fd' st ≠ None)
     ∧ vfs_get MAX_FD_COUNT fd st' = Some f
     ∧ cloexec_of st' (Z.to_nat fd) = c
     ∧ (∀ fd', fd' ≠ fd →
          vfs_get MAX_FD_COUNT fd' st' = vfs_get MAX_FD_COUNT fd' st)
     ∧ f_ref st' = f_ref st ∧ closed st' = closed st)
  ∧ (fd < 0 →
     fd = - EMFILE ∧ st' = st
     ∧ ∀ fd', 0 ≤ fd' < Z.of_nat MAX_FD_COUNT →
              vfs_get MAX_FD_COUNT fd' st ≠ None).
Proof.
  intros Hok. unfold vfs_store_file.
  destruct (first_empty st 0 MAX_FD_COUNT) as [k|] eqn:E.
  - intros [= <- <-].
    apply first_empty_Some in E as (Hr & Hk & Hbefore).
    destruct Hok as [Hlen Hlenc].
    split; [intros _|intros; lia].
    rewrite Nat2Z.id.
    split; [rewrite vfs_get_slot by lia; rewrite Nat2Z.id; exact Hk|].
    split.
    { intros fd' Hfd'. rewrite vfs_get_slot by lia.
      apply Hbefore. lia. }
    split.
    { rewrite vfs_get_slot by lia. rewrite Nat2Z.id.
      rewrite slot_set_slot by lia. apply decide_True; reflexivity. }
    split.
    { rewrite cloexec_of_set_slot by lia. apply decide_True; reflexivity. }
    split; [|split; reflexivity].
    intros fd' Hne.
    destruct (decide (0 ≤ fd' < Z.of_nat MAX_FD_COUNT)) as [Hin|Hout].
    + rewrite !vfs_get_slot by lia. rewrite slot_set_slot by lia.
      apply decide_False. intros Heq. apply Hne. lia.
    + rewrite !vfs_get_outside by lia. reflexivity.
  - intros [= <- <-]. split; [unfold EMFILE; intros; lia|].
    intros _. split; [reflexivity|]. split; [reflexivity|].
    intros fd' Hfd'. rewrite vfs_get_slot by lia.
    apply (first_empty_None _ _ _ E). lia.
Qed.

Lemma vfs_get_Some_range (st : vfs_state) fd f :
  vfs_get MAX_FD_COUNT fd st = Some f → 0 ≤ fd < Z.of_nat MAX_FD_COUNT.
Proof.
  intros Hget.
  destruct (decide (0 ≤ fd < Z.of_nat MAX_FD_COUNT)) as [?|Hout]; [assumption|].
  rewrite vfs_get_outside in Hget by lia. discriminate.
Qed.

(** X4. [sys_close] of an open descriptor answers 0, empties the slot and
    clears its close-on-exec flag, leaves the other descriptors alone and
    gives up one reference of the file, whose [close] operation is called
    when that was the last one.  Closing the descriptor a second time
    answers [-EBADF]. *)
Theorem sys_close_releases (st : vfs_state) fd f :
  table_ok MAX_FD_COUNT st →
  vfs_get MAX_FD_COUNT fd st = Some f →
  ∃ st', sys_close MAX_FD_COUNT fd st = Some (0, st')
         ∧ vfs_get MAX_FD_COUNT fd st' = None
         ∧ cloexec_of st' (Z.to_nat fd) = 0
         ∧ (∀ fd', fd' ≠ fd →
              vfs_get MAX_FD_COUNT fd' st' = vfs_get MAX_FD_COUNT fd' st)
         ∧ (∀ g, f_ref st' g
                 = if decide (g = f) then f_ref st f - 1 else f_ref st g)
         ∧ closed st'
           = (if f_ref st f - 1 =? 0 then f :: closed st else closed st)
         ∧ sys_close MAX_FD_COUNT fd st' = Some (- EBADF, st').
Proof.
  intros Hok Hget.
  pose proof (vfs_get_Some_range _ _ _ Hget) as Hfd.
  rewrite vfs_get_slot in Hget by exact Hfd.
  assert ((fd <? 0) || (fd >=? Z.of_nat MAX_FD_COUNT) = false) as Hin.
  { rewrite (proj2 (Z.ltb_ge fd 0)) by lia.
    rewrite Z.geb_leb. apply Z.leb_gt. lia. }
  pose proof (vfs_close_occupied st (Z.to_nat fd) f ltac:(lia) Hget) as Hcl.
  rewrite Z2Nat.id in Hcl by lia.
  exists (set_slot (Z.to_nat fd) None 0 (vfs_release f st)).
  split; [unfold sys_close; rewrite Hin, Hget, Hcl; reflexivity|].
  destruct Hok as [Hlen Hlenc].
  destruct (fds_vfs_release st f) as [Efds Ecl].
  assert (slot (set_slot (Z.to_nat fd) None 0 (vfs_release f st)) (Z.to_nat fd)
          = None) as Hnow.
  { rewrite slot_set_slot by (rewrite Efds; lia).
    apply decide_True; reflexivity. }
  split; [rewrite vfs_get_slot by lia; exact Hnow|].
  split.
  { rewrite cloexec_of_set_slot by (rewrite Ecl; lia).
    apply decide_True; reflexivity. }
  split.
  { intros fd' Hne.
    destruct (decide (0 ≤ fd' < Z.of_nat MAX_FD_COUNT)) as [Hin'|Hout].
    - rewrite !vfs_get_slot by lia.
      rewrite slot_set_slot by (rewrite Efds; lia).
      rewrite decide_False by (intros Heq; apply Hne; lia).
      apply slot_vfs_release.
    - rewrite !vfs_get_outside by lia. reflexivity. }
  split; [intros g; apply f_ref_vfs_release|].
  split; [apply closed_vfs_release|].
  unfold sys_close. rewrite Hin, Hnow. reflexivity.
Qed.

(** What closing slot [i] does to the table. *)
Lemma close_slot_table (st : vfs_state) i g :
  table_ok MAX_FD_COUNT st → (i < MAX_FD_COUNT)%nat →
  let st1 := set_slot i None 0 (vfs_release g st) in
  table_ok MAX_FD_COUNT st1
  ∧ umask st1 = umask st ∧ cwd st1 = cwd st ∧ fs_first st1 = fs_first st
  ∧ (∀ j, slot st1 j = if decide (j = i) then None else slot st j)
  ∧ (∀ j, cloexec_of st1 j = if decide (j = i) then 0 else cloexec_of st j).
Proof.
  intros Hok Hi st1. pose proof Hok as [Hlen Hlenc].
  destruct (fds_vfs_release st g) as [Efds Ecl].
  split; [apply table_ok_set_slot, table_ok_vfs_release; exact Hok|].
  unfold st1.
  split; [unfold vfs_release; simpl; case_match; reflexivity|].
  split; [unfold vfs_release; simpl; case_match; reflexivity|].
  split; [unfold vfs_release; simpl; case_match; reflexivity|].
  split; intros j.
  - rewrite slot_set_slot by (rewrite Efds; lia).
    case_decide; [reflexivity|apply slot_vfs_release].
  - rewrite cloexec_of_set_slot by (rewrite Ecl; lia).
    case_decide; [reflexivity|apply cloexec_of_vfs_release].
Qed.

(** The loop of [vfs_reset]. *)
Lemma vfs_reset_loop_spec (n i : nat) (st : vfs_state) :
  table_ok MAX_FD_COUNT st → (i + n ≤ MAX_FD_COUNT)%nat →
  ∃ st', vfs_reset_loop MAX_FD_COUNT i n st = Some st'
         ∧ table_ok MAX_FD_COUNT st'
         ∧ umask st' = umask st ∧ cwd st' = cwd st
         ∧ fs_first st' = fs_first st
         ∧ (∀ j, slot st' j
                 = if decide ((i ≤ j < i + n)%nat ∧ cloexec_of st j ≠ 0)
                   then None else slot st j)
         ∧ (∀ j, cloexec_of st' j
                 = if decide ((i ≤ j < i + n)%nat ∧ slot st j ≠ None)
                   then 0 else cloexec_of st j).
Proof.
  revert i st; induction n as [|n IH]; intros i st Hok Hin; simpl.
  { exists st. split; [reflexivity|]. split; [exact Hok|].
    repeat (split; [reflexivity|]).
    split; intros j; rewrite decide_False by lia; reflexivity. }
  assert (∃ st1,
    match slot st i with
    | Some _ =>
        if cloexec_of st i =? 0 then Some st
        else vfs_close MAX_FD_COUNT (Z.of_nat i) st
    | None => Some st
    end = Some st1
    ∧ table_ok MAX_FD_COUNT st1
    ∧ umask st1 = umask st ∧ cwd st1 = cwd st ∧ fs_first st1 = fs_first st
    ∧ (∀ j, slot st1 j
            = if decide (j = i ∧ cloexec_of st i ≠ 0) then None else slot st j)
    ∧ (∀ j, cloexec_of st1 j
            = if decide (j = i ∧ slot st i ≠ None) then 0 else cloexec_of st j))
    as (st1 & -> & Hok1 & Hu & Hc & Hf & Hs1 & Hc1).
  { destruct (slot st i) as [g|] eqn:Hs.
    - destruct (Z.eqb_spec (cloexec_of st i) 0) as [Hz|Hnz].
      + exists st. split; [reflexivity|]. split; [exact Hok|].
        repeat (split; [reflexivity|]).
        split; intros j; destruct (decide _) as [[-> Hd]|Hd];
          first [reflexivity | contradiction | congruence].
      + rewrite (vfs_close_occupied st i g) by (lia || exact Hs).
        eexists; split; [reflexivity|].
        destruct (close_slot_table st i g Hok ltac:(lia))
          as (Hok1 & Hu & Hc & Hf & Hs1 & Hc1).
        split; [exact Hok1|]. repeat (split; [assumption|]).
        split; intros j; [rewrite Hs1|rewrite Hc1];
          destruct (decide (j = i)) as [->|Hji].
        * rewrite decide_True by (split; [reflexivity|exact Hnz]). reflexivity.
        * rewrite decide_False by (intros [? _]; contradiction). reflexivity.
        * rewrite decide_True by (split; [reflexivity|congruence]). reflexivity.
        * rewrite decide_False by (intros [? _]; contradiction). reflexivity.
    - exists st. split; [reflexivity|]. split; [exact Hok|].
      repeat (split; [reflexivity|]).
      split; intros j; destruct (decide _) as [[-> Hd]|Hd];
        first [reflexivity | contradiction | congruence]. }
  simpl.
  destruct (IH (S i) st1 Hok1 ltac:(lia))
    as (st' & -> & Hok' & Hu' & Hc' & Hf' & Hs' & Hcl').
  exists st'. split; [reflexivity|]. split; [exact Hok'|].
  split; [congruence|]. split; [congruence|]. split; [congruence|].
  split; intros j.
  - rewrite Hs', Hs1, Hc1.
    destruct (decide (j = i)) as [->|Hji].
    + rewrite (decide_False (P := (S i ≤ i < S i + n)%nat ∧ _))
        by (intros [? _]; lia).
      destruct (decide (cloexec_of st i = 0)) as [Hz|Hnz].
      * rewrite !decide_False by (intros [_ ?]; contradiction). reflexivity.
      * rewrite !decide_True by (split; [first [reflexivity|lia]|exact Hnz]).
        reflexivity.
    + rewrite (decide_False (P := j = i ∧ slot st i ≠ None))
        by (intros [? _]; contradiction).
      rewrite (decide_False (P := j = i ∧ cloexec_of st i ≠ 0))
        by (intros [? _]; contradiction).
      destruct (decide ((S i ≤ j < S i + n)%nat ∧ cloexec_of st j ≠ 0))
        as [[Hr Hd]|Hd].
      * rewrite decide_True by (split; [lia|exact Hd]). reflexivity.
      * rewrite decide_False by (intros [? ?]; apply Hd; split; [lia|assumption]).
        reflexivity.
  - rewrite Hcl', Hc1, Hs1.
    destruct (decide (j = i)) as [->|Hji].
    + rewrite (decide_False (P := (S i ≤ i < S i + n)%nat ∧ _))
        by (intros [? _]; lia).
      destruct (slot st i) as [g|] eqn:Hs.
      * rewrite !decide_True by (split; [first [reflexivity|lia]|discriminate]).
        reflexivity.
      * rewrite !decide_False by (intros [_ ?]; contradiction). reflexivity.
    + rewrite (decide_False (P := j = i ∧ slot st i ≠ None))
        by (intros [? _]; contradiction).
      rewrite (decide_False (P := j = i ∧ cloexec_of st i ≠ 0))
        by (intros [? _]; contradiction).
      destruct (decide ((S i ≤ j < S i + n)%nat ∧ slot st j ≠ None))
        as [[Hr Hd]|Hd].
      * rewrite decide_True by (split; [lia|exact Hd]). reflexivity.
      * rewrite decide_False by (intros [? ?]; apply Hd; split; [lia|assumption]).
        reflexivity.
Qed.

(** X5. [vfs_reset] always returns and sets the umask to 022; a
    descriptor stays open exactly when its close-on-exec flag was clear,
    so that no descriptor left open carries the flag; the working directory
    is kept. *)
Theorem vfs_reset_closes_cloexec (st : vfs_state) :
  table_ok MAX_FD_COUNT st →
  ∃ st', vfs_reset MAX_FD_COUNT st = Some st'
         ∧ table_ok MAX_FD_COUNT st'
         ∧ umask st' = 18 ∧ cwd st' = cwd st
         ∧ ∀ fd, 0 ≤ fd < Z.of_nat MAX_FD_COUNT →
             vfs_get MAX_FD_COUNT fd st'
             = (if cloexec_of st (Z.to_nat fd) =? 0
                then vfs_get MAX_FD_COUNT fd st else None)
             ∧ (vfs_get MAX_FD_COUNT fd st' ≠ None →
                cloexec_of st' (Z.to_nat fd) = 0).
Proof.
  intros Hok. unfold vfs_reset.
  destruct (vfs_reset_loop_spec MAX_FD_COUNT 0 st Hok ltac:(lia))
    as (st' & -> & Hok' & Hu & Hc & Hf & Hs & Hcl).
  eexists; split; [reflexivity|].
  split; [exact Hok'|]. split; [reflexivity|]. split; [exact Hc|].
  intros fd Hfd. rewrite !vfs_get_slot by lia.
  change (slot (set_umask ?m ?s)) with (slot s).
  change (cloexec_of (set_umask ?m ?s)) with (cloexec_of s).
  rewrite Hs, Hcl.
  destruct (Z.eqb_spec (cloexec_of st (Z.to_nat fd)) 0) as [Hz|Hnz].
  - rewrite decide_False by (intros [_ ?]; contradiction).
    split; [reflexivity|]. intros Hopen.
    rewrite decide_True by (split; [lia|exact Hopen]). reflexivity.
  - rewrite decide_True by (split; [lia|exact Hnz]).
    split; [reflexivity|]. intros Hopen; contradiction.
Qed.

Lemma vfs_reset_loop_accounted (n i : nat) (t : tracked) f st' :
  accounted MAX_FD_COUNT f t →
  vfs_reset_loop MAX_FD_COUNT i n (tk_state t) = Some st' →
  accounted MAX_FD_COUNT f {| tk_state := st'; tk_borrows := tk_borrows t |}.
Proof.
  revert i t; induction n as [|n IH]; intros i t Hacc; simpl.
  { intros [= <-]. destruct t; exact Hacc. }
  destruct (match slot (tk_state t) i with
            | Some _ =>
                if cloexec_of (tk_state t) i =? 0 then Some (tk_state t)
                else vfs_close MAX_FD_COUNT (Z.of_nat i) (tk_state t)
            | None => Some (tk_state t)
            end) as [st1|] eqn:Hstep; simpl; [|discriminate].
  intros Hloop.
  apply (IH (S i) {| tk_state := st1; tk_borrows := tk_borrows t |});
    [|exact Hloop].
  destruct (slot (tk_state t) i) as [g|].
  - destruct (cloexec_of (tk_state t) i =? 0).
    + injection Hstep as <-. destruct t; exact Hacc.
    + apply (vfs_close_accounted MAX_FD_COUNT t f _ st1 Hacc Hstep).
  - injection Hstep as <-. destruct t; exact Hacc.
Qed.

(** The loop of [vfs_shutdown]. *)
Lemma vfs_shutdown_loop_spec (n i : nat) (st : vfs_state) :
  table_ok MAX_FD_COUNT st → (i + n ≤ MAX_FD_COUNT)%nat →
  ∃ st', vfs_shutdown_loop MAX_FD_COUNT i n st = Some st'
         ∧ table_ok MAX_FD_COUNT st'
         ∧ ∀ j, slot st' j
                = if decide (i ≤ j < i + n)%nat then None else slot st j.
Proof.
  revert i st; induction n as [|n IH]; intros i st Hok Hin; simpl.
  { exists st. split; [reflexivity|]. split; [exact Hok|].
    intros j; rewrite decide_False by lia; reflexivity. }
  assert (∃ st1,
    match slot st i with
    | Some _ => vfs_close MAX_FD_COUNT (Z.of_nat i) st
    | None => Some st
    end = Some st1
    ∧ table_ok MAX_FD_COUNT st1
    ∧ ∀ j, slot st1 j = if decide (j = i) then None else slot st j)
    as (st1 & -> & Hok1 & Hs1).
  { destruct (slot st i) as [g|] eqn:Hs.
    - rewrite (vfs_close_occupied st i g) by (lia || exact Hs).
      eexists; split; [reflexivity|].
      destruct (close_slot_table st i g Hok ltac:(lia))
        as (Hok1 & _ & _ & _ & Hs1 & _).
      split; assumption.
    - exists st. split; [reflexivity|]. split; [exact Hok|].
      intros j. destruct (decide (j = i)) as [->|]; [exact Hs|reflexivity]. }
  simpl.
  destruct (IH (S i) st1 Hok1 ltac:(lia)) as (st' & -> & Hok' & Hs').
  exists st'. split; [reflexivity|]. split; [exact Hok'|].
  intros j. rewrite Hs', Hs1.
  repeat (destruct (decide _)); first [reflexivity | lia].
Qed.

Lemma vfs_shutdown_loop_accounted (n i : nat) (t : tracked) f st' :
  accounted MAX_FD_COUNT f t →
  vfs_shutdown_loop MAX_FD_COUNT i n (tk_state t) = Some st' →
  accounted MAX_FD_COUNT f {| tk_state := st'; tk_borrows := tk_borrows t |}.
Proof.
  revert i t; induction n as [|n IH]; intros i t Hacc; simpl.
  { intros [= <-]. destruct t; exact Hacc. }
  destruct (match slot (tk_state t) i with
            | Some _ => vfs_close MAX_FD_COUNT (Z.of_nat i) (tk_state t)
            | None => Some (tk_state t)
            end) as [st1|] eqn:Hstep; simpl; [|discriminate].
  intros Hloop.
  apply (IH (S i) {| tk_state := st1; tk_borrows := tk_borrows t |});
    [|exact Hloop].
  destruct (slot (tk_state t) i) as [g|].
  - apply (vfs_close_accounted MAX_FD_COUNT t f _ st1 Hacc Hstep).
  - injection Hstep as <-. destruct t; exact Hacc.
Qed.

Lemma slots_holding_empty (st : vfs_state) f :
  (∀ j, (j < length (fds st))%nat → slot st j = None) →
  slots_holding f st = 0%nat.
Proof.
  intros Hempty. unfold slots_holding.
  destruct (filter (λ s, s = Some f) (fds st)) as [|x l] eqn:E; [reflexivity|].
  assert (x ∈ filter (λ s, s = Some f) (fds st)) as Hin by (rewrite E; left).
  apply list_elem_of_filter in Hin as [-> Hin].
  apply list_elem_of_lookup in Hin as [j Hj].
  specialize (Hempty j (lookup_lt_Some _ _ _ Hj)).
  unfold slot in Hempty. rewrite Hj in Hempty. discriminate.
Qed.

(** X6. [vfs_reset] keeps the books of every file: its count is still
    the number of slots that hold it plus the references lent out, and it
    is either in use or has had its [close] called exactly once. *)
Theorem vfs_reset_accounted (t : tracked) f st' :
  accounted MAX_FD_COUNT f t →
  vfs_reset MAX_FD_COUNT (tk_state t) = Some st' →
  accounted MAX_FD_COUNT f {| tk_state := st'; tk_borrows := tk_borrows t |}.
Proof.
  intros Hacc. unfold vfs_reset.
  destruct (vfs_reset_loop MAX_FD_COUNT 0 MAX_FD_COUNT (tk_state t))
    as [st1|] eqn:Hloop; simpl; [|discriminate].
  intros [= <-].
  apply (vfs_reset_loop_accounted _ _ t f st1 Hacc) in Hloop.
  exact Hloop.
Qed.

(** X7. [vfs_shutdown] always returns, leaves no descriptor open and
    keeps the books: the count of a file is then the number of references
    lent out, and a file in use of which no reference is lent out has had
    its [close] called exactly once. *)
Theorem vfs_shutdown_releases_all (t : tracked) f :
  accounted MAX_FD_COUNT f t →
  ∃ st', vfs_shutdown MAX_FD_COUNT (tk_state t) = Some st'
         ∧ (∀ fd, vfs_get MAX_FD_COUNT fd st' = None)
         ∧ accounted MAX_FD_COUNT f
             {| tk_state := st'; tk_borrows := tk_borrows t |}
         ∧ f_ref st' f = tk_borrows t f
         ∧ (live f (tk_state t) → tk_borrows t f = 0 → destroyed f st').
Proof.
  intros Hacc. pose proof Hacc as (Hok & _ & _).
  unfold vfs_shutdown.
  destruct (vfs_shutdown_loop_spec MAX_FD_COUNT 0 (tk_state t) Hok ltac:(lia))
    as (st' & Hloop & Hok' & Hs).
  exists st'. split; [exact Hloop|].
  assert (∀ j, (j < MAX_FD_COUNT)%nat → slot st' j = None) as Hempty.
  { intros j Hj. rewrite Hs. apply decide_True. lia. }
  split.
  { intros fd.
    destruct (decide (0 ≤ fd < Z.of_nat MAX_FD_COUNT)) as [Hin|Hout].
    - rewrite vfs_get_slot by lia. apply Hempty. lia.
    - apply vfs_get_outside. lia. }
  pose proof (vfs_shutdown_loop_accounted _ _ t f st' Hacc Hloop) as Hacc'.
  split; [exact Hacc'|].
  destruct Hacc' as (_ & [Hinv' _] & Hstate'). simpl in *.
  rewrite slots_holding_empty in Hinv'
    by (intros j Hj; apply Hempty; destruct Hok' as [<- _]; exact Hj).
  split; [lia|].
  intros _ Hnone.
  destruct Hstate' as [[Hpos _]|Hd]; [lia|exact Hd].
Qed.


Variable MAX_SYMLINK_LEVEL : nat.
Variable f_flags : file → Z.

Lemma table_ok_set_cloexec (st : vfs_state) k c :
  table_ok MAX_FD_COUNT st → table_ok MAX_FD_COUNT (set_cloexec k c st).
Proof.
  intros [Hl Hc]. split; [exact Hl|]. simpl. rewrite length_insert. exact Hc.
Qed.

Lemma cloexec_of_set_cloexec (st : vfs_state) k c j :
  (k < length (fds_cloexec st))%nat →
  cloexec_of (set_cloexec k c st) j
  = if decide (j = k) then c else cloexec_of st j.
Proof.
  intros Hk. unfold cloexec_of. simpl.
  destruct (decide (j = k)) as [->|Hne].
  - rewrite list_lookup_insert_eq by exact Hk. reflexivity.
  - rewrite list_lookup_insert_ne by congruence. reflexivity.
Qed.

(** X8. On an open descriptor [fcntl(F_SETFD)] answers 0 and stores bit
    [FD_CLOEXEC] of its argument, which [fcntl(F_GETFD)] reads back; the
    table, the counts and the flags of the other descriptors are as
    before.  [vfs_reset] then closes the descriptor exactly when the bit
    was set. *)
Theorem fcntl_setfd_getfd (st : vfs_state) fd arg f :
  table_ok MAX_FD_COUNT st →
  vfs_get MAX_FD_COUNT fd st = Some f →
  ∃ st1,
    sys_fcntl MAX_FD_COUNT f_flags fd F_SETFD arg st = Some (0, st1)
    ∧ (∀ arg', sys_fcntl MAX_FD_COUNT f_flags fd F_GETFD arg' st1
               = Some (if Z.land arg FD_CLOEXEC =? 0 then 0 else FD_CLOEXEC,
                       st1))
    ∧ fds st1 = fds st ∧ f_ref st1 = f_ref st ∧ closed st1 = closed st
    ∧ (∀ j, j ≠ Z.to_nat fd → cloexec_of st1 j = cloexec_of st j)
    ∧ ∃ st2, vfs_reset MAX_FD_COUNT st1 = Some st2
             ∧ vfs_get MAX_FD_COUNT fd st2
               = if Z.land arg FD_CLOEXEC =? 0 then Some f else None.
Proof.
  intros Hok Hget.
  pose proof (vfs_get_Some_range _ _ _ Hget) as Hr.
  rewrite vfs_get_slot in Hget by exact Hr.
  assert ((fd <? 0) || (fd >=? Z.of_nat MAX_FD_COUNT) = false) as Hin.
  { apply orb_false_intro; [apply Z.ltb_ge; lia|].
    rewrite Z.geb_leb. apply Z.leb_gt; lia. }
  pose proof Hok as [Hlen Hlenc].
  set (c := if Z.land arg FD_CLOEXEC =? 0 then 0 else 1).
  exists (set_cloexec (Z.to_nat fd) c st).
  split.
  { unfold sys_fcntl. rewrite Hin, Hget. reflexivity. }
  split.
  { intros arg'. unfold sys_fcntl. rewrite Hin.
    change (slot (set_cloexec (Z.to_nat fd) c st) (Z.to_nat fd))
      with (slot st (Z.to_nat fd)).
    rewrite Hget. cbn [Z.eqb F_GETFD F_DUPFD].
    rewrite cloexec_of_set_cloexec by lia.
    rewrite decide_True by reflexivity.
    subst c. destruct (Z.land arg FD_CLOEXEC =? 0); reflexivity. }
  split; [reflexivity|]. split; [reflexivity|]. split; [reflexivity|].
  split.
  { intros j Hj. rewrite cloexec_of_set_cloexec by lia.
    apply decide_False. exact Hj. }
  destruct (vfs_reset_loop_spec MAX_FD_COUNT 0
              (set_cloexec (Z.to_nat fd) c st)
              (table_ok_set_cloexec _ _ _ Hok) ltac:(lia))
    as (st2 & Hloop & Hok2 & _ & _ & _ & Hslots & _).
  exists (set_umask (Z.lor S_IWGRP S_IWOTH) st2).
  split; [unfold vfs_reset; rewrite Hloop; reflexivity|].
  rewrite vfs_get_slot by exact Hr.
  change (slot (set_umask (Z.lor S_IWGRP S_IWOTH) st2) (Z.to_nat fd))
    with (slot st2 (Z.to_nat fd)).
  rewrite Hslots. rewrite cloexec_of_set_cloexec by lia.
  rewrite (decide_True (P := Z.to_nat fd = Z.to_nat fd)) by reflexivity.
  change (slot (set_cloexec (Z.to_nat fd) c st) (Z.to_nat fd))
    with (slot st (Z.to_nat fd)).
  subst c. destruct (Z.land arg FD_CLOEXEC =? 0).
  - rewrite decide_False by (intros [_ ?]; congruence). exact Hget.
  - rewrite decide_True by (split; [lia|discriminate]). reflexivity.
Qed.


Variable pipe_alloc : Z → vfs_state → Z * file * file * vfs_state.

(** [vfs_store_file] by cases, on the slots. *)
Lemma vfs_store_file_cases (st : vfs_state) f c :
  table_ok MAX_FD_COUNT st →
  (∃ k, (k < MAX_FD_COUNT)%nat ∧ slot st k = None
        ∧ (∀ j, (j < k)%nat → slot st j ≠ None)
        ∧ vfs_store_file MAX_FD_COUNT f c st
          = (Z.of_nat k, set_slot k (Some f) c st))
  ∨ ((∀ j, (j < MAX_FD_COUNT)%nat → slot st j ≠ None)
     ∧ vfs_store_file MAX_FD_COUNT f c st = (- EMFILE, st)).
Proof.
  intros Hok. unfold vfs_store_file.
  destruct (first_empty st 0 MAX_FD_COUNT) as [k|] eqn:E.
  - left. exists k. apply first_empty_Some in E as (Hr & Hk & Hbefore).
    split; [lia|]. split; [exact Hk|]. split; [|reflexivity].
    intros j Hj. apply Hbefore. lia.
  - right. split; [|reflexivity].
    intros j Hj. apply (first_empty_None _ _ _ E). lia.
Qed.

(** X9. A call of [pipe2] that answers 0 has stored the read end in the
    lowest free descriptor and the write end in the next free one, both
    with the close-on-exec flag that [O_CLOEXEC] asks for; the other
    descriptors, and the counts as [pipe_alloc] left them, are as
    before. *)
Theorem sys_pipe2_success (st : vfs_state) flags r fread fwrite st1 out st' :
  table_ok MAX_FD_COUNT st →
  pipe_alloc_keeps_table MAX_FD_COUNT pipe_alloc →
  pipe_alloc flags st = (r, fread, fwrite, st1) →
  sys_pipe2 MAX_FD_COUNT pipe_alloc true flags st = Some (0, out, st') →
  ∃ rfd wfd,
    out = Some (rfd, wfd) ∧ 0 ≤ rfd < wfd
    ∧ vfs_get MAX_FD_COUNT rfd st = None
    ∧ vfs_get MAX_FD_COUNT wfd st = None
    ∧ (∀ fd, 0 ≤ fd < wfd → fd ≠ rfd → vfs_get MAX_FD_COUNT fd st ≠ None)
    ∧ vfs_get MAX_FD_COUNT rfd st' = Some fread
    ∧ vfs_get MAX_FD_COUNT wfd st' = Some fwrite
    ∧ (∀ fd, fd ≠ rfd → fd ≠ wfd →
         vfs_get MAX_FD_COUNT fd st' = vfs_get MAX_FD_COUNT fd st)
    ∧ cloexec_of st' (Z.to_nat rfd)
      = (if Z.land flags O_CLOEXEC >? 0 then 1 else 0)
    ∧ cloexec_of st' (Z.to_nat wfd)
      = (if Z.land flags O_CLOEXEC >? 0 then 1 else 0)
    ∧ f_ref st' = f_ref st1 ∧ closed st' = closed st1.
Proof.
  intros Hok Hkeeps Halloc. unfold sys_pipe2.
  destruct (negb (Z.land flags O_DIRECT =? 0)
            || negb (Z.land flags O_NONBLOCK =? 0));
    [intros [= Hneg]; discriminate Hneg|].
  cbn [negb]. rewrite Halloc.
  destruct (Hkeeps flags st Hok) as [Hfds Hok1]. rewrite Halloc in Hfds, Hok1.
  simpl in Hfds, Hok1.
  assert (∀ j, slot st1 j = slot st j) as Hslot1
    by (intros j; unfold slot; rewrite Hfds; reflexivity).
  destruct (r <? 0) eqn:Hr;
    [intros [= -> _ _]; apply Z.ltb_lt in Hr; lia|].
  set (c := if Z.land flags O_CLOEXEC >? 0 then 1 else 0).
  destruct (vfs_store_file_cases st1 fread c Hok1)
    as [(k & Hk & Hfree & Hbefore & ->)|(_ & ->)];
    [|intros [= Hneg]; discriminate Hneg].
  destruct (Z.of_nat k <? 0) eqn:Hkneg; [apply Z.ltb_lt in Hkneg; lia|].
  pose proof (table_ok_set_slot MAX_FD_COUNT st1 k (Some fread) c Hok1) as Hok2.
  destruct (vfs_store_file_cases (set_slot k (Some fread) c st1) fwrite c Hok2)
    as [(m & Hm & Hfreem & Hbeforem & ->)|(_ & ->)].
  2:{ cbn [Z.ltb Z.compare EMFILE Z.opp].
      destruct (vfs_close _ _ _); cbn [mbind option_bind];
        intros [= Hneg]; discriminate Hneg. }
  destruct (Z.of_nat m <? 0) eqn:Hmneg; [apply Z.ltb_lt in Hmneg; lia|].
  intros [= <- <-].
  destruct Hok1 as [Hlen1 Hlenc1]. pose proof Hok2 as [Hlen2 Hlenc2].
  rewrite slot_set_slot in Hfreem by lia.
  assert (m ≠ k) as Hmk.
  { intros ->. rewrite decide_True in Hfreem by reflexivity. discriminate. }
  rewrite decide_False in Hfreem by exact Hmk.
  assert (k < m)%nat as Hlt.
  { destruct (decide (m < k)%nat) as [Hlt|]; [|lia].
    exfalso. apply (Hbefore m Hlt). exact Hfreem. }
  exists (Z.of_nat k), (Z.of_nat m).
  split; [reflexivity|]. split; [lia|].
  rewrite !Nat2Z.id.
  split; [rewrite vfs_get_slot, Nat2Z.id, <- Hslot1 by lia; exact Hfree|].
  split; [rewrite vfs_get_slot, Nat2Z.id, <- Hslot1 by lia; exact Hfreem|].
  split.
  { intros fd Hfd Hne. rewrite vfs_get_slot, <- Hslot1 by lia.
    specialize (Hbeforem (Z.to_nat fd) ltac:(lia)).
    rewrite slot_set_slot in Hbeforem by lia.
    rewrite decide_False in Hbeforem by lia. exact Hbeforem. }
  split.
  { rewrite vfs_get_slot, Nat2Z.id by lia.
    rewrite !slot_set_slot by lia.
    rewrite decide_False by lia. apply decide_True; reflexivity. }
  split.
  { rewrite vfs_get_slot, Nat2Z.id by lia.
    rewrite !slot_set_slot by lia. apply decide_True; reflexivity. }
  split.
  { intros fd Hner Hnew.
    destruct (decide (0 ≤ fd < Z.of_nat MAX_FD_COUNT)) as [Hin|Hout].
    - rewrite !vfs_get_slot by lia. rewrite !slot_set_slot by lia.
      rewrite !decide_False by lia. apply Hslot1.
    - rewrite !vfs_get_outside by lia. reflexivity. }
  split.
  { rewrite !cloexec_of_set_slot by lia.
    rewrite decide_False by lia. apply decide_True; reflexivity. }
  split.
  { rewrite !cloexec_of_set_slot by lia. apply decide_True; reflexivity. }
  split; reflexivity.
Qed.


#[local] Abbreviation file_system := (@file_system file World).

(** [sys_open] by cases. *)
Lemma sys_open_cases (st : vfs_state) pathname flags mode target w fd st' w' :
  table_ok MAX_FD_COUNT st →
  sys_open MAX_FD_COUNT MAX_SYMLINK_LEVEL true pathname flags mode target st w
  = Some (fd, st', w') →
  ∃ res,
    vfs_open MAX_SYMLINK_LEVEL st pathname flags mode target w = Some res
    ∧ w' = vo_world res
    ∧ ((vo_ret res < 0 ∧ fd = vo_ret res ∧ st' = st)
       ∨ (0 ≤ vo_ret res ∧ ∃ f, vo_file res = Some f ∧
            ((fd = - EMFILE ∧ st' = vfs_release f st
              ∧ ∀ j, (j < MAX_FD_COUNT)%nat → slot st j ≠ None)
             ∨ (∃ k, fd = Z.of_nat k ∧ (k < MAX_FD_COUNT)%nat
                     ∧ slot st k = None
                     ∧ (∀ j, (j < k)%nat → slot st j ≠ None)
                     ∧ st' = set_slot k (Some f)
                               (if Z.land flags O_CLOEXEC >? 0 then 1 else 0)
                               st)))).
Proof.
  intros Hok. unfold sys_open. cbn [negb].
  destruct (vfs_open MAX_SYMLINK_LEVEL st pathname flags mode target w)
    as [res|]; cbn [mbind option_bind]; [|discriminate].
  destruct (vo_ret res <? 0) eqn:Hret.
  { intros [= <- <- <-]. exists res. apply Z.ltb_lt in Hret.
    split; [reflexivity|]. split; [reflexivity|]. left. auto. }
  apply Z.ltb_ge in Hret.
  destruct (vo_file res) as [f|] eqn:Hf; cbn [mbind option_bind];
    [|discriminate].
  set (c := if Z.land flags O_CLOEXEC >? 0 then 1 else 0).
  destruct (vfs_store_file_cases st f c Hok)
    as [(k & Hk & Hfree & Hbefore & ->)|(Hfull & ->)].
  - destruct (Z.of_nat k <? 0) eqn:Hkneg; [apply Z.ltb_lt in Hkneg; lia|].
    intros [= <- <- <-]. exists res.
    split; [reflexivity|]. split; [reflexivity|]. right.
    split; [exact Hret|]. exists f. split; [exact Hf|]. right.
    exists k. auto.
  - cbn [Z.ltb Z.compare EMFILE Z.opp].
    intros [= <- <- <-]. exists res.
    split; [reflexivity|]. split; [reflexivity|]. right.
    split; [exact Hret|]. exists f. split; [exact Hf|]. left. auto.
Qed.

(** X10. [sys_open] with a readable name: a descriptor it returns is the
    lowest free one and holds the file that [vfs_open] produced, with the
    close-on-exec flag that [O_CLOEXEC] asks for, no other descriptor and
    no count having changed.  When it fails the table is as before: the
    state is untouched if [vfs_open] failed, and if the table is full the
    answer is [-EMFILE] and the file has been released. *)
Theorem sys_open_outcome (st : vfs_state) pathname flags mode target w
    fd st' w' :
  table_ok MAX_FD_COUNT st →
  sys_open MAX_FD_COUNT MAX_SYMLINK_LEVEL true pathname flags mode target st w
  = Some (fd, st', w') →
  ∃ res,
    vfs_open MAX_SYMLINK_LEVEL st pathname flags mode target w = Some res
    ∧ (0 ≤ fd →
         0 ≤ vo_ret res
         ∧ vfs_get MAX_FD_COUNT fd st = None
         ∧ (∀ fd', 0 ≤ fd' < fd → vfs_get MAX_FD_COUNT fd' st ≠ None)
         ∧ vfs_get MAX_FD_COUNT fd st' = vo_file res
         ∧ vo_file res ≠ None
         ∧ cloexec_of st' (Z.to_nat fd)
           = (if Z.land flags O_CLOEXEC >? 0 then 1 else 0)
         ∧ (∀ fd', fd' ≠ fd →
              vfs_get MAX_FD_COUNT fd' st' = vfs_get MAX_FD_COUNT fd' st)
         ∧ f_ref st' = f_ref st)
    ∧ (fd < 0 →
         fds st' = fds st ∧ fds_cloexec st' = fds_cloexec st
         ∧ (vo_ret res < 0 → fd = vo_ret res ∧ st' = st)
         ∧ (0 ≤ vo_ret res →
              fd = - EMFILE
              ∧ ∃ f, vo_file res = Some f ∧ st' = vfs_release f st)).
Proof.
  intros Hok Hopen.
  destruct (sys_open_cases _ _ _ _ _ _ _ _ _ Hok Hopen)
    as (res & Hres & _ & Hcases).
  exists res. split; [exact Hres|].
  pose proof Hok as [Hlen Hlenc].
  destruct Hcases
    as [(Hneg & -> & ->)
       |(Hret & f & Hf & [(-> & -> & Hfull)
                         |(k & -> & Hk & Hfree & Hbefore & ->)])].
  - split; [intros; lia|]. intros _.
    split; [reflexivity|]. split; [reflexivity|].
    split; [auto|]. intros; lia.
  - split; [unfold EMFILE; intros; lia|]. intros _.
    destruct (fds_vfs_release st f) as [-> ->].
    split; [reflexivity|]. split; [reflexivity|].
    split; [intros; lia|]. intros _. split; [reflexivity|].
    exists f. auto.
  - split; [|intros; lia]. intros _.
    split; [exact Hret|]. rewrite !Nat2Z.id.
    split; [rewrite vfs_get_slot, Nat2Z.id by lia; exact Hfree|].
    split.
    { intros fd' Hfd'. rewrite vfs_get_slot by lia. apply Hbefore. lia. }
    split.
    { rewrite vfs_get_slot, Nat2Z.id by lia. rewrite slot_set_slot by lia.
      rewrite Hf. apply decide_True; reflexivity. }
    split; [rewrite Hf; discriminate|].
    split.
    { rewrite cloexec_of_set_slot by lia. apply decide_True; reflexivity. }
    split; [|reflexivity].
    intros fd' Hne.
    destruct (decide (0 ≤ fd' < Z.of_nat MAX_FD_COUNT)) as [Hin|Hout].
    + rewrite !vfs_get_slot by lia. rewrite slot_set_slot by lia.
      apply decide_False. lia.
    + rewrite !vfs_get_outside by lia. reflexivity.
Qed.

Lemma find_filesystem_prefix (entries : list file_system) path fs subpath :
  find_filesystem entries path = Some (fs, subpath) →
  fs ∈ entries ∧ mountpoint fs `prefix_of` path.
Proof.
  rewrite find_filesystem_first_prefix. unfold first_prefix_match.
  destruct (list_find _ entries) as [[i fs']|] eqn:E; [|discriminate].
  simpl. intros [= <- _].
  apply list_find_Some in E as (Hi & Hp & _).
  split; [apply (list_elem_of_lookup_2 _ _ _ Hi)|exact Hp].
Qed.

(** A call of [vfs_open] that does not fail has found a file system for the
    normalised path. *)
Lemma vfs_open_found (st : vfs_state) pathname flags mode target w res :
  vfs_open MAX_SYMLINK_LEVEL st pathname flags mode target w = Some res →
  0 ≤ vo_ret res →
  ∃ path fs subpath,
    Path.normalize_path (cwd st) pathname = Some path
    ∧ find_filesystem (fs_first st) path = Some (fs, subpath).
Proof.
  unfold vfs_open.
  destruct (Path.normalize_path (cwd st) pathname) as [path|];
    cbn [mbind option_bind]; [|discriminate].
  destruct MAX_SYMLINK_LEVEL as [|n]; simpl.
  { intros [= <-]. simpl. unfold ELOOP. lia. }
  unfold vfs_open_iteration. cbn [ov_path].
  destruct (find_filesystem (fs_first st) path) as [[fs subpath]|] eqn:Hfind.
  - intros _ _. exists path, fs, subpath. split; [reflexivity|exact Hfind].
  - intros [= <-]. simpl. unfold ENOENT. lia.
Qed.

(** X11. [sys_chdir] keeps the working directory in good shape, when the
    mount points are absolute paths: after a call that answers 0 it is the
    normalised name with a trailing ["/."] cut off, which is again ['/'] or
    ['/'] and proper components separated by single ['/']; after a call
    that fails it is as before.  The descriptor table is as before in both
    cases. *)
Theorem sys_chdir_keeps_cwd_clean (st : vfs_state) pathname target w
    r st' w' :
  table_ok MAX_FD_COUNT st →
  mounts_absolute st → clean_dir (cwd st) → NUL ∉ pathname →
  sys_chdir MAX_FD_COUNT MAX_SYMLINK_LEVEL true pathname target st w
  = Some (r, st', w') →
  clean_dir (cwd st')
  ∧ (r ≠ 0 → cwd st' = cwd st)
  ∧ (r = 0 → ∃ d, Path.normalize_path (cwd st) pathname = Some d
                  ∧ cwd st' = strip_trailing_dot d)
  ∧ fds st' = fds st.
Proof.
  intros Hok Hmounts Hclean Hnul. unfold sys_chdir. cbn [negb].
  destruct (sys_open MAX_FD_COUNT MAX_SYMLINK_LEVEL true pathname O_PATH 0
              target st w) as [[[fd st1] w1]|] eqn:Hopen;
    cbn [mbind option_bind]; [|discriminate].
  destruct (sys_open_cases _ _ _ _ _ _ _ _ _ Hok Hopen)
    as (res & Hres & _ & Hcases).
  destruct Hcases
    as [(Hneg & -> & ->)
       |(Hret & f & Hf & [(-> & -> & Hfull)
                         |(k & -> & Hk & Hfree & Hbefore & ->)])].
  - destruct (vo_ret res <? 0) eqn:E; [|apply Z.ltb_ge in E; lia].
    intros [= <- <- <-]. split; [exact Hclean|]. split; [reflexivity|].
    split; [intros; lia|reflexivity].
  - cbn [Z.ltb Z.compare EMFILE Z.opp]. intros [= <- <- <-].
    assert (cwd (vfs_release f st) = cwd st) as Hcwd
      by (unfold vfs_release; destruct (_ =? 0); reflexivity).
    rewrite Hcwd. split; [exact Hclean|]. split; [reflexivity|].
    split; [discriminate|]. apply fds_vfs_release.
  - destruct (Z.of_nat k <? 0) eqn:Hkneg; [apply Z.ltb_lt in Hkneg; lia|].
    set (c := if Z.land O_PATH O_CLOEXEC >? 0 then 1 else 0).
    pose proof Hok as [Hlen Hlenc].
    unfold sys_close.
    assert ((Z.of_nat k <? 0) || (Z.of_nat k >=? Z.of_nat MAX_FD_COUNT)
            = false) as Hin.
    { apply orb_false_intro; [exact Hkneg|].
      rewrite Z.geb_leb. apply Z.leb_gt; lia. }
    rewrite Hin, Nat2Z.id. rewrite slot_set_slot by lia.
    rewrite decide_True by reflexivity.
    rewrite (vfs_close_occupied _ _ f) by
      (try lia; rewrite slot_set_slot by lia; apply decide_True; reflexivity).
    cbn [mbind option_bind].
    assert (cwd (set_slot k None 0
                   (vfs_release f (set_slot k (Some f) c st))) = cwd st)
      as Hcwd by (unfold vfs_release; destruct (_ =? 0); reflexivity).
    rewrite Hcwd.
    destruct (vfs_open_found _ _ _ _ _ _ _ Hres Hret)
      as (path & fs & subpath & Hpath & Hfind).
    rewrite Hpath. cbn [mbind option_bind].
    intros [= <- <- <-]. cbn [cwd set_cwd].
    apply find_filesystem_prefix in Hfind as [Hfs [rest Hprefix]].
    assert (head path = Some "/") as Hhead.
    { unfold mounts_absolute in Hmounts.
      rewrite Forall_forall in Hmounts. specialize (Hmounts fs Hfs).
      rewrite Hprefix. destruct (mountpoint fs); [discriminate|exact Hmounts]. }
    split.
    { apply strip_trailing_dot_clean.
      apply (normalize_path_shape (cwd st) pathname path); assumption. }
    split; [intros Hne; contradiction Hne; reflexivity|].
    split; [intros _; exists path; auto|].
    simpl. destruct (fds_vfs_release (set_slot k (Some f) c st) f) as [-> _].
    simpl. rewrite list_insert_insert_eq. apply list_insert_id.
    apply slot_None_lookup; [exact Hfree|lia].
Qed.

End VfsCallsFacts.

(** * The table from start-up on *)

Section VfsLifeFacts.

Import Vfs VfsCalls.

Context {file : Type} `{EqDecision file} {World : Type}.

#[local] Abbreviation vfs_state := (@vfs_state file World).
#[local] Abbreviation file_system := (@file_system file World).
#[local] Abbreviation tracked := (@tracked file World).

Variable MAX_FD_COUNT : nat.



(** X22. [sys_dup] followed by [sys_close] of the original moves the
    file to the new descriptor: the new descriptor is one that was free,
    the original is then closed, the other descriptors are as before, and
    the counts and the record of [close] calls are those before the two
    calls, so the file is not destroyed on the way.  A [sys_dup] that
    fails answers [-EMFILE] and changes nothing. *)
Theorem dup_then_close_moves (st : vfs_state) fd f nfd st1 :
  table_ok MAX_FD_COUNT st →
  vfs_get MAX_FD_COUNT fd st = Some f →
  0 < f_ref st f →
  sys_dup MAX_FD_COUNT fd st = Some (nfd, st1) →
  (nfd < 0 → nfd = - EMFILE ∧ st1 = st)
  ∧ (0 ≤ nfd →
     nfd ≠ fd ∧ vfs_get MAX_FD_COUNT nfd st = None
     ∧ f_ref st1 f = f_ref st f + 1
     ∧ ∃ st2,
         sys_close MAX_FD_COUNT fd st1 = Some (0, st2)
         ∧ vfs_get MAX_FD_COUNT nfd st2 = Some f
         ∧ vfs_get MAX_FD_COUNT fd st2 = None
         ∧ (∀ fd', fd' ≠ fd → fd' ≠ nfd →
              vfs_get MAX_FD_COUNT fd' st2 = vfs_get MAX_FD_COUNT fd' st)
         ∧ (∀ g, f_ref st2 g = f_ref st g) ∧ closed st2 = closed st).
Proof.
  intros Hok Hget Href Hdup. unfold sys_dup in Hdup.
  pose proof (vfs_get_Some_range _ _ _ _ Hget) as Hr.
  pose proof Hget as Hslot. rewrite vfs_get_slot in Hslot by exact Hr.
  pose proof Hok as [Hlen Hlenc].
  destruct (first_empty st 0 MAX_FD_COUNT) as [k|] eqn:E.
  2:{ rewrite (vfs_dup_table_full _ st fd 0 f Hget) in Hdup
        by (intros j Hj; apply (first_empty_None _ _ _ E); lia).
      injection Hdup as <- <-. split; [auto|]. unfold EMFILE. lia. }
  apply first_empty_Some in E as (Hk & Hfree & Hbefore).
  destruct (vfs_dup_first_empty _ st fd 0 f k Hok Hget ltac:(lia) Hfree
              ltac:(intros j Hj; apply Hbefore; lia))
    as (st' & Hdup' & Hslotk & Hfds & Hcl & Hrefs & Hclosed).
  rewrite Hdup' in Hdup. injection Hdup as <- <-.
  split; [lia|]. intros _.
  assert (Z.to_nat fd ≠ k) as Hfk by (intros <-; congruence).
  split; [lia|].
  split; [rewrite vfs_get_slot, Nat2Z.id by lia; exact Hfree|].
  rewrite Hfree in Hclosed.
  assert (f_ref st' f = f_ref st f + 1) as Hreff.
  { rewrite Hrefs. rewrite Hfree.
    rewrite decide_False by discriminate.
    rewrite decide_True by reflexivity. lia. }
  split; [exact Hreff|].
  assert (table_ok MAX_FD_COUNT st') as Hok'.
  { split; [rewrite Hfds|rewrite Hcl]; rewrite length_insert; assumption. }
  assert (∀ j, slot st' j = if decide (j = k) then Some f else slot st j)
    as Hslots.
  { intros j. unfold slot. rewrite Hfds.
    destruct (decide (j = k)) as [->|Hne].
    - rewrite list_lookup_insert_eq by lia. reflexivity.
    - rewrite list_lookup_insert_ne by congruence. reflexivity. }
  assert (slot st' (Z.to_nat fd) = Some f) as Hslot'.
  { rewrite Hslots. rewrite decide_False by exact Hfk. exact Hslot. }
  exists (set_slot (Z.to_nat fd) None 0 (vfs_release f st')).
  destruct (close_slot_table _ st' (Z.to_nat fd) f Hok' ltac:(lia))
    as (_ & _ & _ & _ & Hs2 & _).
  split.
  { unfold sys_close.
    assert ((fd <? 0) || (fd >=? Z.of_nat MAX_FD_COUNT) = false) as ->.
    { apply orb_false_intro; [apply Z.ltb_ge; lia|].
      rewrite Z.geb_leb. apply Z.leb_gt; lia. }
    rewrite Hslot'.
    rewrite <- (Z2Nat.id fd) at 1 by lia.
    rewrite (vfs_close_occupied _ st' (Z.to_nat fd) f) by (lia || exact Hslot').
    reflexivity. }
  split.
  { rewrite vfs_get_slot, Nat2Z.id by lia. rewrite Hs2.
    rewrite decide_False by congruence. rewrite Hslots.
    apply decide_True; reflexivity. }
  split.
  { rewrite vfs_get_slot by lia. rewrite Hs2. apply decide_True; reflexivity. }
  split.
  { intros fd' Hne1 Hne2.
    destruct (decide (0 ≤ fd' < Z.of_nat MAX_FD_COUNT)) as [Hin|Hout].
    - rewrite !vfs_get_slot by lia. rewrite Hs2.
      rewrite decide_False by lia. rewrite Hslots.
      apply decide_False. lia.
    - rewrite !vfs_get_outside by lia. reflexivity. }
  split.
  { intros g.
    change (f_ref (set_slot (Z.to_nat fd) None 0 (vfs_release f st')) g)
      with (f_ref (vfs_release f st') g).
    rewrite f_ref_vfs_release.
    destruct (decide (g = f)) as [->|Hg]; [lia|].
    rewrite Hrefs, Hfree.
    rewrite (decide_False (P := None = Some g)) by discriminate.
    rewrite decide_False by exact Hg. lia. }
  change (closed (set_slot (Z.to_nat fd) None 0 (vfs_release f st')))
    with (closed (vfs_release f st')).
  rewrite closed_vfs_release, Hreff, Hclosed.
  destruct (Z.eqb_spec (f_ref st f + 1 - 1) 0); [lia|reflexivity].
Qed.

End VfsLifeFacts.

(** * Properties of the transfers and of [link] *)

Section VfsIoFacts.

Import Vfs VfsCalls VfsIo.

Context {file : Type} `{EqDecision file} {World : Type}.

#[local] Abbreviation vfs_state := (@vfs_state file World).
#[local] Abbreviation file_system := (@file_system file World).
#[local] Abbreviation transfer := (@transfer World).

Variable MAX_FD_COUNT : nat.
Variable MAX_SYMLINK_LEVEL : nat.
Variable op_read : file → option transfer.
Variable op_write : file → option transfer.
Variable mm_check_read : Z → Z → bool.
Variable mm_check_write : Z → Z → bool.

Lemma iov_check_false check (iov : nat → iovec) n i k :
  (i ≤ k < i + n)%nat →
  check (iov_base (iov k)) (iov_len (iov k)) = false →
  iov_check check iov i n = false.
Proof.
  revert i. induction n as [|n IH]; intros i Hk Hbad; [lia|].
  simpl. destruct (check (iov_base (iov i)) (iov_len (iov i))) eqn:E;
    [|reflexivity].
  cbn [negb]. apply IH; [|exact Hbad].
  destruct (decide (k = i)) as [->|]; [congruence|lia].
Qed.

Lemma iov_check_true check (iov : nat → iovec) n i :
  iov_check check iov i n = true →
  ∀ k, (i ≤ k < i + n)%nat →
       check (iov_base (iov k)) (iov_len (iov k)) = true.
Proof.
  revert i. induction n as [|n IH]; intros i Hc k Hk; [lia|].
  simpl in Hc.
  destruct (check (iov_base (iov i)) (iov_len (iov i))) eqn:E;
    [|discriminate].
  destruct (decide (k = i)) as [->|]; [exact E|].
  apply (IH (S i)); [exact Hc|lia].
Qed.

Lemma iov_call_bad_buffer (op : file → option transfer) check fd iov iovcnt
    (st : vfs_state) w f go k :
  0 ≤ fd < Z.of_nat MAX_FD_COUNT →
  slot st (Z.to_nat fd) = Some f → op f = Some go →
  0 ≤ Z.of_nat k < iovcnt →
  check (iov_base (iov k)) (iov_len (iov k)) = false →
  iov_call MAX_FD_COUNT op check fd iov iovcnt st w = Some (- EFAULT, w).
Proof.
  intros Hfd Hslot Hop Hk Hbad. unfold iov_call.
  assert ((fd <? 0) || (fd >=? Z.of_nat MAX_FD_COUNT) = false) as ->.
  { apply orb_false_intro; [apply Z.ltb_ge; lia|].
    rewrite Z.geb_leb. apply Z.leb_gt; lia. }
  rewrite Hslot, Hop.
  rewrite (iov_check_false check iov _ 0 k); [reflexivity|lia|exact Hbad].
Qed.

(** X12. [sys_readv] and [sys_writev] look at every buffer before the
    first byte moves: if one of the [iovcnt] buffers fails the check of the
    memory manager, the call answers [-EFAULT] and the file's operation has
    not been called. *)
Theorem iov_buffers_checked_first fd iov iovcnt (st : vfs_state) w f k :
  0 ≤ fd < Z.of_nat MAX_FD_COUNT →
  slot st (Z.to_nat fd) = Some f →
  0 ≤ Z.of_nat k < iovcnt →
  (op_read f ≠ None →
   mm_check_write (iov_base (iov k)) (iov_len (iov k)) = false →
   sys_readv MAX_FD_COUNT op_read mm_check_write fd iov iovcnt st w
   = Some (- EFAULT, w))
  ∧ (op_write f ≠ None →
     mm_check_read (iov_base (iov k)) (iov_len (iov k)) = false →
     sys_writev MAX_FD_COUNT op_write mm_check_read fd iov iovcnt st w
     = Some (- EFAULT, w)).
Proof.
  intros Hfd Hslot Hk. split.
  - destruct (op_read f) as [go|] eqn:Hop; [|congruence]. intros _ Hbad.
    apply (iov_call_bad_buffer op_read mm_check_write fd iov iovcnt st w
             f go k); assumption.
  - destruct (op_write f) as [go|] eqn:Hop; [|congruence]. intros _ Hbad.
    apply (iov_call_bad_buffer op_write mm_check_read fd iov iovcnt st w
             f go k); assumption.
Qed.

Lemma to_int_small r : 0 ≤ r < 2 ^ 31 → to_int (to_size_t (0 + r)) = r.
Proof.
  intros Hr. unfold to_int, to_size_t. change (2 ^ 31) with 2147483648 in *.
  change (2 ^ 32) with 4294967296.
  rewrite Z.add_0_l, Z.mod_mod by lia.
  rewrite Z.mod_small by lia.
  destruct (Z.ltb_spec r 2147483648); [reflexivity|lia].
Qed.

Lemma iov_call_one (op : file → option transfer) check fd iov
    (st : vfs_state) w :
  (∀ f go w b l, op f = Some go → (go w b l).1 < 2 ^ 31) →
  iov_call MAX_FD_COUNT op check fd iov 1 st w
  = transfer_call MAX_FD_COUNT op check fd
      (iov_base (iov 0%nat)) (iov_len (iov 0%nat)) st w.
Proof.
  intros Hint. unfold iov_call, transfer_call.
  destruct ((fd <? 0) || (fd >=? Z.of_nat MAX_FD_COUNT)); [reflexivity|].
  destruct (slot st (Z.to_nat fd)) as [f|]; [|reflexivity].
  destruct (op f) as [go|] eqn:Hop; [|reflexivity].
  change (Z.to_nat 1) with 1%nat. cbn [iov_check].
  destruct (check (iov_base (iov 0%nat)) (iov_len (iov 0%nat)));
    [|reflexivity].
  cbn [negb iov_loop]. f_equal.
  specialize (Hint f go w (iov_base (iov 0%nat)) (iov_len (iov 0%nat)) Hop).
  destruct (go w (iov_base (iov 0%nat)) (iov_len (iov 0%nat))) as [r w1].
  simpl in Hint.
  destruct (Z.ltb_spec r 0); [reflexivity|].
  rewrite to_int_small by lia.
  destruct (_ <? _); reflexivity.
Qed.

(** X13. With one buffer, [sys_readv] is [sys_read] and [sys_writev] is
    [sys_write] on that buffer (the drivers return an [int]). *)
Theorem iov_one_buffer fd iov (st : vfs_state) w :
  (∀ f go w b l, op_read f = Some go → (go w b l).1 < 2 ^ 31) →
  (∀ f go w b l, op_write f = Some go → (go w b l).1 < 2 ^ 31) →
  sys_readv MAX_FD_COUNT op_read mm_check_write fd iov 1 st w
  = sys_read MAX_FD_COUNT op_read mm_check_write fd
      (iov_base (iov 0%nat)) (iov_len (iov 0%nat)) st w
  ∧ sys_writev MAX_FD_COUNT op_write mm_check_read fd iov 1 st w
    = sys_write MAX_FD_COUNT op_write mm_check_read fd
        (iov_base (iov 0%nat)) (iov_len (iov 0%nat)) st w.
Proof.
  intros Hr Hw. split; apply iov_call_one; assumption.
Qed.

Variable fs_link : file_system → option (World → file → list ascii → Z * World).
Variable winfs_is_winfile : file → bool.

Lemma sys_link_loop_cases n f path target (st : vfs_state) w r st' w' :
  sys_link_loop fs_link n f path target st w = Some (r, st', w') →
  st' = vfs_release f st ∨ (r = - ELOOP ∧ st' = st).
Proof.
  revert path target w. induction n as [|n IH]; intros path target w; simpl.
  { intros [= <- <- <-]. right. auto. }
  destruct (find_filesystem (fs_first st) path) as [[fs subpath]|];
    [|intros [= <- <- <-]; left; reflexivity].
  destruct (match fs_link fs with
            | Some link => link w f subpath
            | None => (- ENOENT, w)
            end) as [ret w1].
  destruct (ret =? 0); [intros [= <- <- <-]; left; reflexivity|].
  destruct (ret =? - ENOENT); [|intros [= <- <- <-]; left; reflexivity].
  destruct (resolve_symlink fs path _ subpath target w1) as [[rs w2]|];
    cbn [mbind option_bind]; [|discriminate].
  destruct (rs_ret rs <? 0); [intros [= <- <- <-]; left; reflexivity|].
  apply IH.
Qed.

(** X14. What [sys_link] does with the reference that [vfs_open] hands
    out for the old name: when the file is not a winfs file the call
    answers [-EPERM] and the state is as before, the reference still held;
    otherwise the file has been released once, unless the call answers
    [-ELOOP] with the state as before.  When [vfs_open] fails the state is
    as before. *)
Theorem sys_link_reference oldpath newpath open_target target
    (st : vfs_state) w r st' w' :
  sys_link MAX_SYMLINK_LEVEL fs_link winfs_is_winfile true true
    oldpath newpath open_target target st w = Some (r, st', w') →
  ∃ res,
    vfs_open MAX_SYMLINK_LEVEL st oldpath (Z.lor O_PATH O_NOFOLLOW) 0
      open_target w = Some res
    ∧ (vo_ret res < 0 → r = vo_ret res ∧ st' = st)
    ∧ (0 ≤ vo_ret res →
       ∃ f, vo_file res = Some f
            ∧ (winfs_is_winfile f = false → r = - EPERM ∧ st' = st)
            ∧ (winfs_is_winfile f = true →
               st' = vfs_release f st ∨ (r = - ELOOP ∧ st' = st))).
Proof.
  unfold sys_link. cbn [negb orb].
  destruct (Path.normalize_path (cwd st) newpath) as [path|];
    cbn [mbind option_bind]; [|discriminate].
  destruct (vfs_open MAX_SYMLINK_LEVEL st oldpath (Z.lor O_PATH O_NOFOLLOW) 0
              open_target w) as [res|]; cbn [mbind option_bind];
    [|discriminate].
  destruct (Z.ltb_spec (vo_ret res) 0) as [Hneg|Hpos].
  { intros [= <- <- <-]. exists res. split; [reflexivity|].
    split; [auto|]. intros; lia. }
  destruct (vo_file res) as [f|] eqn:Hf; cbn [mbind option_bind];
    [|discriminate].
  destruct (winfs_is_winfile f) eqn:Hwin; cbn [negb].
  - intros Hloop. exists res. split; [reflexivity|].
    split; [intros; lia|]. intros _. exists f. split; [exact Hf|].
    split; [intros; congruence|]. intros _.
    apply (sys_link_loop_cases _ _ _ _ _ _ _ _ _ Hloop).
  - intros [= <- <- <-]. exists res. split; [reflexivity|].
    split; [intros; lia|]. intros _. exists f. split; [exact Hf|].
    split; [auto|]. intros; congruence.
Qed.

End VfsIoFacts.

(** * Properties of delivery and of the signal frame *)

Section SigCallsFacts.

Import Sig SigCalls.

Variable _NSIG : nat.
Variable sigismember : Z → Z → bool.
Variable sigaddset : Z → Z → Z.
Variable sigdelset : Z → Z → Z.

#[local] Abbreviation ready := (ready sigismember).
#[local] Abbreviation signal_deliver := (signal_deliver _NSIG).
#[local] Abbreviation handle_kill :=
  (signal_thread_handle_kill _NSIG sigismember sigaddset).
#[local] Abbreviation handle_deliver :=
  (signal_thread_handle_deliver _NSIG sigismember sigdelset).

(** The scan of the [DELIVER] case stops at the first signal that is
    ready. *)
Lemma deliver_scan_first n i k st :
  can_accept_signal st = true →
  (i ≤ k < i + n)%nat → ready (mask st) st k = true →
  (∀ j, (i ≤ j < k)%nat → ready (mask st) st j = false) →
  deliver_scan _NSIG sigismember sigdelset i n st
  = signal_deliver (info st !!! k)
      (set_pending (sigdelset (pending st) (Z.of_nat k)) st).
Proof.
  intros Hacc. revert i. induction n as [|n IH]; intros i Hr Hk Hbefore;
    [lia|].
  simpl. rewrite Hacc, andb_true_r.
  destruct (decide (i = k)) as [->|Hne].
  - unfold SigCalls.ready in Hk. rewrite Hk. reflexivity.
  - pose proof (Hbefore i ltac:(lia)) as Hi. unfold SigCalls.ready in Hi.
    rewrite Hi. apply IH; [lia|exact Hk|]. intros j Hj. apply Hbefore. lia.
Qed.

Lemma deliver_scan_none n i st :
  can_accept_signal st = false
  ∨ (∀ j, (i ≤ j < i + n)%nat → ready (mask st) st j = false) →
  deliver_scan _NSIG sigismember sigdelset i n st = Some st.
Proof.
  revert i. induction n as [|n IH]; intros i H; [reflexivity|].
  simpl.
  assert (sigismember (pending st) (Z.of_nat i)
          && negb (sigismember (mask st) (Z.of_nat i))
          && can_accept_signal st = false) as ->.
  { destruct H as [->|H]; [apply andb_false_r|].
    specialize (H i ltac:(lia)). unfold SigCalls.ready in H. rewrite H.
    reflexivity. }
  apply IH. destruct H as [H|H]; [left; exact H|right].
  intros j Hj. apply H. lia.
Qed.

(** X15. The [DELIVER] case of the worker hands over one signal, the
    lowest that is pending and not blocked, after taking it off the pending
    set, and uses the record kept for it; when no signal is ready, or
    while the main thread cannot accept one, it does nothing. *)
Theorem handle_deliver_lowest_first st :
  (can_accept_signal st = true →
   ∀ k, (k < _NSIG)%nat → ready (mask st) st k = true →
        (∀ j, (j < k)%nat → ready (mask st) st j = false) →
        handle_deliver st
        = signal_deliver (info st !!! k)
            (set_pending (sigdelset (pending st) (Z.of_nat k)) st))
  ∧ (can_accept_signal st = false
     ∨ (∀ j, (j < _NSIG)%nat → ready (mask st) st j = false) →
     handle_deliver st = Some st).
Proof.
  split.
  - intros Hacc k Hk Hready Hbefore.
    apply deliver_scan_first; [exact Hacc|lia|exact Hready|].
    intros j Hj. apply Hbefore. lia.
  - intros H. apply deliver_scan_none.
    destruct H as [H|H]; [left; exact H|right].
    intros j Hj. apply H. lia.
Qed.

(** [signal_deliver] with a handler installed. *)
Lemma signal_deliver_handler i st :
  in_range _NSIG (si_signo i) = true →
  sa_handler (actions st !!! Z.to_nat (si_signo i)) ≠ SIG_IGN →
  sa_handler (actions st !!! Z.to_nat (si_signo i)) ≠ SIG_DFL →
  ∃ st', signal_deliver i st = Some st'
         ∧ current_siginfo st' = i ∧ can_accept_signal st' = false
         ∧ host_calls st' = host_calls st ++ handler_calls
         ∧ pending st' = pending st ∧ mask st' = mask st
         ∧ info st' = info st ∧ actions st' = actions st
         ∧ sigwrite st' = sigwrite st.
Proof.
  intros Hr Hign Hdfl. unfold Sig.signal_deliver. rewrite Hr. cbn [negb].
  destruct (Z.eqb_spec (sa_handler (actions st !!! Z.to_nat (si_signo i)))
              SIG_IGN) as [|_]; [contradiction|].
  destruct (Z.eqb_spec (sa_handler (actions st !!! Z.to_nat (si_signo i)))
              SIG_DFL) as [|_]; [contradiction|].
  eexists. split; [reflexivity|]. repeat split.
Qed.

(** [signal_deliver] changes neither the pending set nor the records. *)
Lemma signal_deliver_keeps i st st' :
  signal_deliver i st = Some st' →
  pending st' = pending st ∧ info st' = info st ∧ mask st' = mask st
  ∧ actions st' = actions st.
Proof.
  unfold Sig.signal_deliver.
  destruct (negb (in_range _NSIG (si_signo i))); [discriminate|].
  destruct (_ =? SIG_IGN); [intros [= <-]; auto|].
  destruct (_ =? SIG_DFL).
  - intros [= <-]. unfold signal_default_handler.
    destruct (bool_decide _); auto.
  - intros [= <-]. auto.
Qed.

(** X16. A signal that arrives while it is blocked is kept, with its
    record, and nothing is done to the main thread; once a mask that lets
    it through is in place (and no lower signal is ready), the [DELIVER]
    case hands it to its handler with the record that arrived, and the
    pending set is as it was before the signal came. *)
Theorem kill_blocked_then_deliver st i s m :
  sigset_macros_ok sigismember sigaddset sigdelset →
  length (info st) = _NSIG →
  si_signo i = Z.of_nat s → (s < _NSIG)%nat →
  sigismember (pending st) (Z.of_nat s) = false →
  sigismember (mask st) (Z.of_nat s) = true →
  can_accept_signal st = true →
  sigismember m (Z.of_nat s) = false →
  (∀ j, (j < s)%nat → ready m st j = false) →
  sa_handler (actions st !!! s) ≠ SIG_IGN →
  sa_handler (actions st !!! s) ≠ SIG_DFL →
  ∃ st1 st2,
    handle_kill i st = Some st1
    ∧ host_calls st1 = host_calls st
    ∧ sigismember (pending st1) (Z.of_nat s) = true
    ∧ handle_deliver (set_mask m st1) = Some st2
    ∧ current_siginfo st2 = i
    ∧ host_calls st2 = host_calls st ++ handler_calls
    ∧ can_accept_signal st2 = false
    ∧ (∀ j, 0 ≤ j → sigismember (pending st2) j = sigismember (pending st) j).
Proof.
  intros Hlaws Hlen Hsig Hs Hnp Hblocked Hacc Hm Hbefore Hign Hdfl.
  assert (in_range _NSIG (si_signo i) = true) as Hr.
  { unfold in_range. rewrite Hsig.
    apply andb_true_intro. split; [apply Z.leb_le|apply Z.ltb_lt]; lia. }
  assert (handle_kill i st
          = Some {| actions := actions st; mask := mask st;
                    pending := sigaddset (pending st) (Z.of_nat s);
                    info := <[s := i]> (info st);
                    current_siginfo := current_siginfo st;
                    can_accept_signal := can_accept_signal st;
                    sigwrite := sigwrite st; host_calls := host_calls st |})
    as Hkill.
  { unfold signal_thread_handle_kill. rewrite Hsig, Hnp, Hblocked.
    cbn [negb orb]. rewrite <- Hsig, Hr, Hsig. cbn [negb].
    rewrite Nat2Z.id. reflexivity. }
  set (st1 := {| actions := actions st; mask := mask st;
                 pending := sigaddset (pending st) (Z.of_nat s);
                 info := <[s := i]> (info st);
                 current_siginfo := current_siginfo st;
                 can_accept_signal := can_accept_signal st;
                 sigwrite := sigwrite st; host_calls := host_calls st |})
    in *.
  assert (∀ j, 0 ≤ j →
            sigismember (pending st1) j
            = (j =? Z.of_nat s) || sigismember (pending st) j) as Hadd.
  { intros j Hj. apply (Hlaws (pending st) (Z.of_nat s) j); lia. }
  assert (handle_deliver (set_mask m st1)
          = signal_deliver i
              (set_pending (sigdelset (pending st1) (Z.of_nat s))
                 (set_mask m st1))) as Hdel.
  { unfold signal_thread_handle_deliver.
    rewrite (deliver_scan_first _NSIG 0 s); [| exact Hacc | lia | |].
    - cbn [info set_mask st1]. rewrite list_lookup_total_insert_eq by lia.
      reflexivity.
    - unfold SigCalls.ready. cbn [mask set_mask pending].
      rewrite Hadd by lia. rewrite Z.eqb_refl, Hm. reflexivity.
    - intros j Hj. specialize (Hbefore j ltac:(lia)).
      unfold SigCalls.ready in *. cbn [mask set_mask pending].
      rewrite Hadd by lia.
      destruct (Z.eqb_spec (Z.of_nat j) (Z.of_nat s)); [lia|].
      exact Hbefore. }
  destruct (signal_deliver_handler i
              (set_pending (sigdelset (pending st1) (Z.of_nat s))
                 (set_mask m st1)) Hr)
    as (st2 & Hst2 & Hcur & Hacc2 & Hcalls & Hpend & _).
  { rewrite Hsig, Nat2Z.id. exact Hign. }
  { rewrite Hsig, Nat2Z.id. exact Hdfl. }
  exists st1, st2.
  split; [exact Hkill|]. split; [reflexivity|].
  split; [rewrite Hadd by lia; rewrite Z.eqb_refl; reflexivity|].
  split; [rewrite Hdel; exact Hst2|].
  split; [exact Hcur|]. split; [exact Hcalls|]. split; [exact Hacc2|].
  intros j Hj. rewrite Hpend. cbn [pending set_pending].
  destruct (Hlaws (pending st1) (Z.of_nat s) j ltac:(lia) Hj) as [_ ->].
  rewrite Hadd by exact Hj.
  destruct (Z.eqb_spec j (Z.of_nat s)) as [->|_]; [|reflexivity].
  rewrite Hnp. reflexivity.
Qed.


Lemma deliver_scan_cases n i st st' :
  deliver_scan _NSIG sigismember sigdelset i n st = Some st' →
  st' = st
  ∨ ∃ k, (i ≤ k < i + n)%nat
         ∧ sigismember (pending st) (Z.of_nat k) = true
         ∧ signal_deliver (info st !!! k)
             (set_pending (sigdelset (pending st) (Z.of_nat k)) st)
           = Some st'.
Proof.
  revert i. induction n as [|n IH]; intros i; simpl.
  { intros [= <-]. left. reflexivity. }
  destruct (sigismember (pending st) (Z.of_nat i)) eqn:Hp; cbn [andb].
  - destruct (negb (sigismember (mask st) (Z.of_nat i))
              && can_accept_signal st).
    + intros H. right. exists i. split; [lia|]. split; [exact Hp|exact H].
    + intros H. destruct (IH _ H) as [->|(k & Hk & Hpk & Hd)];
        [left; reflexivity|right].
      exists k. split; [lia|]. split; assumption.
  - intros H. destruct (IH _ H) as [->|(k & Hk & Hpk & Hd)];
      [left; reflexivity|right].
    exists k. split; [lia|]. split; assumption.
Qed.

(** X17. The records kept for the pending signals stay in step with the
    pending set: if the record of every pending signal carries that
    signal's number, this is still so after a [KILL] packet and after a
    [DELIVER] packet. *)
Theorem pending_info_preserved st :
  sigset_macros_ok sigismember sigaddset sigdelset →
  length (info st) = _NSIG →
  pending_info_ok _NSIG sigismember st →
  (∀ i st', handle_kill i st = Some st' →
            pending_info_ok _NSIG sigismember st'
            ∧ length (info st') = _NSIG)
  ∧ (∀ st', handle_deliver st = Some st' →
            pending_info_ok _NSIG sigismember st'
            ∧ length (info st') = _NSIG).
Proof.
  intros Hlaws Hlen Hinv. split.
  - intros i st'. unfold signal_thread_handle_kill.
    destruct (sigismember (pending st) (si_signo i)); cbn [negb];
      [intros [= <-]; auto|].
    destruct (sigismember (mask st) (si_signo i)
              || negb (can_accept_signal st)).
    + destruct (in_range _NSIG (si_signo i)) eqn:Hr; cbn [negb];
        [|discriminate].
      intros [= <-]. cbn [info pending].
      split; [|rewrite length_insert; exact Hlen].
      unfold in_range in Hr. apply andb_prop in Hr as [Hlo Hhi].
      apply Z.leb_le in Hlo. apply Z.ltb_lt in Hhi.
      intros j Hj. cbn [info pending].
      destruct (Hlaws (pending st) (si_signo i) (Z.of_nat j)
                  Hlo ltac:(lia)) as [-> _].
      destruct (Z.eqb_spec (Z.of_nat j) (si_signo i)) as [Heq|Hne].
      * intros _. rewrite <- Heq, Nat2Z.id.
        rewrite list_lookup_total_insert_eq by lia. symmetry; exact Heq.
      * cbn [orb]. intros Hp.
        rewrite list_lookup_total_insert_ne by lia. apply Hinv; assumption.
    + intros Hd. apply signal_deliver_keeps in Hd as (Hp & Hi & _).
      split; [|rewrite Hi; exact Hlen].
      intros j Hj. rewrite Hp, Hi. apply Hinv. exact Hj.
  - intros st' Hd. unfold signal_thread_handle_deliver in Hd.
    apply deliver_scan_cases in Hd as [->|(k & Hk & Hpk & Hd)]; [auto|].
    apply signal_deliver_keeps in Hd as (Hp & Hi & _).
    cbn [pending info set_pending] in Hp, Hi.
    split; [|rewrite Hi; exact Hlen].
    intros j Hj. rewrite Hp, Hi.
    destruct (Hlaws (pending st) (Z.of_nat k) (Z.of_nat j)
                ltac:(lia) ltac:(lia)) as [_ ->].
    intros Hm. apply andb_prop in Hm as [_ Hm]. apply Hinv; assumption.
Qed.

(** X18. [rt_sigaction] on a signal other than [SIGKILL] and [SIGSTOP]
    installs the action and hands back the previous one; a query that
    follows reads the installed action back.  The actions of the other
    signals, the mask, the pending set and the signal pipe are as
    before. *)
Theorem rt_sigaction_install_query st signum a :
  length (actions st) = _NSIG →
  0 ≤ signum < Z.of_nat _NSIG → signum ≠ SIGKILL → signum ≠ SIGSTOP →
  ∃ st1,
    sys_rt_sigaction _NSIG signum (Some {| in_ok := true; in_val := a |})
      (Some true) sizeof_sigset_t st
    = (0, Some (actions st !!! Z.to_nat signum), st1)
    ∧ sys_rt_sigaction _NSIG signum None (Some true) sizeof_sigset_t st1
      = (0, Some a, st1)
    ∧ (∀ j, j ≠ Z.to_nat signum → actions st1 !!! j = actions st !!! j)
    ∧ length (actions st1) = _NSIG
    ∧ mask st1 = mask st ∧ pending st1 = pending st
    ∧ sigwrite st1 = sigwrite st ∧ host_calls st1 = host_calls st.
Proof.
  intros Hlen Hr Hkill Hstop.
  assert ((signum <? 0) || (signum >=? Z.of_nat _NSIG)
          || (signum =? SIGKILL) || (signum =? SIGSTOP) = false) as Hok.
  { rewrite !orb_false_iff. repeat split.
    - apply Z.ltb_ge; lia.
    - rewrite Z.geb_leb. apply Z.leb_gt; lia.
    - apply Z.eqb_neq; exact Hkill.
    - apply Z.eqb_neq; exact Hstop. }
  exists (set_action (Z.to_nat signum) a st).
  unfold sys_rt_sigaction. rewrite Z.eqb_refl, Hok. cbn [negb in_ok in_val].
  split; [reflexivity|].
  split.
  { cbn [actions set_action].
    rewrite list_lookup_total_insert_eq by lia. reflexivity. }
  split.
  { intros j Hj. cbn [actions set_action].
    apply list_lookup_total_insert_ne. congruence. }
  split; [cbn [actions set_action]; rewrite length_insert; exact Hlen|].
  repeat split.
Qed.

Variable sizeof_fpstate : Z.
Variable sizeof_rt_sigframe : Z.
Variable offsetof_info : Z.
Variable offsetof_uc : Z.
Variable signal_restorer : Z.

#[local] Abbreviation fpstate_address := (fpstate_address sizeof_fpstate).
#[local] Abbreviation frame_address :=
  (frame_address sizeof_fpstate sizeof_rt_sigframe).
#[local] Abbreviation signal_setup_handler :=
  (signal_setup_handler _NSIG sigaddset sizeof_fpstate sizeof_rt_sigframe
     offsetof_info offsetof_uc signal_restorer).

Lemma u32_range x : 0 ≤ u32 x < 2 ^ 32.
Proof. unfold u32. apply Z.mod_pos_bound. lia. Qed.

Lemma u32_small x : 0 ≤ x < 2 ^ 32 → u32 x = x.
Proof. intros H. unfold u32. apply Z.mod_small. exact H. Qed.

(** [x & -2^k] on 32 bits clears the low [k] bits. *)
Lemma land_align x k :
  0 ≤ k → 0 ≤ x < 2 ^ 32 →
  2 ^ 32 - 2 ^ k = Z.land (Z.ones 32) (Z.lnot (Z.ones k)) →
  Z.land x (2 ^ 32 - 2 ^ k) = x - x mod 2 ^ k.
Proof.
  intros Hk Hx ->.
  rewrite Z.land_assoc, Z.land_ones by lia.
  rewrite Z.mod_small by exact Hx.
  rewrite <- Z.ldiff_land, Z.ldiff_ones_r by exact Hk.
  rewrite Z.shiftl_mul_pow2, Z.shiftr_div_pow2 by exact Hk.
  pose proof (Z.div_mod x (2 ^ k) ltac:(lia)). lia.
Qed.

Lemma fpstate_address_eq sp :
  fpstate_address sp
  = u32 (sp - sizeof_fpstate) - u32 (sp - sizeof_fpstate) mod 512.
Proof.
  unfold SigCalls.fpstate_address.
  change (u32 (-512)) with (2 ^ 32 - 2 ^ 9).
  rewrite land_align; [reflexivity|lia|apply u32_range|reflexivity].
Qed.

Lemma frame_address_eq sp :
  let b := u32 (u32 (fpstate_address sp - sizeof_rt_sigframe) + 4) in
  frame_address sp = u32 (b - b mod 16 - 4).
Proof.
  intros b. unfold SigCalls.frame_address. fold b.
  change (u32 (-16)) with (2 ^ 32 - 2 ^ 4).
  rewrite land_align; [reflexivity|lia|apply u32_range|reflexivity].
Qed.

Lemma frame_alignment sp :
  fpstate_address sp mod 512 = 0
  ∧ (frame_address sp + 4) mod 16 = 0
  ∧ 0 ≤ frame_address sp < 2 ^ 32.
Proof.
  pose proof (fpstate_address_eq sp) as Hfp.
  pose proof (frame_address_eq sp) as Hfr. cbv zeta in Hfr.
  revert Hfp Hfr.
  generalize (fpstate_address sp) as fp, (frame_address sp) as fr.
  intros fp fr.
  generalize (u32 (sp - sizeof_fpstate)) as a. intros a Hfp.
  unfold u32. change (2 ^ 32) with 4294967296.
  intros Hfr.
  pose proof (Z.mod_pos_bound a 512 ltac:(lia)) as Ham.
  pose proof (Z.div_mod a 512 ltac:(lia)) as Hadm.
  split.
  { rewrite Hfp. replace (a - a mod 512) with (a / 512 * 512) by lia.
    apply Z.mod_mul. lia. }
  set (b := ((fp - sizeof_rt_sigframe) mod 4294967296 + 4) mod 4294967296)
    in *.
  pose proof (Z.mod_pos_bound b 16 ltac:(lia)) as Hbm.
  pose proof (Z.div_mod b 16 ltac:(lia)) as Hbdm.
  pose proof (Z.div_mod (b - b mod 16 - 4) 4294967296 ltac:(lia)) as Hcdm.
  pose proof (Z.mod_pos_bound (b - b mod 16 - 4) 4294967296 ltac:(lia))
    as Hcm.
  rewrite <- Hfr in Hcdm, Hcm.
  split; [|exact Hcm].
  replace (fr + 4)
    with ((b / 16 - 268435456 * ((b - b mod 16 - 4) / 4294967296)) * 16)
    by lia.
  apply Z.mod_mul. lia.
Qed.

Lemma frame_below sp :
  0 ≤ sizeof_fpstate → 0 ≤ sizeof_rt_sigframe →
  sizeof_fpstate + sizeof_rt_sigframe + 528 ≤ sp < 2 ^ 32 →
  frame_address sp + sizeof_rt_sigframe ≤ fpstate_address sp
  ∧ fpstate_address sp + sizeof_fpstate ≤ sp
  ∧ sp - sizeof_fpstate - sizeof_rt_sigframe - 527 ≤ frame_address sp.
Proof.
  change (2 ^ 32) with 4294967296. intros Hsf Hsr Hsp.
  pose proof (fpstate_address_eq sp) as Hfp.
  pose proof (frame_address_eq sp) as Hfr. cbv zeta in Hfr.
  rewrite (u32_small (sp - sizeof_fpstate)) in Hfp
    by (change (2 ^ 32) with 4294967296; lia).
  pose proof (Z.mod_pos_bound (sp - sizeof_fpstate) 512 ltac:(lia)) as Ham.
  pose proof (Z.div_mod (sp - sizeof_fpstate) 512 ltac:(lia)) as Hadm.
  revert Hfp Hfr.
  generalize (fpstate_address sp) as fp, (frame_address sp) as fr.
  intros fp fr Hfp.
  rewrite (u32_small (fp - sizeof_rt_sigframe))
    by (change (2 ^ 32) with 4294967296; lia).
  rewrite (u32_small (fp - sizeof_rt_sigframe + 4))
    by (change (2 ^ 32) with 4294967296; lia).
  pose proof (Z.mod_pos_bound (fp - sizeof_rt_sigframe + 4) 16 ltac:(lia))
    as Hbm.
  rewrite u32_small by (change (2 ^ 32) with 4294967296; lia).
  intros ->. lia.
Qed.

(** X19. The layout that [signal_setup_handler] computes on the guest
    stack: the FPU save area is aligned to 512 bytes and the frame so that
    [frame + 4] is aligned to 16; when the stack pointer leaves room, the
    frame lies below the save area, the save area below the old stack
    pointer, and at most 527 bytes are lost to alignment. *)
Theorem signal_frame_layout sp :
  fpstate_address sp mod 512 = 0
  ∧ (frame_address sp + 4) mod 16 = 0
  ∧ 0 ≤ frame_address sp < 2 ^ 32
  ∧ (0 ≤ sizeof_fpstate → 0 ≤ sizeof_rt_sigframe →
     sizeof_fpstate + sizeof_rt_sigframe + 528 ≤ sp < 2 ^ 32 →
     frame_address sp + sizeof_rt_sigframe ≤ fpstate_address sp
     ∧ fpstate_address sp + sizeof_fpstate ≤ sp
     ∧ sp - sizeof_fpstate - sizeof_rt_sigframe - 527 ≤ frame_address sp).
Proof.
  destruct (frame_alignment sp) as (H1 & H2 & H3).
  split; [exact H1|]. split; [exact H2|]. split; [exact H3|].
  apply frame_below.
Qed.

(** X20. [sys_rt_sigreturn] undoes [signal_setup_handler]: called with
    the stack pointer that the return from the handler leaves (the frame
    address plus 4), it finds the frame, restores the FPU state from the
    area where it was saved, puts back the mask that was in force when the
    signal was delivered, and resumes from the registers that were saved. *)
Theorem sigreturn_undoes_setup context st su readable frame_at st2 :
  signal_setup_handler context st = Some su →
  readable (su_frame_address su) = true →
  frame_at (su_frame_address su) = su_frame su →
  ∃ mc st3,
    sys_rt_sigreturn readable frame_at (u32 (esp (su_context su) + 4)) st2
    = sigreturn_resumed mc st3 [fpu_fxrstor (fpstate_address (esp context))]
    ∧ su_calls su = [fpu_fxsave (fpstate_address (esp context)); ResetEvent]
    ∧ st3 = send_pending_signal (set_mask (mask st) st2)
    ∧ mask st3 = mask st
    ∧ (sc_bx mc, sc_cx mc, sc_dx mc, sc_si mc, sc_di mc, sc_bp mc,
       sc_sp mc, sc_ip mc, sc_ax mc, sc_flags mc)
      = (ebx context, ecx context, edx context, esi context, edi context,
         ebp context, esp context, eip context, eax context, eflags context).
Proof.
  unfold SigCalls.signal_setup_handler.
  destruct (negb (in_range _NSIG (si_signo (current_siginfo st))));
    [discriminate|].
  intros [= <-]. cbn [su_frame_address su_frame su_context su_calls esp].
  intros Hread Hframe.
  assert (u32 (u32 (frame_address (esp context) + 4) - 4)
          = frame_address (esp context)) as Hback.
  { destruct (frame_alignment (esp context)) as (_ & _ & Hr).
    unfold u32 in *. rewrite Zminus_mod_idemp_l.
    replace (frame_address (esp context) + 4 - 4)
      with (frame_address (esp context)) by lia.
    apply Z.mod_small. exact Hr. }
  unfold sys_rt_sigreturn. rewrite Hback, Hread, Hframe.
  cbn [negb fr_uc uc_mcontext uc_sigmask sc_fpstate signal_save_sigcontext].
  eexists _, _. split; [reflexivity|]. split; [reflexivity|].
  split; [reflexivity|]. split; [|reflexivity].
  unfold send_pending_signal. destruct (negb _); reflexivity.
Qed.

End SigCallsFacts.

(** * What the worker leaves alone *)

Section SigWorkerFacts.

Import Sig SigCalls.

Variable _NSIG : nat.
Variable sigismember : Z → Z → bool.
Variable sigaddset : Z → Z → Z.
Variable sigdelset : Z → Z → Z.

(** [signal_deliver] writes nothing to the signal pipe and only adds to the
    calls on the main thread. *)
Lemma signal_deliver_quiet i st st' :
  signal_deliver _NSIG i st = Some st' →
  mask st' = mask st ∧ actions st' = actions st
  ∧ sigwrite st' = sigwrite st
  ∧ host_calls st `prefix_of` host_calls st'.
Proof.
  unfold signal_deliver.
  destruct (negb (in_range _NSIG (si_signo i))); [discriminate|].
  destruct (_ =? SIG_IGN); [intros [= <-]; auto|].
  destruct (_ =? SIG_DFL).
  - intros [= <-]. unfold signal_default_handler.
    destruct (bool_decide _); simpl; [|auto].
    repeat split. apply prefix_app_r. reflexivity.
  - intros [= <-]. simpl. repeat split. apply prefix_app_r. reflexivity.
Qed.

(** X23. The worker leaves the mask, the actions and the signal pipe alone:
    handling a [KILL] or a [DELIVER] packet changes neither the signal mask
    nor the installed actions, writes no packet, and only adds to the calls
    made on the main thread. *)
Theorem worker_keeps_mask_and_actions st st' :
  (∃ i, signal_thread_handle_kill _NSIG sigismember sigaddset i st = Some st')
  ∨ signal_thread_handle_deliver _NSIG sigismember sigdelset st = Some st' →
  mask st' = mask st ∧ actions st' = actions st
  ∧ sigwrite st' = sigwrite st
  ∧ host_calls st `prefix_of` host_calls st'.
Proof.
  intros [[i Hkill]|Hdel].
  - unfold signal_thread_handle_kill in Hkill.
    destruct (sigismember (pending st) (si_signo i)); cbn [negb] in Hkill;
      [injection Hkill as <-; auto|].
    destruct (sigismember (mask st) (si_signo i)
              || negb (can_accept_signal st)).
    + destruct (negb (in_range _NSIG (si_signo i))); [discriminate|].
      injection Hkill as <-. simpl. auto.
    + apply (signal_deliver_quiet _ _ _ Hkill).
  - unfold signal_thread_handle_deliver in Hdel.
    apply deliver_scan_cases in Hdel as [->|(k & _ & _ & Hd)]; [auto|].
    apply signal_deliver_quiet in Hd. exact Hd.
Qed.

End SigWorkerFacts.

(** * The statements on concrete instances *)

Section Witnesses.

Import Vfs Sig Scenario.


(** Unblocking everything while [SIGUSR1] is pending writes one [DELIVER]
    packet. *)
Lemma rt_sigprocmask_delivers_witness :
  sigwrite (sys_rt_sigprocmask SIG_SETMASK
              (Some {| in_ok := true; in_val := 0 |}) None 8 usr1_pending).2
  = [SIGNAL_PACKET_DELIVER].
Proof.
  destruct (rt_sigprocmask_delivers SIG_SETMASK
              (Some {| in_ok := true; in_val := 0 |}) None 8 usr1_pending None
              (sys_rt_sigprocmask SIG_SETMASK
                 (Some {| in_ok := true; in_val := 0 |}) None 8
                 usr1_pending).2 eq_refl)
    as (_ & _ & Hsend & _).
  apply Hsend. vm_compute. discriminate.
Defined.

(** Installing a handler for [SIGKILL] fails and changes nothing. *)
Lemma rt_sigaction_rejects_kill_stop_witness :
  sys_rt_sigaction 64 SIGKILL
    (Some {| in_ok := true;
             in_val := {| sa_handler := 4096; sa_flags := 0;
                          sa_restorer := 0; sa_mask := 0 |} |})
    (Some true) 8 usr1_pending
  = (- EINVAL, None, usr1_pending).
Proof.
  apply rt_sigaction_rejects_kill_stop. left. reflexivity.
Defined.

(** A second [SIGUSR1] while the first is pending is dropped. *)
Lemma handle_kill_already_pending_witness :
  signal_thread_handle_kill 64 bit_member bit_add usr1_again usr1_pending
  = Some usr1_pending.
Proof.
  apply handle_kill_already_pending. vm_compute. reflexivity.
Defined.

(** S6: [dup2(0, 1)] makes descriptor 1 an alias of descriptor 0; file 11
    loses its only reference and is closed. *)
Lemma vfs_dup_spec_witness :
  ∃ st', vfs_dup 4 0 1 0 dup_state = Some (1, st')
         ∧ dup_effect dup_state st' 10%nat 1 0.
Proof.
  apply (proj1 (proj2 (vfs_dup_spec 4 dup_state 0 1 0 10%nat
                         ltac:(split; reflexivity) ltac:(reflexivity)))).
  - discriminate.
  - lia.
Defined.

(** The run of [fresh_file_ops] keeps the books of file 7. *)
Lemma refcount_accounting_witness :
  match run_ops 4 fresh_file_ops fresh_file with
  | Some t' =>
      refcount_inv 7%nat t'
      ∧ (live 7%nat (tk_state t') ∨ destroyed 7%nat (tk_state t'))
  | None => False
  end.
Proof.
  destruct (run_ops 4 fresh_file_ops fresh_file) as [t'|] eqn:Hrun.
  - apply (refcount_accounting 4 fresh_file_ops fresh_file t' 7%nat).
    + split; reflexivity.
    + split; [vm_compute; reflexivity | simpl; lia].
    + split; [simpl; lia | reflexivity].
    + exact Hrun.
  - vm_compute in Hrun. discriminate.
Defined.

(** With one free slot, [pipe2] fails and the table is as before. *)
Lemma sys_pipe2_failure_atomic_witness :
  ∃ r out st',
    sys_pipe2 2 two_files true 0 crowded_state = Some (r, out, st')
    ∧ (r < 0 → out = None ∧ fds st' = fds crowded_state)
    ∧ (∀ r1 fread fwrite st1,
         Z.land 0 O_DIRECT = 0 → Z.land 0 O_NONBLOCK = 0 → true = true →
         two_files 0 crowded_state = (r1, fread, fwrite, st1) → 0 ≤ r1 →
         r < 0 →
         r = - EMFILE
         ∧ ∀ g, f_ref st' g
                = f_ref st1 g
                  - (if decide (g = fread) then 1 else 0)
                  - (if decide (g = fwrite) then 1 else 0)).
Proof.
  apply (proj2 (sys_pipe2_failure_atomic 2 two_files crowded_state true 0
                  ltac:(split; reflexivity)
                  ltac:(intros flags st Hok; split; [reflexivity|exact Hok]))).
Defined.

(** The same runs, evaluated. *)

Example dup2_replaces :
  (λ '(r, st), (r, fds st, closed st, f_ref st 10%nat, f_ref st 11%nat))
    <$> vfs_dup 4 0 1 0 dup_state
  = Some (1, [Some 10%nat; Some 10%nat; None; None], [11%nat], 2, 0).
Proof. vm_compute. reflexivity. Qed.

Example dup_cloexec_first_empty :
  (λ '(r, st), (r, fds st, fds_cloexec st, f_ref st 10%nat))
    <$> vfs_dup 4 0 (-1) O_CLOEXEC dup_state
  = Some (2, [Some 10%nat; Some 11%nat; Some 10%nat; None], [0; 0; 1; 0], 2).
Proof. vm_compute. reflexivity. Qed.

Example fresh_file_destroyed :
  (λ t, (fds (tk_state t), closed (tk_state t),
         f_ref (tk_state t) 7%nat, tk_borrows t 7%nat))
    <$> run_ops 4 fresh_file_ops fresh_file
  = Some ([None; None; None; None], [7%nat], 0, 0).
Proof. vm_compute. reflexivity. Qed.

Example pipe2_no_room :
  (λ '(r, out, st), (r, out, fds st, closed st))
    <$> sys_pipe2 2 two_files true 0 crowded_state
  = Some (- EMFILE, None, [Some 1%nat; None], [6%nat; 5%nat]).
Proof. vm_compute. reflexivity. Qed.

Example pipe2_nonblock :
  (λ '(r, out, st), (r, out, fds st, closed st))
    <$> sys_pipe2 2 two_files true O_NONBLOCK crowded_state
  = Some (- EINVAL, None, [Some 1%nat; None], []).
Proof. vm_compute. reflexivity. Qed.

Example open_self_link :
  (λ r, (vo_ret r, vo_iterations r))
    <$> vfs_open 8 loop_state (str "/a") 0 0 (replicate 16 NUL) tt
  = Some (- ELOOP, 8%nat).
Proof. vm_compute. reflexivity. Qed.

Example unblock_pending :
  (λ '(r, old, st), (r, old, mask st, sigwrite st))
    (sys_rt_sigprocmask SIG_UNBLOCK
       (Some {| in_ok := true; in_val := Z.shiftl 1 SIGUSR1 |})
       (Some true) 8 usr1_pending)
  = (0, Some (Z.shiftl 1 SIGUSR1), 0, [SIGNAL_PACKET_DELIVER]).
Proof. vm_compute. reflexivity. Qed.

Example block_more_keeps_quiet :
  (λ '(r, old, st), (r, mask st, sigwrite st))
    (sys_rt_sigprocmask SIG_BLOCK
       (Some {| in_ok := true; in_val := 1 |}) None 8 usr1_pending)
  = (0, 1025, []).
Proof. vm_compute. reflexivity. Qed.

End Witnesses.

(** * The further statements, on the instances *)

Section MoreWitnesses.

Import Path Vfs VfsCalls VfsIo Sig SigCalls Scenario Cases.

(** The instances are in good shape. *)
Lemma component_home : component (str "home").
Proof.
  repeat split; try discriminate;
    apply (bool_decide_unpack _); vm_compute; exact I.
Qed.

Lemma exec_state_ok : table_ok 4 exec_state.
Proof. split; reflexivity. Qed.

Lemma exec_state_clean : clean_dir (cwd exec_state).
Proof.
  right. exists [], (str "home").
  split; [constructor|]. split; [exact component_home|reflexivity].
Qed.

(** From ["/home"], ["../home/./bin//x/"] normalises to ["/home/bin/x"],
    which is in normal form. *)
Lemma normalize_path_normal_form_witness :
  normalised (str "/home/bin/x").
Proof.
  apply (normalize_path_normal_form (str "/home") (str "../home/./bin//x/")
           (str "/home/bin/x")).
  - exact exec_state_clean.
  - apply (bool_decide_unpack _). vm_compute. exact I.
  - vm_compute. reflexivity.
  - reflexivity.
Defined.

(** That answer is left alone by a second pass, here from ["/tmp"]. *)
Lemma normalize_path_idempotent_witness :
  normalize_path (str "/tmp") (str "/home/bin/x") = Some (str "/home/bin/x").
Proof.
  apply (normalize_path_idempotent (str "/home") (str "/tmp")
           (str "../home/./bin//x/") (str "/home/bin/x")).
  - exact exec_state_clean.
  - apply (bool_decide_unpack _). vm_compute. exact I.
  - vm_compute. reflexivity.
  - reflexivity.
Defined.

(** The file 9 goes into descriptor 2, the free one, with its flag. *)
Lemma vfs_store_file_get_witness :
  vfs_get 4 2 (vfs_store_file 4 9%nat 1 exec_state).2 = Some 9%nat
  ∧ cloexec_of (vfs_store_file 4 9%nat 1 exec_state).2 2 = 1.
Proof.
  destruct (vfs_store_file_get 4 exec_state 9%nat 1 2
              (vfs_store_file 4 9%nat 1 exec_state).2
              exec_state_ok eq_refl) as [Hstored _].
  destruct (Hstored ltac:(lia)) as (_ & _ & Hget & Hflag & _).
  split; [exact Hget|exact Hflag].
Defined.

(** Closing descriptor 1 destroys the file 2, which had one reference;
    closing it again fails. *)
Lemma sys_close_releases_witness :
  ∃ st', sys_close 4 1 exec_state = Some (0, st')
         ∧ vfs_get 4 1 st' = None ∧ closed st' = [2%nat]
         ∧ sys_close 4 1 st' = Some (- EBADF, st').
Proof.
  destruct (sys_close_releases 4 exec_state 1 2%nat exec_state_ok eq_refl)
    as (st' & Hclose & Hget & _ & _ & _ & Hclosed & Hagain).
  exists st'. split; [exact Hclose|]. split; [exact Hget|].
  split; [exact Hclosed|exact Hagain].
Defined.

(** Descriptor 0 survives the reset, descriptor 1 (close-on-exec) does
    not. *)
Lemma vfs_reset_closes_cloexec_witness :
  ∃ st', vfs_reset 4 exec_state = Some st'
         ∧ umask st' = 18
         ∧ vfs_get 4 0 st' = Some 1%nat ∧ vfs_get 4 1 st' = None.
Proof.
  destruct (vfs_reset_closes_cloexec 4 exec_state exec_state_ok)
    as (st' & Hreset & _ & Humask & _ & Hfds).
  exists st'. split; [exact Hreset|]. split; [exact Humask|].
  split.
  - apply (proj1 (Hfds 0 ltac:(lia))).
  - apply (proj1 (Hfds 1 ltac:(lia))).
Defined.

(** The books of the file 2 balance. *)
Lemma exec_tracked_accounted : accounted 4 2%nat exec_tracked.
Proof.
  split; [exact exec_state_ok|].
  split; [split; [reflexivity|simpl; lia]|].
  left. split; [simpl; lia|reflexivity].
Qed.

(** They still balance after the reset, which closes the file. *)
Lemma vfs_reset_accounted_witness :
  match vfs_reset 4 exec_state with
  | Some st' =>
      accounted 4 2%nat {| tk_state := st'; tk_borrows := tk_borrows exec_tracked |}
  | None => False
  end.
Proof.
  destruct (vfs_reset 4 exec_state) as [st'|] eqn:Hreset.
  - apply (vfs_reset_accounted 4 exec_tracked 2%nat st'
             exec_tracked_accounted Hreset).
  - vm_compute in Hreset. discriminate.
Defined.

(** After the shutdown no descriptor is open and the file 2 is
    destroyed. *)
Lemma vfs_shutdown_releases_all_witness :
  ∃ st', vfs_shutdown 4 exec_state = Some st'
         ∧ (∀ fd, vfs_get 4 fd st' = None)
         ∧ destroyed 2%nat st'.
Proof.
  destruct (vfs_shutdown_releases_all 4 exec_tracked 2%nat
              exec_tracked_accounted)
    as (st' & Hshut & Hempty & _ & _ & Hgone).
  exists st'. split; [exact Hshut|]. split; [exact Hempty|].
  apply Hgone; [split; [simpl; lia|reflexivity]|reflexivity].
Defined.

(** Descriptor 0 is marked close-on-exec, reads back as marked, and is
    closed by the reset that follows. *)
Lemma fcntl_setfd_getfd_witness :
  ∃ st1, sys_fcntl 4 (λ _, 0) 0 F_SETFD 1 exec_state = Some (0, st1)
         ∧ sys_fcntl 4 (λ _, 0) 0 F_GETFD 0 st1 = Some (FD_CLOEXEC, st1)
         ∧ ∃ st2, vfs_reset 4 st1 = Some st2 ∧ vfs_get 4 0 st2 = None.
Proof.
  destruct (fcntl_setfd_getfd 4 (λ _, 0) exec_state 0 1 1%nat
              exec_state_ok eq_refl)
    as (st1 & Hset & Hget & _ & _ & _ & _ & st2 & Hreset & Hgone).
  exists st1. split; [exact Hset|]. split; [exact (Hget 0)|].
  exists st2. split; [exact Hreset|exact Hgone].
Defined.

(** The instance of S6 and its allocator. *)
Lemma dup_state_ok : table_ok 4 dup_state.
Proof. split; reflexivity. Qed.

Lemma two_files_keeps_table : pipe_alloc_keeps_table 4 two_files.
Proof. intros flags st Hok. split; [reflexivity|exact Hok]. Qed.

(** With descriptors 2 and 3 free, [pipe2(O_CLOEXEC)] stores the files 5
    and 6 there. *)
Lemma sys_pipe2_success_witness :
  ∃ out st',
    sys_pipe2 4 two_files true O_CLOEXEC dup_state = Some (0, out, st')
    ∧ ∃ rfd wfd, out = Some (rfd, wfd) ∧ 0 ≤ rfd < wfd
                 ∧ vfs_get 4 rfd st' = Some 5%nat
                 ∧ vfs_get 4 wfd st' = Some 6%nat
                 ∧ cloexec_of st' (Z.to_nat rfd) = 1.
Proof.
  destruct (sys_pipe2 4 two_files true O_CLOEXEC dup_state)
    as [[[r out] st']|] eqn:Hpipe; [|vm_compute in Hpipe; discriminate].
  assert (r = 0) as -> by (vm_compute in Hpipe; congruence).
  exists out, st'. split; [reflexivity|].
  destruct (sys_pipe2_success 4 two_files dup_state O_CLOEXEC
              0 5%nat 6%nat (two_files O_CLOEXEC dup_state).2 out st'
              dup_state_ok two_files_keeps_table eq_refl Hpipe)
    as (rfd & wfd & Hout & Hlt & _ & _ & _ & Hr & Hw & _ & Hc & _).
  exists rfd, wfd. auto.
Defined.

(** [open("notes", O_CLOEXEC)] returns descriptor 2, which holds the
    file 9. *)
Lemma sys_open_outcome_witness :
  ∃ fd st' w',
    sys_open 4 8 true (str "notes") O_CLOEXEC 0 [] exec_state tt
    = Some (fd, st', w')
    ∧ (0 ≤ fd → vfs_get 4 fd st' = Some 9%nat)
    ∧ fd = 2.
Proof.
  destruct (sys_open 4 8 true (str "notes") O_CLOEXEC 0 [] exec_state tt)
    as [[[fd st'] w']|] eqn:Hopen; [|vm_compute in Hopen; discriminate].
  exists fd, st', w'. split; [reflexivity|].
  destruct (sys_open_outcome 4 8 exec_state (str "notes") O_CLOEXEC 0 [] tt
              fd st' w' exec_state_ok Hopen) as (res & Hres & Hgood & _).
  split.
  - intros Hfd. destruct (Hgood Hfd) as (_ & _ & _ & Hget & _).
    rewrite Hget. vm_compute in Hres. injection Hres as <-. reflexivity.
  - vm_compute in Hopen. congruence.
Defined.

Lemma exec_state_mounts : mounts_absolute exec_state.
Proof. repeat constructor. Qed.

(** [chdir("../tmp/.")] from ["/home"] succeeds and leaves a working
    directory in good shape. *)
Lemma sys_chdir_keeps_cwd_clean_witness :
  ∃ st' w',
    sys_chdir 4 8 true (str "../tmp/.") [] exec_state tt = Some (0, st', w')
    ∧ clean_dir (cwd st') ∧ fds st' = fds exec_state.
Proof.
  destruct (sys_chdir 4 8 true (str "../tmp/.") [] exec_state tt)
    as [[[r st'] w']|] eqn:Hcd; [|vm_compute in Hcd; discriminate].
  assert (r = 0) as -> by (vm_compute in Hcd; congruence).
  exists st', w'. split; [reflexivity|].
  destruct (sys_chdir_keeps_cwd_clean 4 8 exec_state (str "../tmp/.") [] tt
              0 st' w' exec_state_ok exec_state_mounts exec_state_clean)
    as (Hclean & _ & _ & Hfds).
  - apply (bool_decide_unpack _). vm_compute. exact I.
  - exact Hcd.
  - split; [exact Hclean|exact Hfds].
Defined.


(** The second of the two buffers is at a bad address: nothing is
    read. *)
Lemma iov_buffers_checked_first_witness :
  sys_readv 4 short_device mapped 0 two_buffers 2 exec_state tt
  = Some (- EFAULT, tt).
Proof.
  apply (proj1 (iov_buffers_checked_first 4 short_device short_device
                  mapped mapped 0 two_buffers 2 exec_state tt 1%nat 1%nat
                  ltac:(lia) eq_refl ltac:(lia))).
  - discriminate.
  - reflexivity.
Defined.

(** The device returns at most 100. *)
Lemma short_device_int (f : nat) (go : @transfer unit) (w : unit) (b l : Z) :
  short_device f = Some go → (go w b l).1 < 2 ^ 31.
Proof.
  intros [= <-]. simpl. change (2 ^ 31) with 2147483648. lia.
Qed.

(** Reading into the first buffer alone, either way. *)
Lemma iov_one_buffer_witness :
  sys_readv 4 short_device mapped 0 two_buffers 1 exec_state tt
  = sys_read 4 short_device mapped 0 8192 16 exec_state tt.
Proof.
  apply (proj1 (iov_one_buffer 4 short_device short_device mapped mapped
                  0 two_buffers exec_state tt
                  short_device_int short_device_int)).
Defined.

(** [link("notes", "copy")] with a driver that links: the file 9 is
    released. *)
Lemma sys_link_reference_witness :
  ∃ r st' w',
    sys_link 8 link_always (λ _, true) true true (str "notes") (str "copy")
      [] [] exec_state tt = Some (r, st', w')
    ∧ (st' = vfs_release 9%nat exec_state ∨ (r = - ELOOP ∧ st' = exec_state)).
Proof.
  destruct (sys_link 8 link_always (λ _, true) true true (str "notes")
              (str "copy") [] [] exec_state tt)
    as [[[r st'] w']|] eqn:Hlink; [|vm_compute in Hlink; discriminate].
  exists r, st', w'. split; [reflexivity|].
  destruct (sys_link_reference 8 link_always (λ _, true) (str "notes")
              (str "copy") [] [] exec_state tt r st' w' Hlink)
    as (res & Hres & _ & Hgood).
  vm_compute in Hres. injection Hres as <-.
  destruct (Hgood ltac:(simpl; lia)) as (f & Hf & _ & Hwin).
  injection Hf as <-. apply Hwin. reflexivity.
Defined.

(** The bit-set macros of the instances add and remove one member. *)
Lemma bit_shift_one (i j : Z) :
  0 ≤ i → 0 ≤ j → Z.testbit (Z.shiftl 1 i) j = (j =? i).
Proof.
  intros Hi Hj. rewrite Z.shiftl_spec by exact Hj.
  destruct (Z.eqb_spec j i) as [->|Hne].
  - rewrite Z.sub_diag. reflexivity.
  - destruct (Z.lt_ge_cases j i) as [Hlt|Hge].
    + apply Z.testbit_neg_r. lia.
    + apply Z.bits_above_log2; simpl; lia.
Qed.

Lemma bit_macros_ok : sigset_macros_ok bit_member bit_add bit_del.
Proof.
  intros s i j Hi Hj. unfold bit_member, bit_add, bit_del.
  rewrite Z.lor_spec, Z.ldiff_spec, bit_shift_one by assumption.
  split; [apply orb_comm|apply andb_comm].
Qed.

(** No signal is pending in [usr1_handled]. *)
Lemma nothing_pending (m : Z) (j : nat) :
  ready bit_member m usr1_handled j = false.
Proof. unfold ready. simpl. unfold bit_member. rewrite Z.bits_0. reflexivity. Qed.

(** With [SIGUSR1] pending and the mask cleared, [DELIVER] hands over
    [SIGUSR1]. *)
Lemma handle_deliver_lowest_first_witness :
  signal_thread_handle_deliver 64 bit_member bit_del (set_mask 0 usr1_pending)
  = signal_deliver 64 (info usr1_pending !!! 10%nat)
      (set_pending (bit_del (pending usr1_pending) 10) (set_mask 0 usr1_pending)).
Proof.
  apply (proj1 (handle_deliver_lowest_first 64 bit_member bit_del
                  (set_mask 0 usr1_pending)) eq_refl 10%nat).
  - lia.
  - reflexivity.
  - intros j Hj.
    do 10 (destruct j as [|j]; [reflexivity|]). lia.
Defined.

(** [SIGUSR1] arrives while blocked and is kept; after the mask is
    cleared its handler gets the record that arrived. *)
Lemma kill_blocked_then_deliver_witness :
  ∃ st1 st2,
    signal_thread_handle_kill 64 bit_member bit_add usr1_again usr1_handled
    = Some st1
    ∧ host_calls st1 = []
    ∧ signal_thread_handle_deliver 64 bit_member bit_del (set_mask 0 st1)
      = Some st2
    ∧ current_siginfo st2 = usr1_again
    ∧ host_calls st2 = handler_calls.
Proof.
  destruct (kill_blocked_then_deliver 64 bit_member bit_add bit_del
              usr1_handled usr1_again 10%nat 0 bit_macros_ok)
    as (st1 & st2 & Hkill & Hquiet & _ & Hdeliver & Hinfo & Hcalls & _).
  - reflexivity.
  - reflexivity.
  - lia.
  - reflexivity.
  - reflexivity.
  - reflexivity.
  - reflexivity.
  - intros j _. apply nothing_pending.
  - vm_compute. discriminate.
  - vm_compute. discriminate.
  - exists st1, st2. auto.
Defined.

Lemma usr1_handled_info_ok : pending_info_ok 64 bit_member usr1_handled.
Proof.
  intros j _. simpl. unfold bit_member. rewrite Z.bits_0. discriminate.
Qed.

(** The records are in step after that [KILL] packet. *)
Lemma pending_info_preserved_witness :
  match signal_thread_handle_kill 64 bit_member bit_add usr1_again
          usr1_handled with
  | Some st' =>
      pending_info_ok 64 bit_member st' ∧ length (info st') = 64%nat
  | None => False
  end.
Proof.
  destruct (signal_thread_handle_kill 64 bit_member bit_add usr1_again
              usr1_handled) as [st'|] eqn:Hkill;
    [|vm_compute in Hkill; discriminate].
  apply (proj1 (pending_info_preserved 64 bit_member bit_add bit_del
                  usr1_handled bit_macros_ok eq_refl usr1_handled_info_ok)
           usr1_again st' Hkill).
Defined.

(** A handler for [SIGUSR2] is installed and read back. *)
Lemma rt_sigaction_install_query_witness :
  ∃ st1,
    sys_rt_sigaction 64 SIGUSR2
      (Some {| in_ok := true;
               in_val := {| sa_handler := 8192; sa_flags := 0;
                            sa_restorer := 0; sa_mask := 0 |} |})
      (Some true) sizeof_sigset_t usr1_handled
    = (0, Some inhabitant, st1)
    ∧ sys_rt_sigaction 64 SIGUSR2 None (Some true) sizeof_sigset_t st1
      = (0, Some {| sa_handler := 8192; sa_flags := 0;
                    sa_restorer := 0; sa_mask := 0 |}, st1).
Proof.
  destruct (rt_sigaction_install_query 64 usr1_handled SIGUSR2
              {| sa_handler := 8192; sa_flags := 0;
                 sa_restorer := 0; sa_mask := 0 |})
    as (st1 & Hset & Hget & _).
  - reflexivity.
  - unfold SIGUSR2. lia.
  - discriminate.
  - discriminate.
  - exists st1. split; [exact Hset|exact Hget].
Defined.

(** From a stack pointer of [0x7fff0000] the frame and the save area
    fit below it, in this order. *)
Lemma signal_frame_layout_witness :
  frame_address 512 736 (esp guest_context) + 736
  ≤ fpstate_address 512 (esp guest_context)
  ∧ fpstate_address 512 (esp guest_context) + 512 ≤ esp guest_context
  ∧ esp guest_context - 512 - 736 - 527
    ≤ frame_address 512 736 (esp guest_context).
Proof.
  apply (signal_frame_layout 512 736 (esp guest_context)).
  - lia.
  - lia.
  - simpl. change (2 ^ 32) with 4294967296. lia.
Defined.

(** Set-up and return on that stack: the mask and the registers are
    back. *)
Lemma sigreturn_undoes_setup_witness :
  match signal_setup_handler 64 bit_add 512 736 12 140 0x7000
          guest_context usr1_handled with
  | Some su =>
      ∃ mc st3,
        sys_rt_sigreturn (λ _, true) (λ _, su_frame su)
          (u32 (esp (su_context su) + 4)) (su_state su)
        = sigreturn_resumed mc st3 [fpu_fxrstor (fpstate_address 512 (esp guest_context))]
        ∧ mask st3 = mask usr1_handled
        ∧ sc_sp mc = esp guest_context ∧ sc_ip mc = eip guest_context
  | None => False
  end.
Proof.
  destruct (signal_setup_handler 64 bit_add 512 736 12 140 0x7000
              guest_context usr1_handled) as [su|] eqn:Hsetup;
    [|vm_compute in Hsetup; discriminate].
  destruct (sigreturn_undoes_setup 64 bit_add 512 736 12 140 0x7000
              guest_context usr1_handled su (λ _, true) (λ _, su_frame su)
              (su_state su) Hsetup eq_refl eq_refl)
    as (mc & st3 & Hret & _ & _ & Hmask & Hregs).
  exists mc, st3. split; [exact Hret|]. split; [exact Hmask|].
  injection Hregs as _ _ _ _ _ _ Hsp Hip _ _. split; assumption.
Defined.


(** [dup(0)] gives descriptor 2; after [close(0)] the file 1 lives on
    there. *)
Lemma dup_then_close_moves_witness :
  ∃ st1 st2,
    sys_dup 4 0 exec_state = Some (2, st1)
    ∧ sys_close 4 0 st1 = Some (0, st2)
    ∧ vfs_get 4 2 st2 = Some 1%nat ∧ vfs_get 4 0 st2 = None
    ∧ closed st2 = [].
Proof.
  destruct (sys_dup 4 0 exec_state) as [[nfd st1]|] eqn:Hdup;
    [|vm_compute in Hdup; discriminate].
  assert (nfd = 2) as -> by (vm_compute in Hdup; congruence).
  destruct (dup_then_close_moves 4 exec_state 0 1%nat 2 st1
              exec_state_ok eq_refl ltac:(simpl; lia) Hdup) as [_ Hgood].
  destruct (Hgood ltac:(lia))
    as (_ & _ & _ & st2 & Hclose & Hnew & Hold & _ & _ & Hclosed).
  exists st1, st2. split; [reflexivity|]. split; [exact Hclose|].
  split; [exact Hnew|]. split; [exact Hold|exact Hclosed].
Defined.

(** The [KILL] packet for the blocked [SIGUSR1] leaves the mask alone. *)
Lemma worker_keeps_mask_and_actions_witness :
  match signal_thread_handle_kill 64 bit_member bit_add usr1_again
          usr1_handled with
  | Some st' => mask st' = mask usr1_handled ∧ sigwrite st' = []
  | None => False
  end.
Proof.
  destruct (signal_thread_handle_kill 64 bit_member bit_add usr1_again
              usr1_handled) as [st'|] eqn:Hkill;
    [|vm_compute in Hkill; discriminate].
  destruct (worker_keeps_mask_and_actions 64 bit_member bit_add bit_del
              usr1_handled st' (or_introl (ex_intro _ usr1_again Hkill)))
    as (Hmask & _ & Hpipe & _).
  split; [exact Hmask|exact Hpipe].
Defined.

End MoreWitnesses.
